(** * PROOF Protocol SDK: recording pipeline, archive adapter and batching
      middleware

    A shallow embedding of [src/ProofClient.ts], of the IPFS service
    ([IPFSService]) and of the request middleware ([ProofMiddleware]),
    with the properties the specification states about them.

    Conventions of the embedding:
    - a JavaScript string is a [string]: a sequence of code units below 256;
    - a JavaScript integer-valued number or bigint is a [Z];
    - an optional field ([x?: T]) is an [option T], [None] being [undefined];
    - code that may throw returns a sum, [inl] carrying the error;
    - the external collaborators (IPFS node, ledger, Node's [crypto] and
      [Buffer], [JSON]) are interfaces: a class of operations with the laws
      the libraries document, and explicit world state for what they store. *)

From Stdlib Require Import ZArith Ascii String List Bool Lia.
From Stdlib Require Import DecimalString DecimalPos DecimalZ.
From stdpp Require Import base option list gmap strings fin_maps.
From Equations Require Import Equations.
Import ListNotations.

Set Warnings "-register-all".
Local Open Scope string_scope.
Local Open Scope Z_scope.
Local Open Scope list_scope.

(** ** JavaScript values and the few primitives the sources rely on *)
Module JS.

(** Values that travel as [any] through the pipeline. *)
Inductive json : Type :=
| JNull
| JBool (b : bool)
| JNum (n : Z)
| JStr (s : string)
| JArr (items : list json)
| JObj (fields : list (string * json)).

(** [x ? .. : ..] on an optional string: [undefined] and [""] are falsy. *)
Definition truthy_str (o : option string) : bool :=
  match o with
  | Some s => negb (String.eqb s "")
  | None => false
  end.

(** Truthiness of an optional number: [undefined] and [0] are falsy. *)
Definition truthy_num (o : option Z) : bool :=
  match o with
  | Some n => negb (n =? 0)
  | None => false
  end.

(** [a || d] on an optional number. *)
Definition num_or (o : option Z) (d : Z) : Z :=
  match o with
  | Some n => if n =? 0 then d else n
  | None => d
  end.

(** [a || d] on an optional string. *)
Definition str_or (o : option string) (d : string) : string :=
  match o with
  | Some s => if String.eqb s "" then d else s
  | None => d
  end.

(** [s.startsWith(p)]. *)
Fixpoint startsWith (s p : string) {struct p} : bool :=
  match p with
  | EmptyString => true
  | String c p' =>
      match s with
      | EmptyString => false
      | String d s' => Ascii.eqb d c && startsWith s' p'
      end
  end.

(** [s.includes(c)] for a one-character needle. *)
Fixpoint includes_char (s : string) (c : ascii) : bool :=
  match s with
  | EmptyString => false
  | String d s' => Ascii.eqb d c || includes_char s' c
  end.

(** [n.toString()] of an integer: decimal digits, a leading minus sign. *)
Definition toString (n : Z) : string :=
  NilZero.string_of_int (Z.to_int n).

(** The integer a decimal string denotes, when it is one. *)
Definition parseInt (s : string) : option Z :=
  match NilZero.int_of_string s with
  | Some d => Some (Z.of_int d)
  | None => None
  end.

Definition hex_digit (n : N) : ascii :=
  match n with
  | 0 => "0" | 1 => "1" | 2 => "2" | 3 => "3" | 4 => "4" | 5 => "5"
  | 6 => "6" | 7 => "7" | 8 => "8" | 9 => "9" | 10 => "a" | 11 => "b"
  | 12 => "c" | 13 => "d" | 14 => "e" | _ => "f"
  end%N%char.

(** The last [k] hexadecimal digits of [n], most significant first. *)
Fixpoint hex_digits (k : nat) (n : N) : string :=
  match k with
  | O => ""
  | S k' => hex_digits k' (n / 16) +:+ String (hex_digit (n mod 16)) ""
  end.

(** A [bytes32] of the ledger, by the number it holds.  JavaScript sees
    it as [hexlify]: "0x" and 64 hexadecimal digits. *)
Definition bytes32 : Type := N.

Definition hexlify (x : bytes32) : string :=
  "0x" +:+ hex_digits 64 (x mod 2 ^ 256).

(** A time value of ECMAScript: milliseconds since the epoch, at most
    100 000 000 days away from it.  [Date.now()] and [new Date()] give
    time values; [new Date(t)] of a number outside the range is an
    invalid date. *)
Definition valid_time (t : Z) : bool :=
  (-8640000000000000 <=? t) && (t <=? 8640000000000000).

Record time_value : Type := {
  ms : Z;
  ms_valid : valid_time ms = true
}.

Definition epoch : time_value := {| ms := 0; ms_valid := eq_refl |}.

(** The time value of [t] milliseconds, the epoch when there is none. *)
Definition time_of (t : Z) : time_value :=
  match valid_time t as b return valid_time t = b -> time_value with
  | true => fun Hvalid => {| ms := t; ms_valid := Hvalid |}
  | false => fun _ => epoch
  end eq_refl.

End JS.
Import JS.

(** ** The request middleware: pattern filter and batch queue *)
Module Middleware.

(** *** Patterns *)

(** The regular expressions [matchPattern] can build.  The source text
    handed to [new RegExp] is ['^' + pattern.replace(/\*/g, '.*') + '$']:
    a sequence of atoms, each possibly starred, anchored at both ends. *)
Inductive atom : Type :=
| Lit (c : ascii)   (* an ordinary character, matching itself *)
| Dot.              (* [.]: any character but a line terminator *)

Definition regex : Type := list (atom * bool).

(** Characters with a meaning of their own in a pattern text. *)
Definition syntax_chars : list ascii :=
  ["092"; "^"; "$"; "."; "*"; "+"; "?"; "("; ")"; "["; "]"; "{"; "}"; "|"]%char.

Definition is_syntax_char (c : ascii) : bool :=
  existsb (Ascii.eqb c) syntax_chars.

Definition atom_of (c : ascii) : option atom :=
  if Ascii.eqb c "." then Some Dot
  else if is_syntax_char c then None
  else Some (Lit c).

(** Reading the text between the anchors.  [None]: the text uses regular
    expression syntax beyond atoms and stars (groups, classes, escapes,
    alternation, inner anchors), which this model does not interpret. *)
Fixpoint parse_regex (src : string) : option regex :=
  match src with
  | EmptyString => Some []
  | String c rest =>
      match atom_of c with
      | None => None
      | Some a =>
          match rest with
          | String "*" rest' =>
              match parse_regex rest' with
              | Some r => Some ((a, true) :: r)
              | None => None
              end
          | _ =>
              match parse_regex rest with
              | Some r => Some ((a, false) :: r)
              | None => None
              end
          end
      end
  end.

(** Line terminators a code unit below 256 can be: LF and CR. *)
Definition is_line_terminator (c : ascii) : bool :=
  Ascii.eqb c "010" || Ascii.eqb c "013".

Definition atom_matches (a : atom) (c : ascii) : bool :=
  match a with
  | Lit d => Ascii.eqb c d
  | Dot => negb (is_line_terminator c)
  end.

(** [regex.test(s)] for an expression anchored at both ends: the whole of
    [s] must be consumed.  A starred atom tries the rest of the expression
    at every position it can reach. *)
Fixpoint regex_test (r : regex) : string -> bool :=
  match r with
  | [] => fun s => match s with EmptyString => true | _ => false end
  | (a, false) :: r' =>
      fun s =>
        match s with
        | String c s' => atom_matches a c && regex_test r' s'
        | EmptyString => false
        end
  | (a, true) :: r' =>
      fix star (s : string) : bool :=
        regex_test r' s ||
        match s with
        | String c s' => atom_matches a c && star s'
        | EmptyString => false
        end
  end.

(** [pattern.replace(/\*/g, '.*')]. *)
Fixpoint replace_stars (pattern : string) : string :=
  match pattern with
  | EmptyString => EmptyString
  | String c rest =>
      if Ascii.eqb c "*" then String "." (String "*" (replace_stars rest))
      else String c (replace_stars rest)
  end.

(** [matchPattern(path, pattern)].  [None] stands for a wildcard pattern
    whose text falls outside [parse_regex]. *)
Definition matchPattern (path pattern : string) : option bool :=
  if includes_char pattern "*" then
    match parse_regex (replace_stars pattern) with
    | Some r => Some (regex_test r path)
    | None => None
    end
  else Some (String.eqb path pattern || startsWith path pattern).

Record ProofMiddlewareOptions : Type := {
  patterns : option (list string);
  excludePatterns : option (list string);
  batchInterval : option Z;
  batchSize : option Z
}.

(** The [for .. of] loops of [shouldRecord]: the first pattern that
    matches ends the loop. *)
Fixpoint first_match (path : string) (pats : list string) : option bool :=
  match pats with
  | [] => Some false
  | p :: ps =>
      match matchPattern path p with
      | None => None
      | Some true => Some true
      | Some false => first_match path ps
      end
  end.

(** [shouldRecord(path)].  An array, even an empty one, is truthy. *)
Definition shouldRecord (options : ProofMiddlewareOptions) (path : string)
  : option bool :=
  let excluded :=
    match excludePatterns options with
    | Some ex => first_match path ex
    | None => Some false
    end in
  match excluded with
  | None => None
  | Some true => Some false
  | Some false =>
      match patterns options with
      | Some ps => first_match path ps
      | None => Some true
      end
  end.

(** A pattern list whose every pattern [matchPattern] can decide on
    [path]. *)
Definition decided (path : string) (pats : list string) : Prop :=
  Forall (fun p => is_Some (matchPattern path p)) pats.



(** *** The batch queue *)

(** JavaScript arrays are objects on a heap and [this.batchQueue] holds a
    reference: the model keeps the heap, so that a copy and an alias
    differ. *)
Definition loc : Type := nat.

(** What [addToBatch] pushes: [{request, response, metadata: {timestamp}}]. *)
Record QueueEntry : Type := {
  request : json;
  response : json;
  captured : Z
}.

Record state : Type := {
  heap : gmap loc (list QueueEntry);   (* the arrays allocated so far *)
  next_loc : loc;                      (* allocation pointer *)
  batchQueue : loc;                    (* [this.batchQueue] *)
  batchTimer : option Z;               (* period of the interval timer *)
  in_flight : list loc;                (* batches whose submission is pending *)
  flushed : list loc                   (* every batch handed to
                                          [client.batchRecord], oldest first *)
}.

(** The array a reference points to. *)
Definition contents (st : state) (l : loc) : list QueueEntry :=
  default [] (heap st !! l).

(** [this.batchQueue] as a list. *)
Definition queue (st : state) : list QueueEntry :=
  contents st (batchQueue st).

(** An array literal or a spread copy: a fresh array. *)
Definition alloc (arr : list QueueEntry) (st : state) : loc * state :=
  (next_loc st,
   {| heap := <[next_loc st := arr]> (heap st);
      next_loc := S (next_loc st);
      batchQueue := batchQueue st;
      batchTimer := batchTimer st;
      in_flight := in_flight st;
      flushed := flushed st |}).

(** [arr.push(e)]: the array is changed in place. *)
Definition push (l : loc) (e : QueueEntry) (st : state) : state :=
  {| heap := <[l := contents st l ++ [e]]> (heap st);
     next_loc := next_loc st;
     batchQueue := batchQueue st;
     batchTimer := batchTimer st;
     in_flight := in_flight st;
     flushed := flushed st |}.

(** [processBatch()] up to its first [await]: the emptiness test, the copy
    [[...this.batchQueue]], the reset [this.batchQueue = []] and the call
    of [client.batchRecord(batch)], which suspends.  Nothing else runs in
    between: a JavaScript task is not preempted before it awaits. *)
Definition processBatch (st : state) : state :=
  if (length (queue st) =? 0)%nat then st
  else
    let '(batch, st1) := alloc (queue st) st in
    let '(fresh, st2) := alloc [] st1 in
    {| heap := heap st2;
       next_loc := next_loc st2;
       batchQueue := fresh;
       batchTimer := batchTimer st2;
       in_flight := in_flight st2 ++ [batch];
       flushed := flushed st2 ++ [batch] |}.

(** The rest of [processBatch], run when the submission settles: a log
    line on either outcome, nothing re-queued. *)
Definition batchSettled (batch : loc) (st : state) : state :=
  {| heap := heap st;
     next_loc := next_loc st;
     batchQueue := batchQueue st;
     batchTimer := batchTimer st;
     in_flight := filter (fun b => b ≠ batch) (in_flight st);
     flushed := flushed st |}.

(** [this.options.batchInterval] as a condition. *)
Definition batching (options : ProofMiddlewareOptions) : bool :=
  truthy_num (batchInterval options).

(** [this.options.batchSize || 100]. *)
Definition sizeLimit (options : ProofMiddlewareOptions) : Z :=
  num_or (batchSize options) 100.

(** [addToBatch(requestData, responseData)], [now] being [Date.now()]. *)
Definition addToBatch (options : ProofMiddlewareOptions)
    (requestData responseData : json) (now : Z) (st : state) : state :=
  let st1 :=
    push (batchQueue st)
      {| request := requestData; response := responseData; captured := now |}
      st in
  if Z.of_nat (length (queue st1)) >=? sizeLimit options
  then processBatch st1
  else st1.

(** The callback [startBatchProcessing] hands to [setInterval]. *)
Definition timerCallback (st : state) : state :=
  if (0 <? length (queue st))%nat then processBatch st else st.

(** [startBatchProcessing()]: the timer period is
    [this.options.batchInterval || 60000]. *)
Definition startBatchProcessing (options : ProofMiddlewareOptions)
    (st : state) : state :=
  {| heap := heap st;
     next_loc := next_loc st;
     batchQueue := batchQueue st;
     batchTimer := Some (num_or (batchInterval options) 60000);
     in_flight := in_flight st;
     flushed := flushed st |}.

(** The constructor: an empty queue, and the timer if an interval is set. *)
Definition create (options : ProofMiddlewareOptions) : state :=
  let st0 :=
    {| heap := {[ 0%nat := [] ]};
       next_loc := 1%nat;
       batchQueue := 0%nat;
       batchTimer := None;
       in_flight := [];
       flushed := [] |} in
  if batching options then startBatchProcessing options st0
  else st0.

(** What the event loop can run on a middleware. *)
Inductive event : Type :=
| Exchange (requestData responseData : json) (now : Z)
    (* an exchange that [shouldRecord] let through finished *)
| TimerFires
    (* the interval elapsed *)
| Settled (batch : loc).
    (* [client.batchRecord(batch)] resolved or rejected *)

Definition handle (options : ProofMiddlewareOptions) (st : state)
    (ev : event) : state :=
  match ev with
  | Exchange rq rs now =>
      (* the hooks: [addToBatch] when an interval is configured, and
         [recordImmediately] otherwise, which leaves the queue alone *)
      if batching options then addToBatch options rq rs now st else st
  | TimerFires =>
      match batchTimer st with
      | Some _ => timerCallback st
      | None => st
      end
  | Settled b => batchSettled b st
  end.

Definition run (options : ProofMiddlewareOptions) (st : state)
    (evs : list event) : state :=
  fold_left (handle options) evs st.

(** The entry an event appends to the queue, if any. *)
Definition entry_of (options : ProofMiddlewareOptions) (ev : event)
  : list QueueEntry :=
  match ev with
  | Exchange rq rs now =>
      if batching options
      then [{| request := rq; response := rs; captured := now |}]
      else []
  | _ => []
  end.

(** The entries a sequence of events appends, in order. *)
Definition appended (options : ProofMiddlewareOptions) (evs : list event)
  : list QueueEntry :=
  flat_map (entry_of options) evs.

(** Every entry of every batch flushed so far, oldest batch first. *)
Definition flushed_entries (st : state) : list QueueEntry :=
  concat (map (contents st) (flushed st)).

(** Every reference in use was allocated, and the queue is none of the
    flushed batches. *)
Definition well_formed (st : state) : Prop :=
  (batchQueue st < next_loc st)%nat
  /\ Forall (fun b => (b < next_loc st)%nat) (flushed st)
  /\ (batchQueue st ∉ flushed st)
  /\ NoDup (flushed st).

Definition is_exchange (ev : event) : Prop :=
  match ev with
  | Exchange _ _ _ => True
  | _ => False
  end.

(** No character of [s] is a line terminator. *)
Fixpoint single_line (s : string) : bool :=
  match s with
  | EmptyString => true
  | String c s' => negb (is_line_terminator c) && single_line s'
  end.

(** No character of [s] has a meaning of its own in a pattern text. *)
Fixpoint literal (s : string) : bool :=
  match s with
  | EmptyString => true
  | String c s' => negb (is_syntax_char c) && literal s'
  end.

(** The two lists hold the same patterns, in whatever order and number. *)
Definition same_patterns (ps qs : list string) : Prop :=
  forall p, In p ps <-> In p qs.

(** Two optional lists that are both absent, or both present with the same
    patterns. *)
Definition same_configured (a b : option (list string)) : Prop :=
  match a, b with
  | Some ps, Some qs => same_patterns ps qs
  | None, None => True
  | _, _ => False
  end.

(** [matchPattern] can decide every pattern of an optional list on [path]. *)
Definition decided_configured (path : string) (a : option (list string))
  : Prop :=
  match a with
  | Some ps => decided path ps
  | None => True
  end.

(** The queue is shorter than the size limit, and every batch handed to
    [client.batchRecord] has at least one entry and at most as many as the
    limit; a limit below one counts as one. *)
Definition within_limit (options : ProofMiddlewareOptions) (st : state) : Prop :=
  Z.of_nat (length (queue st)) < Z.max 1 (sizeLimit options)
  /\ Forall (fun b =>
               contents st b <> []
               /\ Z.of_nat (length (contents st b)) <= Z.max 1 (sizeLimit options))
       (flushed st).

End Middleware.

(** ** The runtime the SDK runs on: Node's [JSON], [Buffer] and [crypto] *)
Module Node.

Definition bytes : Type := list Byte.byte.

(** What propagates when code throws: [error.code] and [error.message]. *)
Record js_error : Type := {
  code : option string;
  message : string
}.

(** [new Error(msg)]. *)
Definition Error (msg : string) : js_error :=
  {| code := None; message := msg |}.

(** The library functions the sources call, with the laws their
    documentation states.  Nothing else is assumed of them. *)
Class Runtime : Type := {
  (** [JSON.stringify(v)], [JSON.stringify(v, null, 2)], [JSON.parse(s)]
      ([None]: a [SyntaxError]). *)
  JSON_stringify : json -> string;
  JSON_stringify_indented : json -> string;
  JSON_parse : string -> option json;
  (** [Buffer.from(s)] and [buf.toString('utf8')]. *)
  utf8_encode : string -> bytes;
  utf8_decode : bytes -> string;
  utf8_decode_encode : forall s, utf8_decode (utf8_encode s) = s;
  (** [buf.toString('base64')] and [Buffer.from(s, 'base64')]. *)
  base64_encode : bytes -> string;
  base64_decode : string -> bytes;
  base64_decode_encode : forall b, base64_decode (base64_encode b) = b;
  (** [buf.toString('hex')]. *)
  hex_encode : bytes -> string;
  (** [crypto.createHash('sha256').update(..).digest()]. *)
  sha256 : bytes -> bytes;
  (** [crypto.randomBytes(k)]: the bytes of the [n]-th draw. *)
  randomBytes : nat -> nat -> bytes;
  randomBytes_length : forall n k, length (randomBytes n k) = k;
  (** [aes-256-gcm]: [createCipheriv(key, iv)], [update] and [final] give
      the ciphertext, [getAuthTag] the tag. *)
  gcm_seal : bytes -> bytes -> bytes -> bytes * bytes;
  gcm_tag_length : forall key iv pt, length (snd (gcm_seal key iv pt)) = 16%nat;
  (** [createDecipheriv(key, iv)], [setAuthTag], [update] and [final];
      [None]: [final] throws, the tag does not authenticate the data. *)
  gcm_open : bytes -> bytes -> bytes -> bytes -> option bytes;
  gcm_open_seal : forall key iv pt,
    gcm_open key iv (snd (gcm_seal key iv pt)) (fst (gcm_seal key iv pt))
    = Some pt;
  (** The CID (version 1) and the reported size of a block. *)
  cid_of : bytes -> string;
  block_size : bytes -> Z;
  (** [ethers.formatEther(wei)]. *)
  formatEther : Z -> string;
  (** [date.toISOString()] of the date of a time value. *)
  toISOString : Z -> string;
  (** The template of [createCertificate], by what fills its holes, in
      the order in which they are evaluated: [data.network],
      [data.recordId], [data.transactionHash], the ISO text of
      [data.timestamp], [data.requestUrl], [data.responseStatus] and the
      ISO text of the current date. *)
  certificate_html :
    string -> string -> string -> string -> string -> Z -> string -> string
}.

(** [new Date(t).toISOString()]: a [RangeError] when [t] is no time
    value. *)
Definition date_toISOString `{Runtime} (t : Z) : js_error + string :=
  if valid_time t then inr (toISOString t)
  else inl {| code := None; message := "Invalid time value" |}.

(** [s.replace(pat, '')] for a string [pat]: the first occurrence goes. *)
Fixpoint remove_first (pat s : string) : string :=
  if (startsWith s pat && negb (String.eqb pat ""))%bool
  then String.substring (String.length pat) (String.length s - String.length pat) s
  else
    match s with
    | EmptyString => EmptyString
    | String c s' => String c (remove_first pat s')
    end.

End Node.
Import Node.

(** ** The world outside the process *)
Module World.

(** *** Ledger *)

(** The functions of the two contract objects are those the ABI a
    contract is built from declares ([PROOF_TOKEN_ABI] and
    [PROOF_REGISTRY_ABI] of [src/abis.ts]). *)
Definition PROOF_TOKEN_ABI : list string :=
  ["balanceOf"; "allowance"; "totalSupply"; "decimals"; "symbol"; "name";
   "approve"; "transfer"; "transferFrom"].

Definition PROOF_REGISTRY_ABI : list string :=
  ["baseRecordPrice"; "userRecordCount"; "verifyRecord";
   "calculateBatchPrice"; "getUserRecords"; "getStatistics";
   "getPricingInfo"; "getCurrentBurnRate"; "sharedAccess";
   "storeAPIRecord"; "storeBatchRecords"; "grantAccess"; "revokeAccess"].

(** [this.proofToken] and [this.proofRegistry]. *)
Inductive Contract : Type := proofToken | proofRegistry.

Definition abi_of (c : Contract) : list string :=
  match c with
  | proofToken => PROOF_TOKEN_ABI
  | proofRegistry => PROOF_REGISTRY_ABI
  end.

Definition contract_text (c : Contract) : string :=
  match c with
  | proofToken => "this.proofToken"
  | proofRegistry => "this.proofRegistry"
  end.

(** The events of the registry's ABI, with the arguments that name
    something.  A [recordId] or [batchId] is a [bytes32]. *)
Inductive RegistryEvent : Type :=
| RecordStored (recordId : bytes32) (recorder : string)
| BatchRecordStored (batchId : bytes32) (recordCount : Z)
| TokensCollected (sender : string) (amount : Z)
| AccessGranted (recordId : bytes32) (viewer : string)
| AccessRevoked (recordId : bytes32) (viewer : string).

Definition event_name (e : RegistryEvent) : string :=
  match e with
  | RecordStored _ _ => "RecordStored"
  | BatchRecordStored _ _ => "BatchRecordStored"
  | TokensCollected _ _ => "TokensCollected"
  | AccessGranted _ _ => "AccessGranted"
  | AccessRevoked _ _ => "AccessRevoked"
  end.

(** A log entry of a confirmed transaction, as
    [proofRegistry.interface.parseLog] sees it. *)
Inductive Log : Type :=
| Undecodable                 (* [parseLog] throws *)
| Foreign                     (* [parseLog] returns [null]: no event of
                                 the registry's ABI *)
| Decoded (event : RegistryEvent).

Record TransactionReceipt : Type := {
  hash : string;
  blockNumber : Z;
  gasUsed : Z;
  gasPrice : Z;
  logs : list Log
}.

(** What a write call resolves to: [tx.hash] and the outcome of
    [tx.wait()]. *)
Record TransactionResponse : Type := {
  tx_hash : string;
  wait : js_error + TransactionReceipt
}.

(** Calls that reach the token and registry contracts. *)
Inductive call : Type :=
| RecordPrice
| Allowance (owner spender : string)
| Approve (spender : string) (amount : Z)
| StoreAPIRecord (requestHash responseHash ipfsHash : string) (visibility : Z)
| StoreBatchRecords (requestHashes responseHashes : list string)
    (ipfsHash : string) (visibility : Z).

(** The contract a call is made on and the name of its function. *)
Definition contract_of (c : call) : Contract :=
  match c with
  | RecordPrice => proofRegistry
  | Allowance _ _ => proofToken
  | Approve _ _ => proofToken
  | StoreAPIRecord _ _ _ _ => proofRegistry
  | StoreBatchRecords _ _ _ _ => proofRegistry
  end.

Definition function_of (c : call) : string :=
  match c with
  | RecordPrice => "recordPrice"
  | Allowance _ _ => "allowance"
  | Approve _ _ => "approve"
  | StoreAPIRecord _ _ _ _ => "storeAPIRecord"
  | StoreBatchRecords _ _ _ _ => "storeBatchRecords"
  end.

Record ledger : Type := {
  signerAddress : string;
  registryAddress : string;
  recordPrice : js_error + Z;       (* what a call of [recordPrice()] would
                                       be answered, were the function
                                       declared (see [PROOF_REGISTRY_ABI]) *)
  allowance : Z;                    (* allowance of the registry *)
  submit : call -> js_error + TransactionResponse;
                                    (* answer to a write call *)
  trace : list call                 (* the calls made, oldest first *)
}.

(** *** Everything a run can read or change *)
Record world : Type := {
  blocks : gmap string bytes;       (* content of the IPFS node, by CID *)
  faults : list bool;               (* whether the next [add]s fail *)
  draws : nat;                      (* [randomBytes] calls so far *)
  clock : nat -> time_value;        (* what the readings of the clock
                                       give, in the order they are taken *)
  ticks : nat;                      (* readings of the clock so far *)
  chain : ledger;
  delivered : list string           (* [recordId]s given to [onRecord] *)
}.

(** Computations that read and change the world and may throw. *)
Definition M (A : Type) : Type := world -> (js_error + A) * world.

Definition ret {A} (a : A) : M A := fun w => (inr a, w).

Definition throw {A} (e : js_error) : M A := fun w => (inl e, w).

Definition bind {A B} (m : M A) (f : A -> M B) : M B :=
  fun w =>
    match m w with
    | (inl e, w') => (inl e, w')
    | (inr a, w') => f a w'
    end.

(** [try { m } catch (error) { h error }]. *)
Definition try_catch {A} (m : M A) (h : js_error -> M A) : M A :=
  fun w =>
    match m w with
    | (inl e, w') => h e w'
    | (inr a, w') => (inr a, w')
    end.

Definition modify (f : world -> world) : M unit := fun w => (inr tt, f w).

(** A value the environment may refuse to give. *)
Definition lift {A} (r : js_error + A) : M A := fun w => (r, w).

Definition with_blocks (f : gmap string bytes -> gmap string bytes)
    (w : world) : world :=
  {| blocks := f (blocks w); faults := faults w; draws := draws w;
     clock := clock w; ticks := ticks w; chain := chain w;
     delivered := delivered w |}.

Definition with_faults (fs : list bool) (w : world) : world :=
  {| blocks := blocks w; faults := fs; draws := draws w;
     clock := clock w; ticks := ticks w; chain := chain w;
     delivered := delivered w |}.

Definition with_draws (n : nat) (w : world) : world :=
  {| blocks := blocks w; faults := faults w; draws := n;
     clock := clock w; ticks := ticks w; chain := chain w;
     delivered := delivered w |}.

Definition with_ticks (n : nat) (w : world) : world :=
  {| blocks := blocks w; faults := faults w; draws := draws w;
     clock := clock w; ticks := n; chain := chain w;
     delivered := delivered w |}.

Definition with_chain (f : ledger -> ledger) (w : world) : world :=
  {| blocks := blocks w; faults := faults w; draws := draws w;
     clock := clock w; ticks := ticks w; chain := f (chain w);
     delivered := delivered w |}.

Definition with_delivered (d : list string) (w : world) : world :=
  {| blocks := blocks w; faults := faults w; draws := draws w;
     clock := clock w; ticks := ticks w; chain := chain w;
     delivered := d |}.

(** What the [k]-th reading of the clock from now on gives. *)
Definition reading (w : world) (k : nat) : Z :=
  ms (clock w (k + ticks w)).

(** [Date.now()], and the time of [new Date()]: the next reading. *)
Definition now : M Z :=
  fun w => (inr (reading w 0), with_ticks (S (ticks w)) w).

(** [Promise.all(ps)] over promises started in order: every one of them
    runs, and the result is the list of their values, in the order of
    [ps], unless one of them rejected.  The promises settle in an order
    of their own; the model settles them in the order in which they were
    started, which decides nothing but which reading of the clock each
    of them takes. *)
Fixpoint promise_all {A} (ps : list (M A)) : M (list A) :=
  fun w =>
    match ps with
    | [] => (inr [], w)
    | p :: ps' =>
        let '(r, w1) := p w in
        let '(rs, w2) := promise_all ps' w1 in
        (match r, rs with
         | inl e, _ => inl e
         | inr _, inl e => inl e
         | inr a, inr l => inr (a :: l)
         end, w2)
    end.

End World.
Import World.

Declare Scope monad_scope.
Delimit Scope monad_scope with monad.
Notation "'let*' x ':=' m 'in' k" := (bind m (fun x => k))
  (at level 10, x name, m at level 100, k at level 200) : monad_scope.
Notation "'run*' m 'in' k" := (bind m (fun _ => k))
  (at level 10, m at level 100, k at level 200) : monad_scope.
Local Open Scope monad_scope.

(** Case analysis on the next outcome a run depends on; a run that
    succeeded did not go through the error branch. *)
Ltac case_outcome :=
  match goal with
  | |- context [match ?x with inl _ => _ | inr _ => _ end] =>
      let e := fresh "e" in
      let a := fresh "a" in
      let Hx := fresh "Hout" in
      destruct x as [e|a] eqn:Hx; [discriminate|]
  end.

(** ** The archive adapter: [IPFSService] *)
Module IPFS.

(** What the service reads once from its environment. *)
Record IPFSService : Type := {
  gatewayUrl : string;                (* [IPFS_GATEWAY_URL] or the default *)
  ENCRYPTION_KEY : option string      (* [process.env.ENCRYPTION_KEY] *)
}.

Record IPFSUploadResult : Type := {
  cid : string;
  url : string;
  size : Z;
  timestamp : Z
}.

(** What [client.files.stat] reports. *)
Record FileStat : Type := {
  cumulativeSize : option Z;
  stat_size : option Z
}.

Section Service.
Context `{Runtime}.
Variable service : IPFSService.

(** [client.add({content, path}, {pin, cidVersion: 1, ..})]: the node
    stores the block under its CID, unless the call fails. *)
Definition client_add (content : bytes) : M (string * Z) :=
  fun w =>
    match faults w with
    | true :: fs =>
        (inl {| code := None; message := "fetch failed" |}, with_faults fs w)
    | _ =>
        (inr (cid_of content, block_size content),
         with_blocks <[cid_of content := content]> (with_faults (tail (faults w)) w))
    end.

(** [client.cat(cid)], its chunks concatenated. *)
Definition client_cat (c : string) : M bytes :=
  fun w =>
    match blocks w !! c with
    | Some content => (inr content, w)
    | None => (inl {| code := None; message := "block not found" |}, w)
    end.

(** [crypto.randomBytes(k)]. *)
Definition draw (k : nat) : M bytes :=
  fun w => (inr (randomBytes (draws w) k), with_draws (S (draws w)) w).

(** [encrypt(content)]. *)
Definition encrypt (content : string) : M string :=
  if negb (truthy_str (ENCRYPTION_KEY service)) then
    throw (Error ("Encryption key not configured. Set ENCRYPTION_KEY "
                  +:+ "environment variable (32 bytes hex or 64 char string)."))
  else
    let keyBuffer := sha256 (utf8_encode (str_or (ENCRYPTION_KEY service) "")) in
    let* iv := draw 12 in
    let sealed := gcm_seal keyBuffer iv (utf8_encode content) in
    let encrypted := base64_encode (fst sealed) in
    let authTag := snd sealed in
    let combined := iv ++ authTag ++ base64_decode encrypted in
    ret ("ENCRYPTED_V2:" +:+ base64_encode combined).

(** [decrypt(content)]. *)
Definition decrypt (content : string) : M string :=
  if negb (truthy_str (ENCRYPTION_KEY service)) then
    throw (Error ("Encryption key not configured. Set ENCRYPTION_KEY "
                  +:+ "environment variable."))
  else if startsWith content "ENCRYPTED:" then
    let encoded := remove_first "ENCRYPTED:" content in
    ret (utf8_decode (base64_decode encoded))
  else if negb (startsWith content "ENCRYPTED_V2:") then
    ret content
  else
    let keyBuffer := sha256 (utf8_encode (str_or (ENCRYPTION_KEY service) "")) in
    let combined := base64_decode (remove_first "ENCRYPTED_V2:" content) in
    let iv := take 12 combined in
    let authTag := take 16 (drop 12 combined) in
    let encryptedData := drop 28 combined in
    match gcm_open keyBuffer iv authTag encryptedData with
    | Some decrypted => ret (utf8_decode decrypted)
    | None => throw (Error "Unsupported state or unable to authenticate data")
    end.

(** [options.encrypt && process.env.ENCRYPTION_KEY], and the same test
    on [options.decrypt]. *)
Definition wants (flag : option bool) : bool :=
  match flag with
  | Some true => truthy_str (ENCRYPTION_KEY service)
  | _ => false
  end.

(** [upload(data, options)]. *)
Definition upload (data : json) (encrypt_option : option bool)
  : M IPFSUploadResult :=
  try_catch
    (let content :=
       match data with
       | JStr s => s
       | _ => JSON_stringify_indented data
       end in
     let* finalContent :=
       (if wants encrypt_option then encrypt content else ret content) in
     let* result := client_add (utf8_encode finalContent) in
     let* t := now in
     ret {| cid := fst result;
            url := gatewayUrl service +:+ fst result;
            size := snd result;
            timestamp := t |})
    (fun error =>
       throw (Error ("Failed to upload to IPFS: " +:+ message error))).

(** [retrieve(cid, options)]. *)
Definition retrieve (c : string) (decrypt_option : option bool) : M json :=
  try_catch
    (let* chunks := client_cat c in
     let content := utf8_decode chunks in
     let* content' :=
       (if wants decrypt_option then decrypt content else ret content) in
     ret (match JSON_parse content' with
          | Some v => v           (* [try { return JSON.parse(content) }] *)
          | None => JStr content' (* [catch { return content }] *)
          end))
    (fun error =>
       throw (Error ("Failed to retrieve from IPFS: " +:+ message error))).

(** The text [upload] stores for [data] when it does not encrypt. *)
Definition content_of (data : json) : string :=
  match data with
  | JStr s => s
  | _ => JSON_stringify_indented data
  end.

(** The payloads [JSON.parse] gives back from the text [upload] stores:
    a value other than a string that [JSON.parse] reads back from its
    [JSON.stringify] text, and a string that is not JSON text itself. *)
Definition reads_back (data : json) : Prop :=
  match data with
  | JStr s => JSON_parse s = None
  | _ => JSON_parse (JSON_stringify_indented data) = Some data
  end.

(** What [retrieve] makes of a text: [JSON.parse] in a [try], the text
    itself in the [catch]. *)
Definition parsed_or_text (content : string) : json :=
  match JSON_parse content with
  | Some v => v
  | None => JStr content
  end.

(** What [upload(record)] returns at time [t] when it does not encrypt
    and the node accepts the text of the record. *)
Definition upload_result (record : json) (t : Z) : IPFSUploadResult :=
  let block := utf8_encode (content_of record) in
  {| cid := cid_of block;
     url := gatewayUrl service +:+ cid_of block;
     size := block_size block;
     timestamp := t |}.

(** The blocks of a node after it stored the texts of [records], one
    after the other. *)
Definition stored (records : list json) (m : gmap string bytes)
  : gmap string bytes :=
  foldl (fun m record =>
           <[cid_of (utf8_encode (content_of record))
             := utf8_encode (content_of record)]> m)
    m records.

(** The world after the node accepted the texts of [records], one
    upload after the other: an [add] and a reading of the clock for
    each. *)
Definition after_uploads (records : list json) (w : world) : world :=
  with_ticks (length records + ticks w)
    (with_faults (drop (length records) (faults w))
       (with_blocks (stored records) w)).

(** The text [encrypt] returns for [content] on the [n]-th draw of
    random bytes: the format marker, then nonce, tag and ciphertext. *)
Definition sealed_text (n : nat) (content : string) : string :=
  let keyBuffer := sha256 (utf8_encode (str_or (ENCRYPTION_KEY service) "")) in
  let iv := randomBytes n 12 in
  let sealed := gcm_seal keyBuffer iv (utf8_encode content) in
  "ENCRYPTED_V2:" +:+ base64_encode (iv ++ snd sealed ++ fst sealed).

(** The node accepts the next [add]. *)
Definition accepts_next (w : world) : Prop :=
  match faults w with
  | true :: _ => False
  | _ => True
  end.

(** No [add] of the node fails from here on. *)
Definition reliable (w : world) : Prop :=
  Forall (fun fault => fault = false) (faults w).

(** [records.slice(i, j)]. *)
Definition slice {A} (i j : nat) (l : list A) : list A :=
  take (j - i) (drop i l).

(** The loop of [uploadBatch]: [i] advances by [batchSize = 5] and each
    round awaits the uploads of [records.slice(i, i + 5)] together. *)
Equations? uploadBatch_loop (records : list json) (i : nat)
    (results : list IPFSUploadResult) : M (list IPFSUploadResult)
    by wf (length records - i)%nat lt :=
  uploadBatch_loop records i results with lt_dec i (length records) := {
    | left _ =>
        let batch := slice i (i + 5) records in
        let* batchResults :=
          promise_all (map (fun record => upload record None) batch) in
        uploadBatch_loop records (i + 5)%nat (results ++ batchResults)
    | right _ => ret results }.
Proof. lia. Qed.

(** [uploadBatch(records)]. *)
Definition uploadBatch (records : list json) : M (list IPFSUploadResult) :=
  uploadBatch_loop records 0%nat [].

(** [createCertificate(data)]: the template is filled in, which throws
    when [data.timestamp] is no time value and reads the clock for the
    date of generation, and the page is uploaded as it is. *)
Definition createCertificate (recordId transactionHash : string)
    (time : Z) (requestUrl : string) (responseStatus : Z)
    (network : string) : M IPFSUploadResult :=
  let* stamp := lift (date_toISOString time) in
  let* generated := now in
  upload
    (JStr (certificate_html network recordId transactionHash stamp
             requestUrl responseStatus (toISOString generated)))
    (Some false).

(** The text [upload] hands to the node for [data] on the [n]-th draw of
    random bytes: the sealed text when it encrypts, the payload text
    otherwise. *)
Definition stored_text (flag : option bool) (n : nat) (data : json) : string :=
  if wants flag then sealed_text n (content_of data)
  else content_of data.

(** [client.cat(cid, {length})]: the chunks of the first [length] bytes,
    none when there is no byte to send. *)
Definition client_cat_first (c : string) (len : nat) : M (list bytes) :=
  let* content := client_cat c in
  ret (match take len content with
       | [] => []
       | chunk => [chunk]
       end).

(** [isAvailable(cid)]: the answer comes from the first chunk. *)
Definition isAvailable (c : string) : M bool :=
  try_catch
    (let* stream := client_cat_first c 1 in
     ret (match stream with
          | chunk :: _ => (0 <? length chunk)%nat
          | [] => false
          end))
    (fun _ => ret false).

(** [getSize(cid)], [stat] being the answer of [client.files.stat] to a
    path. *)
Definition getSize (stat : string -> js_error + FileStat) (c : string) : M Z :=
  try_catch
    (let* stats := lift (stat ("/ipfs/" +:+ c)) in
     ret (num_or (cumulativeSize stats) (num_or (stat_size stats) 0)))
    (fun error =>
       try_catch
         (let* content := client_cat c in
          ret (Z.of_nat (length content)))
         (fun _ => throw (Error ("Failed to get size: " +:+ message error)))).

End Service.

End IPFS.
Import IPFS.

(** ** The recording orchestrator: [ProofClient] *)
Module Client.

Inductive VisibilityLevel : Type := PUBLIC | PRIVATE | SHARED.

(** The numeric value of the enum, as the contract receives it. *)
Definition visibility_code (v : VisibilityLevel) : Z :=
  match v with
  | PUBLIC => 0
  | PRIVATE => 1
  | SHARED => 2
  end.

Inductive Network : Type := amoy | polygon | local.

Definition network_name (n : Network) : string :=
  match n with
  | amoy => "amoy"
  | polygon => "polygon"
  | local => "local"
  end.

Record ProofReceipt : Type := {
  recordId : string;
  transactionHash : string;
  receipt_blockNumber : Z;
  receipt_timestamp : Z;
  receipt_gasUsed : string;
  explorerUrl : string;
  certificateUrl : string;
  ipfsUrl : string;
  proofTokens : string;               (* [cost.proofTokens] *)
  gasInPOL : string                   (* [cost.gasInPOL] *)
}.

Record ProofConfig : Type := {
  network : option Network;
  autoApprove : option bool;
  ipfsGateway : option string;
  certificateBaseUrl : option string;
  encryptData : option bool;
  onRecord : option (ProofReceipt -> option js_error)
                                      (* the callback, by what it throws
                                         on a receipt; [None]: it returns *)
}.

(** A client after its constructor ran: the configuration and the IPFS
    service it created. *)
Record ProofClient : Type := {
  config : ProofConfig;
  ipfs : IPFSService
}.

(** The constructor's defaults: [network || 'amoy'],
    [autoApprove !== false], [ipfsGateway || 'https://ipfs.io/ipfs/']. *)
Definition config_network (c : ProofClient) : Network :=
  default amoy (network (config c)).

Definition config_autoApprove (c : ProofClient) : bool :=
  match autoApprove (config c) with
  | Some false => false
  | _ => true
  end.

Definition config_ipfsGateway (c : ProofClient) : string :=
  str_or (ipfsGateway (config c)) "https://ipfs.io/ipfs/".

Record RecordOptions : Type := {
  method : option string;
  headers : option json;
  body : option json;
  metadata : option json;
  visibility : option VisibilityLevel;
  sharedWith : option (list string)
}.

(** A settled [fetch] response, its body already read as text. *)
Record Response : Type := {
  url : string;
  status : Z;
  statusText : string;
  response_headers : list (string * string);
  text : string
}.

(** The promise handed to [record], by how it settles. *)
Record Fetch : Type := {
  outcome : js_error + Response
}.

(** An element of the array given to [batchRecord]. *)
Record BatchItem : Type := {
  item_request : json;
  item_response : json;
  item_metadata : option json
}.

Definition item_json (r : BatchItem) : json :=
  JObj ([("request", item_request r); ("response", item_response r)]
        ++ match item_metadata r with
           | Some m => [("metadata", m)]
           | None => []
           end).

(** Truthiness of a value, for [x || d]. *)
Definition truthy (v : json) : bool :=
  match v with
  | JNull => false
  | JBool b => b
  | JNum n => negb (n =? 0)
  | JStr s => negb (String.eqb s "")
  | JArr _ | JObj _ => true
  end.

Definition value_or (o : option json) (d : json) : json :=
  match o with
  | Some v => if truthy v then v else d
  | None => d
  end.

(** [ethers.MaxUint256]. *)
Definition MaxUint256 : Z := 2 ^ 256 - 1.

(** [template literal] of an optional string. *)
Definition interpolate (o : option string) : string :=
  default "undefined" o.

Definition getExplorerUrl (n : Network) (txHash : string) : string :=
  match n with
  | amoy => "https://amoy.polygonscan.com/tx/" +:+ txHash
  | polygon => "https://polygonscan.com/tx/" +:+ txHash
  | local => "http://localhost:3000/tx/" +:+ txHash
  end.

(** [handleError(error)] followed by [throw error]: the error that leaves
    the [catch] block. *)
Definition handleError (error : js_error) : js_error :=
  match code error with
  | Some c =>
      if String.eqb c "INSUFFICIENT_FUNDS" then
        Error "Insufficient PROOF tokens. Please purchase more tokens."
      else if String.eqb c "NETWORK_ERROR" then
        Error "Network error. Please check your connection."
      else error
  | None => error
  end.

(** [parsed?.name === name] inside [try .. catch { return false }]. *)
Definition parses_as (name : string) (l : Log) : bool :=
  match l with
  | Decoded event => String.eqb (event_name event) name
  | _ => false
  end.

(** [parseLog(event)?.args.recordId]. *)
Definition recordId_of (l : Log) : option string :=
  match l with
  | Decoded (RecordStored id _) => Some (hexlify id)
  | Decoded (AccessGranted id _) => Some (hexlify id)
  | Decoded (AccessRevoked id _) => Some (hexlify id)
  | _ => None
  end.

(** Step 9 of [record]: the first log that parses as [RecordStored], its
    [recordId] or else [tx.hash], and [tx.hash] when there is none. *)
Definition extract_recordId (tx : TransactionResponse)
    (receipt : TransactionReceipt) : string :=
  match List.find (parses_as "RecordStored") (logs receipt) with
  | Some event => str_or (recordId_of event) (tx_hash tx)
  | None => tx_hash tx
  end.

(** Calls on the two contracts. *)
Definition logged (c : call) (l : ledger) : ledger :=
  {| signerAddress := signerAddress l; registryAddress := registryAddress l;
     recordPrice := recordPrice l; allowance := allowance l;
     submit := submit l; trace := trace l ++ [c] |}.

Definition approved (amount : Z) (l : ledger) : ledger :=
  {| signerAddress := signerAddress l; registryAddress := registryAddress l;
     recordPrice := recordPrice l; allowance := amount;
     submit := submit l; trace := trace l |}.

(** Whether a contract object has a function of that name. *)
Definition declares (c : Contract) (name : string) : bool :=
  existsb (String.eqb name) (abi_of c).

(** The [TypeError] of a call of [contract.name] when the contract
    object has no such function. *)
Definition not_a_function (c : Contract) (name : string) : js_error :=
  {| code := None;
     message := contract_text c +:+ "." +:+ name +:+ " is not a function" |}.

(** [contract.name], about to be called. *)
Definition contract_function (c : Contract) (name : string) : M unit :=
  if declares c name then ret tt else throw (not_a_function c name).

(** [await this.proofRegistry.recordPrice()]. *)
Definition read_recordPrice : M Z :=
  run* contract_function proofRegistry "recordPrice" in
  fun w => (recordPrice (chain w), with_chain (logged RecordPrice) w).

(** [await this.proofToken.allowance(owner, spender)]. *)
Definition read_allowance : M Z :=
  run* contract_function proofToken "allowance" in
  fun w =>
    (inr (allowance (chain w)),
     with_chain
       (logged (Allowance (signerAddress (chain w)) (registryAddress (chain w))))
       w).

(** A write call: the ledger answers with a transaction or rejects. *)
Definition send (c : call) : M TransactionResponse :=
  run* contract_function (contract_of c) (function_of c) in
  fun w => (submit (chain w) c, with_chain (logged c) w).

(** [await tx.wait()]. *)
Definition confirm (tx : TransactionResponse) : M TransactionReceipt :=
  lift (wait tx).

(** What the allowance step throws: the registry object has no function
    [recordPrice]. *)
Definition price_read_error : js_error :=
  not_a_function proofRegistry "recordPrice".

(** A ledger that confirms every write call. *)
Definition confirms (l : ledger) : Prop :=
  forall c, exists tx confirmation,
    submit l c = inr tx /\ wait tx = inr confirmation.

(** A world in which no call to the node fails and the ledger confirms
    every write call. *)
Definition cooperative (w : world) : Prop :=
  reliable w /\ confirms (chain w).

(** A client whose callback, if it has one, returns. *)
Definition quiet (c : ProofClient) : Prop :=
  match onRecord (config c) with
  | Some callback => forall receipt, callback receipt = None
  | None => True
  end.

Section Orchestrator.
Context `{Runtime}.
Variable client : ProofClient.

(** [hashData(data)]. *)
Definition hashData (data : json) : string :=
  "0x" +:+ hex_encode (sha256 (utf8_encode (JSON_stringify data))).

(** [uploadToIPFS(data)]. *)
Definition uploadToIPFS (data : json) : M string :=
  let* result :=
    upload (ipfs client) data
      (Some (default false (encryptData (config client)))) in
  ret (cid result).

(** [ensureTokenApproval(recordCount)]. *)
Definition ensureTokenApproval (recordCount : Z) : M unit :=
  let* price := read_recordPrice in
  let totalCost := price * recordCount in
  let* currentAllowance := read_allowance in
  if currentAllowance <? totalCost then
    let* spender := (fun w => (inr (registryAddress (chain w)), w)) in
    let* tx := send (Approve spender MaxUint256) in
    let* _ := confirm tx in
    modify (with_chain (approved MaxUint256))
  else ret tt.

(** [emit('recorded', receipt)]: the callback is the caller's code, and
    what it throws propagates. *)
Definition emit_recorded (receipt : ProofReceipt) : M unit :=
  match onRecord (config client) with
  | Some callback =>
      run* modify (fun w => with_delivered (delivered w ++ [recordId receipt]) w) in
      match callback receipt with
      | Some error => throw error
      | None => ret tt
      end
  | None => ret tt
  end.

(** [await fetchPromise]. *)
Definition await_fetch (fetchPromise : Fetch) : M Response :=
  lift (outcome fetchPromise).

(** [record(fetchPromise, options)]. *)
Definition record (fetchPromise : Fetch) (options : RecordOptions)
  : M (Response * ProofReceipt) :=
  try_catch
    (let* startTime := now in
     let* response := await_fetch fetchPromise in
     let* endTime := now in
     let requestData :=
       JObj [("url", JStr (url response));
             ("method", JStr (str_or (method options) "GET"));
             ("headers", value_or (headers options) (JObj []));
             ("timestamp", JNum startTime);
             ("body", value_or (body options) JNull)] in
     let responseData :=
       JObj [("status", JNum (status response));
             ("statusText", JStr (statusText response));
             ("headers",
              JObj (map (fun kv => (fst kv, JStr (snd kv)))
                      (response_headers response)));
             ("body", JStr (text response));
             ("timestamp", JNum endTime);
             ("duration", JNum (endTime - startTime))] in
     let requestHash := hashData requestData in
     let responseHash := hashData responseData in
     let* ipfsHash :=
       uploadToIPFS
         (JObj [("request", requestData);
                ("response", responseData);
                ("metadata", value_or (metadata options) (JObj []))]) in
     run* (if config_autoApprove client then ensureTokenApproval 1
           else ret tt) in
     let visibility := default PUBLIC (visibility options) in
     let* tx :=
       send (StoreAPIRecord requestHash responseHash ipfsHash
               (visibility_code visibility)) in
     let* receipt := confirm tx in
     let recordId := extract_recordId tx receipt in
     let* certificate :=
       createCertificate (ipfs client) recordId (hash receipt) startTime
         (url response) (status response)
         (network_name (config_network client)) in
     let proofReceipt :=
       {| recordId := recordId;
          transactionHash := hash receipt;
          receipt_blockNumber := blockNumber receipt;
          receipt_timestamp := startTime;
          receipt_gasUsed := toString (gasUsed receipt);
          explorerUrl := getExplorerUrl (config_network client) (hash receipt);
          certificateUrl := IPFS.url certificate;
          ipfsUrl := config_ipfsGateway client +:+ ipfsHash;
          proofTokens := "10";
          gasInPOL := formatEther (gasUsed receipt * gasPrice receipt) |} in
     run* emit_recorded proofReceipt in
     ret (response, proofReceipt))
    (fun error => throw (handleError error)).

(** [batchRecord(records, visibility)]. *)
Definition batchRecord (records : list BatchItem)
    (visibility : option VisibilityLevel) : M ProofReceipt :=
  try_catch
    (let requestHashes := map (fun r => hashData (item_request r)) records in
     let responseHashes := map (fun r => hashData (item_response r)) records in
     let* t := now in
     let* ipfsHash :=
       uploadToIPFS
         (JObj [("records", JArr (map item_json records));
                ("timestamp", JNum t);
                ("count", JNum (Z.of_nat (length records)))]) in
     run* ensureTokenApproval (Z.of_nat (length records)) in
     let visibilityLevel := default PUBLIC visibility in
     let* tx :=
       send (StoreBatchRecords requestHashes responseHashes ipfsHash
               (visibility_code visibilityLevel)) in
     let* receipt := confirm tx in
     let* t' := now in
     ret {| recordId := hash receipt;
            transactionHash := hash receipt;
            receipt_blockNumber := blockNumber receipt;
            receipt_timestamp := t';
            receipt_gasUsed := toString (gasUsed receipt);
            explorerUrl := getExplorerUrl (config_network client) (hash receipt);
            certificateUrl :=
              interpolate (certificateBaseUrl (config client))
              +:+ "batch/" +:+ hash receipt;
            ipfsUrl := config_ipfsGateway client +:+ ipfsHash;
            proofTokens := toString (Z.of_nat (length records) * 8);
            gasInPOL := formatEther (gasUsed receipt * gasPrice receipt) |})
    (fun error => throw (handleError error)).

(** [requestData], [responseData] and the document [record] archives. *)
Definition requestData_of (response : Response) (options : RecordOptions)
    (startTime : Z) : json :=
  JObj [("url", JStr (url response));
        ("method", JStr (str_or (method options) "GET"));
        ("headers", value_or (headers options) (JObj []));
        ("timestamp", JNum startTime);
        ("body", value_or (body options) JNull)].

Definition responseData_of (response : Response) (startTime endTime : Z)
  : json :=
  JObj [("status", JNum (status response));
        ("statusText", JStr (statusText response));
        ("headers",
         JObj (map (fun kv => (fst kv, JStr (snd kv)))
                 (response_headers response)));
        ("body", JStr (text response));
        ("timestamp", JNum endTime);
        ("duration", JNum (endTime - startTime))].

Definition archive_of (response : Response) (options : RecordOptions)
    (startTime endTime : Z) : json :=
  JObj [("request", requestData_of response options startTime);
        ("response", responseData_of response startTime endTime);
        ("metadata", value_or (metadata options) (JObj []))].

(** The receipt [record] builds in step 11. *)
Definition receipt_of (tx : TransactionResponse) (receipt : TransactionReceipt)
    (startTime : Z) (certificate : IPFSUploadResult) (ipfsHash : string)
  : ProofReceipt :=
  {| recordId := extract_recordId tx receipt;
     transactionHash := hash receipt;
     receipt_blockNumber := blockNumber receipt;
     receipt_timestamp := startTime;
     receipt_gasUsed := toString (gasUsed receipt);
     explorerUrl := getExplorerUrl (config_network client) (hash receipt);
     certificateUrl := IPFS.url certificate;
     ipfsUrl := config_ipfsGateway client +:+ ipfsHash;
     proofTokens := "10";
     gasInPOL := formatEther (gasUsed receipt * gasPrice receipt) |}.

(** The document [batchRecord] archives. *)
Definition batch_archive_of (records : list BatchItem) (t : Z) : json :=
  JObj [("records", JArr (map item_json records));
        ("timestamp", JNum t);
        ("count", JNum (Z.of_nat (length records)))].

(** The certificate page [record] has rendered for a receipt: the
    fields of the exchange and of the receipt, the ISO text of the start
    time and that of the date of generation. *)
Definition certificate_page (recordId transactionHash : string)
    (startTime : Z) (response : Response) (generated : Z) : string :=
  certificate_html (network_name (config_network client)) recordId
    transactionHash (toISOString startTime) (url response) (status response)
    (toISOString generated).

(** [this.config.encryptData || false], as [uploadToIPFS] passes it on. *)
Definition encrypt_flag : option bool :=
  Some (default false (encryptData (config client))).

End Orchestrator.

End Client.
Import Client.

(** ** The hooks of the middleware on the client *)
Module Hooks.
Import Middleware.

(** An entry of the queue as [batchRecord] reads it: [request],
    [response] and [metadata: {timestamp}]. *)
Definition item_of_entry (e : QueueEntry) : BatchItem :=
  {| item_request := request e;
     item_response := response e;
     item_metadata := Some (JObj [("timestamp", JNum (captured e))]) |}.

(** What the hooks capture of a request and of its response. *)
Record RequestData : Type := {
  rq_method : string;
  rq_url : string;
  rq_headers : json;
  rq_body : option json;
  rq_ip : option string;
  rq_timestamp : Z
}.

Record ResponseData : Type := {
  rs_status : Z;
  rs_headers : list (string * string);
  rs_body : option json;
  rs_duration : Z
}.

(** Statuses of responses that have no body (Fetch standard). *)
Definition null_body_status (s : Z) : bool :=
  (s =? 101) || (s =? 103) || (s =? 204) || (s =? 205) || (s =? 304).

Section Recording.
Context `{Runtime}.
Variable client : ProofClient.

(** The rest of [processBatch], after the queue was swapped:
    [await this.client.batchRecord(batch)] in a [try] whose [catch] logs
    the error. *)
Definition submitBatch (batch : list QueueEntry) : M unit :=
  try_catch
    (let* receipt := batchRecord client (map item_of_entry batch) None in
     ret tt)
    (fun error => ret tt).

(** The entries of the [Headers] object that [new Response] makes of a
    body and of the headers given: names in lower case, sorted, values
    of one name joined, and a [content-type] for a body that comes
    without one (Fetch standard). *)
Variable header_entries :
  option string -> list (string * string) -> list (string * string).

(** [new Response(body, {status, headers})] of the Fetch standard: a
    [RangeError] for a status outside 200..599, a [TypeError] for a body
    given with a null body status; [url] and [statusText] are empty. *)
Definition new_Response (body : option string) (status : Z)
    (headers : list (string * string)) : js_error + Response :=
  if (status <? 200) || (599 <? status) then
    inl (Error "init[status] must be in the range of 200 to 599, inclusive.")
  else if match body with
          | Some _ => null_body_status status
          | None => false
          end then
    inl (Error "Response with null body status cannot have body")
  else
    inr {| url := ""; status := status; statusText := "";
           response_headers := header_entries body headers;
           text := default "" body |}.

(** The object [recordImmediately] passes as [metadata]: [ip],
    [timestamp] and [duration], an [undefined] field being left out of
    its JSON text. *)
Definition exchange_metadata (requestData : RequestData)
    (responseData : ResponseData) : json :=
  JObj (match rq_ip requestData with
        | Some ip => [("ip", JStr ip)]
        | None => []
        end
        ++ [("timestamp", JNum (rq_timestamp requestData));
            ("duration", JNum (rs_duration responseData))]).

(** [recordImmediately(requestData, responseData)].  The promise handed
    to [record] is already resolved. *)
Definition recordImmediately (requestData : RequestData)
    (responseData : ResponseData) : M ProofReceipt :=
  let* mockResponse :=
    lift (new_Response (JSON_stringify <$> rs_body responseData)
            (rs_status responseData) (rs_headers responseData)) in
  let mockResponse :=
    {| url := rq_url requestData;
       status := status mockResponse;
       statusText := statusText mockResponse;
       response_headers := response_headers mockResponse;
       text := text mockResponse |} in
  let* recordedResponse :=
    record client {| outcome := inr mockResponse |}
      {| method := Some (rq_method requestData);
         headers := Some (rq_headers requestData);
         body := rq_body requestData;
         metadata := Some (exchange_metadata requestData responseData);
         visibility := None;
         sharedWith := None |} in
  ret (snd recordedResponse).

(** The hooks on an exchange when no batch interval is configured:
    [recordImmediately] in a [try] whose [catch] logs the error. *)
Definition recordExchange (requestData : RequestData)
    (responseData : ResponseData) : M unit :=
  try_catch
    (let* receipt := recordImmediately requestData responseData in ret tt)
    (fun error => ret tt).

End Recording.

End Hooks.

(** ** A runtime to run the model on

    An instance of [Runtime]: a JSON printer and parser for the values of
    type [json], UTF-8 for code units below 256, Base64 and hexadecimal
    text, and simple stand-ins for the operations of [crypto] and for the
    identifiers of the IPFS node, which satisfy the laws of the interface
    and nothing more. *)
Module Reference.

(** *** JSON text *)

Definition hex_value (c : ascii) : option N :=
  let n := N_of_ascii c in
  if ((48 <=? n) && (n <=? 57))%N then Some (n - 48)%N
  else if ((97 <=? n) && (n <=? 102))%N then Some (n - 87)%N
  else if ((65 <=? n) && (n <=? 70))%N then Some (n - 55)%N
  else None.

Definition dquote : ascii := "034"%char.
Definition backslash : ascii := "092"%char.

(** A character inside a JSON string literal. *)
Definition escape_char (c : ascii) : string :=
  let n := N_of_ascii c in
  if Ascii.eqb c dquote then String backslash (String dquote "")
  else if Ascii.eqb c backslash then String backslash (String backslash "")
  else if (n =? 8)%N then String backslash "b"
  else if (n =? 12)%N then String backslash "f"
  else if (n =? 10)%N then String backslash "n"
  else if (n =? 13)%N then String backslash "r"
  else if (n =? 9)%N then String backslash "t"
  else if (n <? 32)%N then
    String backslash
      ("u00" +:+ String (hex_digit (n / 16)) (String (hex_digit (n mod 16)) ""))
  else String c "".

Fixpoint escape (s : string) : string :=
  match s with
  | EmptyString => ""
  | String c s' => escape_char c +:+ escape s'
  end.

Definition quote (s : string) : string :=
  String dquote (escape s +:+ String dquote "").

Fixpoint spaces (n : nat) : string :=
  match n with
  | O => ""
  | S n' => String " " (spaces n')
  end.

Fixpoint join (sep : string) (l : list string) : string :=
  match l with
  | [] => ""
  | [x] => x
  | x :: l' => x +:+ sep +:+ join sep l'
  end.

(** [JSON.stringify(v, null, gap)] at nesting depth [depth]; [gap = 0]
    prints the compact form. *)
Fixpoint print (gap depth : nat) (v : json) : string :=
  let inner := spaces (gap * S depth) in
  let outer := spaces (gap * depth) in
  let nl := if (gap =? 0)%nat then "" else String "010" "" in
  let colon := if (gap =? 0)%nat then ":" else ": " in
  match v with
  | JNull => "null"
  | JBool true => "true"
  | JBool false => "false"
  | JNum n => toString n
  | JStr s => quote s
  | JArr [] => "[]"
  | JArr items =>
      "[" +:+ nl +:+ inner
      +:+ join ("," +:+ nl +:+ inner) (map (print gap (S depth)) items)
      +:+ nl +:+ outer +:+ "]"
  | JObj [] => "{}"
  | JObj fields =>
      "{" +:+ nl +:+ inner
      +:+ join ("," +:+ nl +:+ inner)
            (map (fun kv => quote (fst kv) +:+ colon
                            +:+ print gap (S depth) (snd kv)) fields)
      +:+ nl +:+ outer +:+ "}"
  end.

Definition is_ws (c : ascii) : bool :=
  let n := N_of_ascii c in
  ((n =? 32) || (n =? 9) || (n =? 10) || (n =? 13))%N.

Fixpoint skip_ws (s : string) : string :=
  match s with
  | String c s' => if is_ws c then skip_ws s' else s
  | EmptyString => ""
  end.

Definition is_digit (c : ascii) : bool :=
  let n := N_of_ascii c in ((48 <=? n) && (n <=? 57))%N.

(** The digits at the head of [s] and what follows them. *)
Fixpoint span_digits (s : string) : string * string :=
  match s with
  | String c s' =>
      if is_digit c then
        let '(d, r) := span_digits s' in (String c d, r)
      else ("", s)
  | EmptyString => ("", "")
  end.

(** An integer literal: no leading zero, no fraction, no exponent. *)
Definition parse_number (s : string) : option (json * string) :=
  let '(neg, s1) :=
    match s with
    | String "-" s' => (true, s')
    | _ => (false, s)
    end in
  let '(d, r) := span_digits s1 in
  match d with
  | EmptyString => None
  | String "0" (String _ _) => None
  | _ =>
      match r with
      | String "." _ | String "e" _ | String "E" _ => None
      | _ =>
          match parseInt d with
          | Some n => Some (JNum (if neg then - n else n), r)
          | None => None
          end
      end
  end.

(** The character an escape letter stands for. *)
Definition unescape (e : ascii) : option ascii :=
  if Ascii.eqb e dquote then Some dquote
  else if Ascii.eqb e backslash then Some backslash
  else if Ascii.eqb e "/" then Some "/"%char
  else if Ascii.eqb e "b" then Some "008"%char
  else if Ascii.eqb e "f" then Some "012"%char
  else if Ascii.eqb e "n" then Some "010"%char
  else if Ascii.eqb e "r" then Some "013"%char
  else if Ascii.eqb e "t" then Some "009"%char
  else None.

(** The rest of a string literal after its opening quote.  An escape
    [\uXXXX] is read when it denotes a code unit below 256. *)
Fixpoint parse_chars (s : string) : option (string * string) :=
  let plain (c : ascii) (r : option (string * string)) :=
    match r with
    | Some (t, r') => Some (String c t, r')
    | None => None
    end in
  match s with
  | EmptyString => None
  | String "034" r => Some ("", r)
  | String "092" EmptyString => None
  | String "092" (String "u" r) =>
      match r with
      | String a (String b (String c (String d r'))) =>
          match hex_value a, hex_value b, hex_value c, hex_value d with
          | Some 0%N, Some 0%N, Some h, Some l =>
              plain (ascii_of_N (16 * h + l)) (parse_chars r')
          | _, _, _, _ => None
          end
      | _ => None
      end
  | String "092" (String e r) =>
      match unescape e with
      | Some c => plain c (parse_chars r)
      | None => None
      end
  | String c r =>
      if (N_of_ascii c <? 32)%N then None
      else plain c (parse_chars r)
  end.

Definition expect (word : string) (v : json) (s : string)
  : option (json * string) :=
  if startsWith s word
  then Some (v, String.substring (String.length word)
                  (String.length s - String.length word) s)
  else None.

(** A value at the head of [s], whitespace skipped; [fuel] bounds the
    number of nested calls. *)
Fixpoint parse_value (fuel : nat) (s : string) : option (json * string) :=
  match fuel with
  | O => None
  | S fuel' =>
      match skip_ws s with
      | EmptyString => None
      | String c r =>
          if Ascii.eqb c "n" then expect "null" JNull (String c r)
          else if Ascii.eqb c "t" then expect "true" (JBool true) (String c r)
          else if Ascii.eqb c "f" then expect "false" (JBool false) (String c r)
          else if Ascii.eqb c dquote then
            match parse_chars r with
            | Some (t, r') => Some (JStr t, r')
            | None => None
            end
          else if Ascii.eqb c "[" then
            match skip_ws r with
            | String "]" r' => Some (JArr [], r')
            | _ =>
                match parse_elements fuel' r with
                | Some (items, r') => Some (JArr items, r')
                | None => None
                end
            end
          else if Ascii.eqb c "{" then
            match skip_ws r with
            | String "}" r' => Some (JObj [], r')
            | _ =>
                match parse_members fuel' r with
                | Some (fields, r') => Some (JObj fields, r')
                | None => None
                end
            end
          else parse_number (String c r)
      end
  end
with parse_elements (fuel : nat) (s : string)
  : option (list json * string) :=
  match fuel with
  | O => None
  | S fuel' =>
      match parse_value fuel' s with
      | Some (v, r) =>
          match skip_ws r with
          | String "," r' =>
              match parse_elements fuel' r' with
              | Some (vs, r'') => Some (v :: vs, r'')
              | None => None
              end
          | String "]" r' => Some ([v], r')
          | _ => None
          end
      | None => None
      end
  end
with parse_members (fuel : nat) (s : string)
  : option (list (string * json) * string) :=
  match fuel with
  | O => None
  | S fuel' =>
      match skip_ws s with
      | String "034" r =>
          match parse_chars r with
          | Some (k, r1) =>
              match skip_ws r1 with
              | String ":" r2 =>
                  match parse_value fuel' r2 with
                  | Some (v, r3) =>
                      match skip_ws r3 with
                      | String "," r4 =>
                          match parse_members fuel' r4 with
                          | Some (kvs, r5) => Some ((k, v) :: kvs, r5)
                          | None => None
                          end
                      | String "}" r4 => Some ([(k, v)], r4)
                      | _ => None
                      end
                  | None => None
                  end
              | _ => None
              end
          | None => None
          end
      | _ => None
      end
  end.

Definition parse (s : string) : option json :=
  match parse_value (2 * String.length s + 2) s with
  | Some (v, r) =>
      match skip_ws r with
      | EmptyString => Some v
      | _ => None
      end
  | None => None
  end.

(** *** Bytes and text *)

Definition code_unit (b : Byte.byte) : N := N_of_ascii (ascii_of_byte b).
Definition byte_of_N (n : N) : Byte.byte := byte_of_ascii (ascii_of_N n).

(** UTF-8 of a code unit below 256: one byte, or two from 128 on. *)
Definition utf8_char (c : ascii) : bytes :=
  let n := N_of_ascii c in
  if (n <? 128)%N then [byte_of_ascii c]
  else [byte_of_N (192 + n / 64); byte_of_N (128 + n mod 64)].

Fixpoint utf8_encode (s : string) : bytes :=
  match s with
  | EmptyString => []
  | String c s' => utf8_char c ++ utf8_encode s'
  end.

(** Decoding; a byte that starts no sequence of this range becomes [?]. *)
Fixpoint utf8_decode (b : bytes) : string :=
  match b with
  | [] => ""
  | x :: r =>
      let n := code_unit x in
      if (n <? 128)%N then String (ascii_of_byte x) (utf8_decode r)
      else
        match r with
        | y :: r' =>
            let m := code_unit y in
            if ((192 <=? n) && (n <? 196) && (128 <=? m) && (m <? 192))%N
            then String (ascii_of_N ((n - 192) * 64 + (m - 128))) (utf8_decode r')
            else String "?" (utf8_decode r)
        | [] => "?"
        end
  end.

(** Two hexadecimal digits per byte. *)
Definition hex_byte (b : Byte.byte) : string :=
  String (hex_digit (code_unit b / 16)) (String (hex_digit (code_unit b mod 16)) "").

Fixpoint hex_encode (b : bytes) : string :=
  match b with
  | [] => ""
  | x :: r => hex_byte x +:+ hex_encode r
  end.

(** *** Base64 *)

(** The bits of a byte, most significant first. *)
Definition bits_of_byte (x : Byte.byte) : list bool :=
  let '(b0, (b1, (b2, (b3, (b4, (b5, (b6, b7))))))) := Byte.to_bits x in
  [b7; b6; b5; b4; b3; b2; b1; b0].

Fixpoint bits_of_bytes (b : bytes) : list bool :=
  match b with
  | [] => []
  | x :: r => bits_of_byte x ++ bits_of_bytes r
  end.

Fixpoint bytes_of_bits (bits : list bool) : bytes :=
  match bits with
  | b7 :: b6 :: b5 :: b4 :: b3 :: b2 :: b1 :: b0 :: r =>
      Byte.of_bits (b0, (b1, (b2, (b3, (b4, (b5, (b6, b7)))))))
      :: bytes_of_bits r
  | _ => []
  end.

(** The number a group of up to six bits denotes, zero bits added to its
    right. *)
Definition sextet (group : list bool) : nat :=
  fold_left (fun n (bit : bool) => (2 * n + if bit then 1 else 0)%nat)
    (take 6 (group ++ repeat false 6)) 0%nat.

Definition base64_alphabet : string :=
  "ABCDEFGHIJKLMNOPQRSTUVWXYZabcdefghijklmnopqrstuvwxyz0123456789+/".

Definition base64_char (n : nat) : ascii :=
  nth n (list_ascii_of_string base64_alphabet) "A"%char.

(** The value of a character of the alphabet; the decoder of [Buffer]
    also reads the URL-safe [-] and [_]. *)
Definition base64_value (c : ascii) : option nat :=
  let n := nat_of_ascii c in
  if ((65 <=? n) && (n <=? 90))%nat then Some (n - 65)%nat
  else if ((97 <=? n) && (n <=? 122))%nat then Some (n - 71)%nat
  else if ((48 <=? n) && (n <=? 57))%nat then Some (n + 4)%nat
  else if ((n =? 43) || (n =? 45))%nat then Some 62%nat
  else if ((n =? 47) || (n =? 95))%nat then Some 63%nat
  else None.

(** The six bits of a value below 64, most significant first. *)
Definition bits_of_sextet (n : nat) : list bool :=
  map (fun k => Nat.testbit n k) [5; 4; 3; 2; 1; 0]%nat.

Fixpoint encode_groups (bits : list bool) : list ascii :=
  match bits with
  | [] => []
  | a :: b :: c :: d :: e :: f :: r =>
      base64_char (sextet [a; b; c; d; e; f]) :: encode_groups r
  | partial => [base64_char (sextet partial)]
  end.

(** [buf.toString('base64')]: four characters for three bytes, [=] added
    up to a multiple of four. *)
Definition base64_encode (b : bytes) : string :=
  string_of_list_ascii
    (encode_groups (bits_of_bytes b)
     ++ repeat "="%char ((3 - length b mod 3) mod 3)).

(** The characters before the first [=]. *)
Fixpoint before_padding (cs : list ascii) : list ascii :=
  match cs with
  | [] => []
  | c :: r => if Ascii.eqb c "=" then [] else c :: before_padding r
  end.

Definition decode_char (c : ascii) : list bool :=
  match base64_value c with
  | Some n => bits_of_sextet n
  | None => []
  end.

(** [Buffer.from(s, 'base64')]: characters outside the alphabet are
    skipped, decoding ends at the padding, bits that fill no byte are
    dropped. *)
Definition base64_decode (s : string) : bytes :=
  bytes_of_bits
    (flat_map decode_char (before_padding (list_ascii_of_string s))).

(** *** Stand-ins for [crypto] and for the IPFS node *)

Definition zeros (k : nat) : bytes := repeat Byte.x00 k.

(** A 32-byte value computed from the input. *)
Definition digest (b : bytes) : bytes := take 32 (b ++ zeros 32).

Definition randomBytes (n k : nat) : bytes :=
  repeat (byte_of_N (N.of_nat n mod 256)) k.

(** Toggling the low bit of a byte: an involution on bytes. *)
Definition flip (b : Byte.byte) : Byte.byte :=
  let '(b0, rest) := Byte.to_bits b in Byte.of_bits (negb b0, rest).

Definition tag_for (key iv : bytes) : bytes := take 16 (iv ++ key ++ zeros 16).

Definition gcm_seal (key iv pt : bytes) : bytes * bytes :=
  (map flip pt, tag_for key iv).

Fixpoint bytes_eqb (a b : bytes) : bool :=
  match a, b with
  | [], [] => true
  | x :: a', y :: b' => Byte.eqb x y && bytes_eqb a' b'
  | _, _ => false
  end.

Definition gcm_open (key iv tag ct : bytes) : option bytes :=
  if bytes_eqb tag (tag_for key iv) then Some (map flip ct) else None.

Definition cid_of (b : bytes) : string := "bafk" +:+ hex_encode (digest b).

Definition block_size (b : bytes) : Z := Z.of_nat (length b).

(** [wei / 10^18] in decimal, at least one digit after the point. *)
Fixpoint strip_zeros (digits : list ascii) : list ascii :=
  match digits with
  | "0"%char :: r => strip_zeros r
  | _ => digits
  end.

Definition formatEther (wei : Z) : string :=
  let whole := Z.abs wei / 10 ^ 18 in
  let frac := Z.abs wei mod 10 ^ 18 in
  let digits := list_ascii_of_string (toString frac) in
  let padded := repeat "0"%char (18 - length digits) ++ digits in
  let kept := rev (strip_zeros (rev padded)) in
  (if wei <? 0 then "-" else "")
  +:+ toString whole +:+ "."
  +:+ string_of_list_ascii (match kept with [] => ["0"%char] | _ => kept end).

(** [n] in decimal, with zeros to its left up to [width] digits. *)
Definition padded (width : nat) (n : Z) : string :=
  let digits := toString n in
  string_of_list_ascii (repeat "0"%char (width - String.length digits))
  +:+ digits.

(** The date of a day number (days since the epoch), in the proleptic
    Gregorian calendar: year, month and day. *)
Definition civil_of_days (days : Z) : Z * Z * Z :=
  let z := days + 719468 in
  let era := z / 146097 in
  let doe := z - era * 146097 in
  let yoe := (doe - doe / 1460 + doe / 36524 - doe / 146096) / 365 in
  let doy := doe - (365 * yoe + yoe / 4 - yoe / 100) in
  let mp := (5 * doy + 2) / 153 in
  let d := doy - (153 * mp + 2) / 5 + 1 in
  let m := if mp <? 10 then mp + 3 else mp - 9 in
  let y := yoe + era * 400 + (if m <=? 2 then 1 else 0) in
  (y, m, d).

(** [date.toISOString()]: [YYYY-MM-DDTHH:mm:ss.sssZ], the year with a
    sign and six digits outside 0..9999. *)
Definition toISOString (t : Z) : string :=
  let '(y, m, d) := civil_of_days (t / 86400000) in
  let rest := t mod 86400000 in
  (if (0 <=? y) && (y <=? 9999) then padded 4 y
   else (if y <? 0 then "-" else "+") +:+ padded 6 (Z.abs y))
  +:+ "-" +:+ padded 2 m +:+ "-" +:+ padded 2 d
  +:+ "T" +:+ padded 2 (rest / 3600000)
  +:+ ":" +:+ padded 2 (rest / 60000 mod 60)
  +:+ ":" +:+ padded 2 (rest / 1000 mod 60)
  +:+ "." +:+ padded 3 (rest mod 1000) +:+ "Z".

(** A short page with the holes of the template, in its order. *)
Definition certificate_html (network recordId transactionHash stamp
    requestUrl : string) (responseStatus : Z) (generated : string) : string :=
  "<!DOCTYPE html><html><body>"
  +:+ "<p>recorded on the " +:+ network +:+ " blockchain</p>"
  +:+ "<p>Record ID: " +:+ recordId +:+ "</p>"
  +:+ "<p>Transaction Hash: " +:+ transactionHash +:+ "</p>"
  +:+ "<p>Timestamp: " +:+ stamp +:+ "</p>"
  +:+ "<p>Request URL: " +:+ requestUrl +:+ "</p>"
  +:+ "<p>Response Status: " +:+ toString responseStatus +:+ "</p>"
  +:+ "<p>Certificate generated on " +:+ generated +:+ "</p>"
  +:+ "</body></html>".

Lemma utf8_decode_char c r :
  utf8_decode (utf8_char c ++ r) = String c (utf8_decode r).
Proof. destruct c as [[] [] [] [] [] [] [] []]; reflexivity. Qed.

Lemma utf8_decode_encode s : utf8_decode (utf8_encode s) = s.
Proof.
  induction s as [|c s IH]; [reflexivity|].
  cbn [utf8_encode]. rewrite utf8_decode_char, IH. reflexivity.
Qed.

Lemma decode_sextet a b c d e f :
  decode_char (base64_char (sextet [a; b; c; d; e; f])) = [a; b; c; d; e; f]
  /\ Ascii.eqb (base64_char (sextet [a; b; c; d; e; f])) "=" = false.
Proof. destruct a, b, c, d, e, f; split; reflexivity. Qed.

Lemma before_padding_pad k : before_padding (repeat "="%char k) = [].
Proof. destruct k; reflexivity. Qed.

(** Decoding the characters of a bit string gives the bits back, with
    fewer than six zero bits after them. *)
Lemma decode_groups pad n : forall bits,
  (length bits <= n)%nat ->
  exists k,
    (k < 6)%nat
    /\ flat_map decode_char
         (before_padding (encode_groups bits ++ repeat "="%char pad))
       = bits ++ repeat false k.
Proof.
  induction n as [|n IH]; intros bits Hlen.
  - destruct bits; [|cbn in Hlen; lia].
    exists 0%nat. split; [lia|]. cbn. rewrite before_padding_pad. reflexivity.
  - destruct bits as [|a [|b [|c [|d [|e [|f r]]]]]].
    + exists 0%nat. split; [lia|]. cbn. rewrite before_padding_pad. reflexivity.
    + exists 5%nat. split; [lia|].
      destruct (decode_sextet a false false false false false) as [Hd He].
      cbn [encode_groups app before_padding flat_map].
      change (sextet [a]) with (sextet [a; false; false; false; false; false]).
      rewrite He, before_padding_pad. cbn [flat_map]. rewrite Hd. reflexivity.
    + exists 4%nat. split; [lia|].
      destruct (decode_sextet a b false false false false) as [Hd He].
      cbn [encode_groups app before_padding flat_map].
      change (sextet [a; b]) with (sextet [a; b; false; false; false; false]).
      rewrite He, before_padding_pad. cbn [flat_map]. rewrite Hd. reflexivity.
    + exists 3%nat. split; [lia|].
      destruct (decode_sextet a b c false false false) as [Hd He].
      cbn [encode_groups app before_padding flat_map].
      change (sextet [a; b; c]) with (sextet [a; b; c; false; false; false]).
      rewrite He, before_padding_pad. cbn [flat_map]. rewrite Hd. reflexivity.
    + exists 2%nat. split; [lia|].
      destruct (decode_sextet a b c d false false) as [Hd He].
      cbn [encode_groups app before_padding flat_map].
      change (sextet [a; b; c; d]) with (sextet [a; b; c; d; false; false]).
      rewrite He, before_padding_pad. cbn [flat_map]. rewrite Hd. reflexivity.
    + exists 1%nat. split; [lia|].
      destruct (decode_sextet a b c d e false) as [Hd He].
      cbn [encode_groups app before_padding flat_map].
      change (sextet [a; b; c; d; e]) with (sextet [a; b; c; d; e; false]).
      rewrite He, before_padding_pad. cbn [flat_map]. rewrite Hd. reflexivity.
    + destruct (IH r) as (k & Hk & Hr); [cbn in Hlen; lia|].
      exists k. split; [exact Hk|].
      destruct (decode_sextet a b c d e f) as [Hd He].
      cbn [encode_groups app before_padding flat_map].
      rewrite He. cbn [flat_map]. rewrite Hd, Hr. reflexivity.
Qed.

Lemma bytes_of_bits_of_byte x bits :
  bytes_of_bits (bits_of_byte x ++ bits) = x :: bytes_of_bits bits.
Proof. destruct x; reflexivity. Qed.

Lemma bytes_of_bits_of_bytes b k :
  (k < 8)%nat -> bytes_of_bits (bits_of_bytes b ++ repeat false k) = b.
Proof.
  intros Hk. induction b as [|x b IH].
  - do 8 (destruct k as [|k]; [reflexivity|]). lia.
  - cbn [bits_of_bytes]. rewrite <- app_assoc, bytes_of_bits_of_byte, IH.
    reflexivity.
Qed.

Lemma base64_decode_encode b : base64_decode (base64_encode b) = b.
Proof.
  unfold base64_decode, base64_encode.
  rewrite list_ascii_of_string_of_list_ascii.
  destruct (decode_groups ((3 - length b mod 3) mod 3) _ (bits_of_bytes b)
              (le_n _)) as (k & Hk & Hbits).
  rewrite Hbits. apply bytes_of_bits_of_bytes. lia.
Qed.

Lemma randomBytes_length n k : length (randomBytes n k) = k.
Proof. apply repeat_length. Qed.

Lemma flip_flip b : flip (flip b) = b.
Proof. destruct b; reflexivity. Qed.

Lemma bytes_eqb_refl a : bytes_eqb a a = true.
Proof.
  induction a as [|x a IH]; [reflexivity|].
  cbn. rewrite IH. destruct x; reflexivity.
Qed.

Lemma gcm_tag_length key iv pt : length (snd (gcm_seal key iv pt)) = 16%nat.
Proof.
  cbn. unfold tag_for, zeros.
  rewrite length_take, !length_app, repeat_length. lia.
Qed.

Lemma gcm_open_seal key iv pt :
  gcm_open key iv (snd (gcm_seal key iv pt)) (fst (gcm_seal key iv pt))
  = Some pt.
Proof.
  unfold gcm_open, gcm_seal. cbn. rewrite bytes_eqb_refl. f_equal.
  induction pt as [|x pt IH]; [reflexivity|].
  cbn. rewrite flip_flip, IH. reflexivity.
Qed.

#[export] Instance runtime : Runtime := {|
  Node.JSON_stringify := print 0 0;
  Node.JSON_stringify_indented := print 2 0;
  Node.JSON_parse := parse;
  Node.utf8_encode := utf8_encode;
  Node.utf8_decode := utf8_decode;
  Node.utf8_decode_encode := utf8_decode_encode;
  Node.base64_encode := base64_encode;
  Node.base64_decode := base64_decode;
  Node.base64_decode_encode := base64_decode_encode;
  Node.hex_encode := hex_encode;
  Node.sha256 := digest;
  Node.randomBytes := randomBytes;
  Node.randomBytes_length := randomBytes_length;
  Node.gcm_seal := gcm_seal;
  Node.gcm_tag_length := gcm_tag_length;
  Node.gcm_open := gcm_open;
  Node.gcm_open_seal := gcm_open_seal;
  Node.cid_of := cid_of;
  Node.block_size := block_size;
  Node.formatEther := formatEther;
  Node.toISOString := toISOString;
  Node.certificate_html := certificate_html
|}.

End Reference.

(** ** Concrete inputs *)
Module Examples.
Import Middleware.

(** A middleware that batches: a one-second interval, batches of two. *)
Definition batching_options : ProofMiddlewareOptions :=
  {| patterns := Some ["/api/*"]; excludePatterns := Some ["/health"];
     batchInterval := Some 1000; batchSize := Some 2 |}.

Definition ping (t : Z) : event :=
  Exchange (JObj [("url", JStr "/api/ping")]) (JObj [("status", JNum 200)]) t.

(** A ledger that confirms every write call with the same receipt. *)
Definition confirming (receipt : TransactionReceipt) : ledger :=
  {| signerAddress := "0xsigner";
     registryAddress := "0xregistry";
     recordPrice := inr 10;
     allowance := 0;
     submit := fun _ => inr {| tx_hash := "0xtx"; wait := inr receipt |};
     trace := [] |}.

Definition plain_receipt (entries : list Log) : TransactionReceipt :=
  {| hash := "0xtx"; blockNumber := 7; gasUsed := 21000;
     gasPrice := 1000000000; logs := entries |}.

(** A clock that starts on 2023-11-14 at 22:13:20 UTC and gains forty
    milliseconds from one reading to the next. *)
Definition steady (n : nat) : time_value :=
  time_of (1700000000000 + 40 * Z.of_nat n).

(** An empty IPFS node and a ledger that confirms with [entries]. *)
Definition world0 (entries : list Log) : world :=
  {| blocks := ∅; faults := []; draws := 0%nat; clock := steady;
     ticks := 0%nat; chain := confirming (plain_receipt entries);
     delivered := [] |}.

(** A service with no encryption key in its environment, and one with. *)
Definition keyless : IPFSService :=
  {| gatewayUrl := "https://ipfs.io/ipfs/"; ENCRYPTION_KEY := None |}.

Definition keyed : IPFSService :=
  {| gatewayUrl := "https://ipfs.io/ipfs/";
     ENCRYPTION_KEY := Some "correct horse battery staple" |}.

Definition card : json := JObj [("card", JStr "4111 1111 1111 1111")].

Definition seven : list json :=
  map (fun n => JObj [("n", JNum n)]) [1; 2; 3; 4; 5; 6; 7].

(** A client with the default settings, and one with auto-approval off. *)
Definition default_config : ProofConfig :=
  {| network := None; autoApprove := None; ipfsGateway := None;
     certificateBaseUrl := Some "https://proof.example/"; encryptData := None;
     onRecord := Some (fun _ => None) |}.

Definition manual_config : ProofConfig :=
  {| network := Some polygon; autoApprove := Some false; ipfsGateway := None;
     certificateBaseUrl := Some "https://proof.example/"; encryptData := None;
     onRecord := None |}.

Definition default_client : ProofClient :=
  {| config := default_config; ipfs := keyless |}.

Definition manual_client : ProofClient :=
  {| config := manual_config; ipfs := keyless |}.

Definition price_fetch : Fetch :=
  {| outcome :=
       inr {| url := "https://api.example.com/price";
              status := 200;
              statusText := "OK";
              response_headers := [("content-type", "application/json")];
              text := "{}" |} |}.

Definition no_options : RecordOptions :=
  {| method := None; headers := None; body := None; metadata := None;
     visibility := None; sharedWith := None |}.

(** Log entries of a single-record and of a batch confirmation. *)
Definition single_logs : list Log :=
  [Foreign;
   Decoded (TokensCollected "0xsigner" 10);
   Decoded (RecordStored 2748%N "0xsigner");
   Decoded (RecordStored 7%N "0xsigner")].

Definition batch_logs : list Log :=
  [Decoded (TokensCollected "0xsigner" 16);
   Decoded (BatchRecordStored 3054%N 2)].

Definition two_items : list BatchItem :=
  [{| item_request := JObj [("url", JStr "/api/a")];
      item_response := JObj [("status", JNum 200)];
      item_metadata := None |};
   {| item_request := JObj [("url", JStr "/api/b")];
      item_response := JObj [("status", JNum 404)];
      item_metadata := Some (JObj [("timestamp", JNum 5)]) |}].

Import Hooks.

(** The world of [world0] with a node whose next [add]s fail as [fs]
    says. *)
Definition flaky (fs : list bool) : world :=
  {| blocks := ∅; faults := fs; draws := 0%nat; clock := steady;
     ticks := 0%nat; chain := confirming (plain_receipt single_logs);
     delivered := [] |}.

Definition out_of_funds : js_error :=
  {| code := Some "INSUFFICIENT_FUNDS";
     message := "insufficient funds for intrinsic transaction cost" |}.

(** A ledger that confirms approvals and rejects every anchor. *)
Definition rejecting : ledger :=
  {| signerAddress := "0xsigner";
     registryAddress := "0xregistry";
     recordPrice := inr 10;
     allowance := 0;
     submit := fun c =>
       match c with
       | Approve _ _ =>
           inr {| tx_hash := "0xapprove"; wait := inr (plain_receipt []) |}
       | _ => inl out_of_funds
       end;
     trace := [] |}.

Definition unfunded : world :=
  {| blocks := ∅; faults := []; draws := 0%nat; clock := steady;
     ticks := 0%nat; chain := rejecting; delivered := [] |}.

Definition failed_fetch : Fetch :=
  {| outcome :=
       inl {| code := Some "NETWORK_ERROR";
              message := "getaddrinfo ENOTFOUND api.example.com" |} |}.

(** A client that encrypts what it archives, with auto-approval off. *)
Definition sealing_client : ProofClient :=
  {| config :=
       {| network := None; autoApprove := Some false; ipfsGateway := None;
          certificateBaseUrl := None; encryptData := Some true;
          onRecord := Some (fun _ => None) |};
     ipfs := keyed |}.

(** A client, auto-approval off, whose callback throws. *)
Definition listener_error : js_error :=
  {| code := None; message := "Cannot read properties of undefined" |}.

Definition faulty_listener : ProofClient :=
  {| config :=
       {| network := Some polygon; autoApprove := Some false;
          ipfsGateway := None; certificateBaseUrl := None;
          encryptData := None;
          onRecord := Some (fun _ => Some listener_error) |};
     ipfs := keyless |}.

Definition queued : list QueueEntry :=
  [{| request := JObj [("url", JStr "/api/a")];
      response := JObj [("status", JNum 200)];
      captured := 1700000000001 |};
   {| request := JObj [("url", JStr "/api/b")];
      response := JObj [("status", JNum 500)];
      captured := 1700000000002 |}].

Definition listing : RequestData :=
  {| rq_method := "GET"; rq_url := "/api/users?page=2";
     rq_headers := JObj [("accept", JStr "application/json")];
     rq_body := None; rq_ip := Some "203.0.113.7";
     rq_timestamp := 1699999999000 |}.

Definition listed : ResponseData :=
  {| rs_status := 200;
     rs_headers := [("content-type", "application/json")];
     rs_body := Some (JArr [JNum 1; JNum 2]);
     rs_duration := 42 |}.

Definition no_content : ResponseData :=
  {| rs_status := 204; rs_headers := [];
     rs_body := Some (JStr "No Content"); rs_duration := 3 |}.

(** The entries of the [Headers] object for headers whose names are
    distinct and in lower case, up to their order. *)
Definition fetch_entries (body : option string)
    (headers : list (string * string)) : list (string * string) :=
  match body with
  | Some _ =>
      if existsb (fun kv => String.eqb (fst kv) "content-type") headers
      then headers
      else headers ++ [("content-type", "text/plain;charset=UTF-8")]
  | None => headers
  end.

End Examples.
Import Examples.

(** * Properties *)

(** ** Pattern filter *)
Section PatternFilter.
Import Middleware.

(** A wildcard pattern is a regular expression anchored at both ends; a
    pattern without wildcard matches every path it is a prefix of. *)
Example matchPattern_wildcard : matchPattern "/api/users" "/api/*" = Some true.
Proof. reflexivity. Qed.

Example matchPattern_wildcard_anchored :
  matchPattern "/v1/api/users" "/api/*" = Some false.
Proof. reflexivity. Qed.

Example matchPattern_prefix : matchPattern "/healthz" "/health" = Some true.
Proof. reflexivity. Qed.

(** A dot of the pattern stays a dot of the regular expression. *)
Example matchPattern_dot : matchPattern "/api/v1-json" "/api/*.json" = Some true.
Proof. reflexivity. Qed.

(** A pattern with a group is outside the expressions the model reads. *)
Example matchPattern_group : matchPattern "/api/v1" "/api/(v1|v2)/*" = None.
Proof. reflexivity. Qed.

(** An empty list of include patterns is a configured list. *)
Example shouldRecord_empty_patterns :
  shouldRecord {| patterns := Some []; excludePatterns := None;
                  batchInterval := None; batchSize := None |} "/api/users"
  = Some false.
Proof. reflexivity. Qed.








End PatternFilter.

(** ** Batch queue *)
Section BatchQueue.
Import Middleware.

Variable options : ProofMiddlewareOptions.

Lemma contents_push_eq l e st :
  contents (push l e st) l = contents st l ++ [e].
Proof. unfold contents, push. cbn. rewrite lookup_insert_eq. reflexivity. Qed.

Lemma contents_push_ne l l' e st :
  l <> l' -> contents (push l e st) l' = contents st l'.
Proof.
  intros Hne. unfold contents, push. cbn.
  rewrite lookup_insert_ne by exact Hne. reflexivity.
Qed.

Lemma queue_push e st :
  queue (push (batchQueue st) e st) = queue st ++ [e].
Proof. unfold queue. cbn. apply contents_push_eq. Qed.

(** What a flush of a non-empty queue does. *)
Lemma processBatch_flushes st :
  queue st <> [] ->
  let st' := processBatch st in
  let batch := next_loc st in
  queue st' = []
  /\ batchQueue st' = S (next_loc st)
  /\ next_loc st' = S (S (next_loc st))
  /\ batchTimer st' = batchTimer st
  /\ flushed st' = flushed st ++ [batch]
  /\ in_flight st' = in_flight st ++ [batch]
  /\ contents st' batch = queue st
  /\ (forall l, (l < next_loc st)%nat -> contents st' l = contents st l).
Proof.
  intros Hne. unfold processBatch.
  destruct (queue st) as [|e q] eqn:Hq; [congruence|].
  cbn. unfold queue, contents. cbn. repeat split.
  - rewrite lookup_insert_eq. reflexivity.
  - rewrite lookup_insert_ne by lia. rewrite lookup_insert_eq. reflexivity.
  - intros l Hl. rewrite !lookup_insert_ne by lia. reflexivity.
Qed.

Lemma processBatch_empty st : queue st = [] -> processBatch st = st.
Proof. intros Hq. unfold processBatch. rewrite Hq. reflexivity. Qed.

Lemma flushed_entries_stable st st' :
  Forall (fun b => (b < next_loc st)%nat) (flushed st) ->
  (forall l, (l < next_loc st)%nat -> contents st' l = contents st l) ->
  concat (map (contents st') (flushed st)) = flushed_entries st.
Proof.
  intros Hall Hsame. unfold flushed_entries. f_equal.
  induction Hall as [|b bs Hb _ IH]; cbn; [reflexivity|].
  rewrite Hsame by exact Hb. rewrite IH. reflexivity.
Qed.

(** A flush keeps the state well formed, moves the queue to the end of
    the flushed entries and leaves the older arrays alone. *)
Lemma processBatch_step st :
  well_formed st ->
  let st' := processBatch st in
  well_formed st'
  /\ flushed_entries st' ++ queue st' = flushed_entries st ++ queue st
  /\ (forall b, b ∈ flushed st -> contents st' b = contents st b)
  /\ (exists later, flushed st' = flushed st ++ later).
Proof.
  intros (Hq & Hall & Hnotin & Hnodup). cbn zeta.
  destruct (queue st) as [|e q] eqn:Hqueue.
  - rewrite processBatch_empty by exact Hqueue. rewrite Hqueue.
    repeat split; try assumption. exists []. rewrite app_nil_r. reflexivity.
  - assert (Hne : queue st <> []) by (rewrite Hqueue; discriminate).
    destruct (processBatch_flushes st Hne)
      as (Hq' & Hbq & Hnext & _ & Hfl & _ & Hbatch & Hsame).
    rewrite <- Hqueue.
    split; [|split; [|split]].
    + unfold well_formed. rewrite Hbq, Hnext, Hfl.
      split; [|split; [|split]].
      * lia.
      * apply Forall_app. split.
        -- eapply Forall_impl; [exact Hall|]. cbn. intros; lia.
        -- constructor; [lia|constructor].
      * rewrite elem_of_app, list_elem_of_singleton.
        intros [Hin|Heq]; [|lia].
        rewrite Forall_forall in Hall. apply Hall in Hin. lia.
      * apply NoDup_app. repeat split.
        -- exact Hnodup.
        -- intros x Hx Hx'. apply list_elem_of_singleton in Hx'. subst x.
           rewrite Forall_forall in Hall. apply Hall in Hx. lia.
        -- apply NoDup_singleton.
    + rewrite Hq', app_nil_r. unfold flushed_entries at 1.
      rewrite Hfl, map_app, concat_app. cbn. rewrite app_nil_r, Hbatch.
      rewrite (flushed_entries_stable st _ Hall Hsame). reflexivity.
    + intros b Hb. apply Hsame. rewrite Forall_forall in Hall. auto.
    + eexists. exact Hfl.
Qed.

Lemma push_step e st :
  well_formed st ->
  let st' := push (batchQueue st) e st in
  well_formed st'
  /\ flushed_entries st' ++ queue st' = flushed_entries st ++ queue st ++ [e]
  /\ (forall b, b ∈ flushed st -> contents st' b = contents st b)
  /\ flushed st' = flushed st.
Proof.
  intros Hwf. pose proof Hwf as (Hq & Hall & Hnotin & Hnodup). cbn zeta.
  assert (Hsame : forall b, b ∈ flushed st ->
            contents (push (batchQueue st) e st) b = contents st b).
  { intros b Hb. apply contents_push_ne. intros Heq. subst b. contradiction. }
  split; [exact Hwf|split; [|split; [exact Hsame|reflexivity]]].
  rewrite queue_push. f_equal. unfold flushed_entries. cbn. f_equal.
  apply map_ext_in. intros b Hb. apply Hsame, list_elem_of_In, Hb.
Qed.

(** One turn of the event loop. *)
Lemma handle_step ev st :
  well_formed st ->
  let st' := handle options st ev in
  well_formed st'
  /\ flushed_entries st' ++ queue st'
     = flushed_entries st ++ queue st ++ entry_of options ev
  /\ (forall b, b ∈ flushed st -> contents st' b = contents st b)
  /\ (exists later, flushed st' = flushed st ++ later).
Proof.
  intros Hwf. cbn zeta.
  assert (Hstay : well_formed st
            /\ flushed_entries st ++ queue st = flushed_entries st ++ queue st ++ []
            /\ (forall b, b ∈ flushed st -> contents st b = contents st b)
            /\ (exists later, flushed st = flushed st ++ later)).
  { rewrite app_nil_r. repeat split; try apply Hwf.
    exists []. rewrite app_nil_r. reflexivity. }
  destruct ev as [rq rs now| |b]; cbn [handle entry_of].
  - destruct (batching options); [|exact Hstay].
    unfold addToBatch.
    set (e := {| request := rq; response := rs; captured := now |}).
    destruct (push_step e st Hwf) as (Hwf1 & Heq1 & Hsame1 & Hfl1).
    destruct (Z.of_nat _ >=? sizeLimit options).
    + destruct (processBatch_step _ Hwf1) as (Hwf2 & Heq2 & Hsame2 & later & Hfl2).
      split; [exact Hwf2|split; [|split]].
      * rewrite Heq2. exact Heq1.
      * intros b Hb. rewrite Hsame2 by (rewrite Hfl1; exact Hb). auto.
      * exists later. rewrite Hfl2, Hfl1. reflexivity.
    + split; [exact Hwf1|split; [exact Heq1|split; [exact Hsame1|]]].
      exists []. rewrite app_nil_r. exact Hfl1.
  - destruct (batchTimer st); [|exact Hstay].
    unfold timerCallback. destruct (0 <? length (queue st))%nat; [|exact Hstay].
    rewrite !app_nil_r. apply processBatch_step. exact Hwf.
  - rewrite !app_nil_r. repeat split; try apply Hwf.
    exists []. rewrite app_nil_r. reflexivity.
Qed.

(** Any number of turns, from a well-formed state. *)
Lemma run_steps evs : forall st,
  well_formed st ->
  let st' := run options st evs in
  well_formed st'
  /\ flushed_entries st' ++ queue st'
     = flushed_entries st ++ queue st ++ appended options evs
  /\ (forall b, b ∈ flushed st -> contents st' b = contents st b)
  /\ (exists later, flushed st' = flushed st ++ later).
Proof.
  induction evs as [|ev evs IH]; intros st Hwf; cbn zeta.
  - cbn. rewrite !app_nil_r. repeat split; try apply Hwf.
    exists []. rewrite app_nil_r. reflexivity.
  - cbn [run fold_left].
    destruct (handle_step ev st Hwf) as (Hwf1 & Heq1 & Hsame1 & later1 & Hfl1).
    destruct (IH _ Hwf1) as (Hwf2 & Heq2 & Hsame2 & later2 & Hfl2).
    unfold run in *.
    split; [exact Hwf2|split; [|split]].
    + rewrite Heq2, app_assoc, Heq1, <- !app_assoc. reflexivity.
    + intros b Hb. rewrite Hsame2, Hsame1; [reflexivity|exact Hb|].
      rewrite Hfl1. apply elem_of_app. left. exact Hb.
    + exists (later1 ++ later2). rewrite Hfl2, Hfl1, app_assoc. reflexivity.
Qed.

Lemma create_well_formed : well_formed (create options).
Proof.
  unfold create, well_formed.
  destruct (batching options); cbn;
    (split; [lia|split; [constructor|split; [apply not_elem_of_nil|constructor]]]).
Qed.

Lemma create_empty :
  queue (create options) = [] /\ flushed (create options) = [].
Proof.
  unfold create. destruct (batching options); split; reflexivity.
Qed.

(** C4.  A flush of a non-empty queue copies the entries into an array of
    its own and points [batchQueue] at a fresh empty array, within the
    synchronous part of [processBatch], before the submission runs.
    Hence, after any sequence of exchanges, timer ticks and settled
    submissions on a new middleware: the batches flushed so far, in order,
    followed by the queue are exactly the entries appended, in order, so
    that every entry is in one flush or still queued and in no two
    flushes; the flushed batches are distinct arrays, none of them the
    queue; and whatever happens later changes none of them, so that an
    entry appended during a submission lands in the fresh queue. *)
Theorem flush_consumes_each_entry_once :
  (forall st,
      queue st <> [] ->
      let st' := processBatch st in
      queue st' = []
      /\ batchQueue st' <> next_loc st
      /\ flushed st' = flushed st ++ [next_loc st]
      /\ in_flight st' = in_flight st ++ [next_loc st]
      /\ contents st' (next_loc st) = queue st)
  /\ (forall evs,
         let st := run options (create options) evs in
         flushed_entries st ++ queue st = appended options evs
         /\ NoDup (flushed st)
         /\ (batchQueue st ∉ flushed st)
         /\ (forall evs',
                let st' := run options st evs' in
                (forall b, b ∈ flushed st -> contents st' b = contents st b)
                /\ (exists later, flushed st' = flushed st ++ later)
                /\ flushed_entries st' ++ queue st'
                   = flushed_entries st ++ queue st ++ appended options evs')).
Proof.
  split.
  - intros st Hne. cbn zeta.
    destruct (processBatch_flushes st Hne)
      as (Hq & Hbq & _ & _ & Hfl & Hin & Hbatch & _).
    repeat split; try assumption. rewrite Hbq. lia.
  - intros evs. cbn zeta.
    destruct (run_steps evs _ create_well_formed)
      as (Hwf & Heq & _ & _).
    destruct create_empty as [Hq0 Hf0].
    unfold flushed_entries at 2 in Heq. rewrite Hq0, Hf0 in Heq. cbn in Heq.
    pose proof Hwf as (_ & _ & Hnotin & Hnodup).
    split; [exact Heq|split; [exact Hnodup|split; [exact Hnotin|]]].
    intros evs'.
    destruct (run_steps evs' _ Hwf) as (_ & Heq' & Hsame & Hlater).
    repeat split; assumption.
Qed.

Lemma addToBatch_below rq rs now st :
  Z.of_nat (length (queue st)) + 1 < sizeLimit options ->
  addToBatch options rq rs now st
  = push (batchQueue st)
      {| request := rq; response := rs; captured := now |} st.
Proof.
  intros Hlt. unfold addToBatch. rewrite queue_push, length_app. cbn.
  destruct (Z.geb_spec (Z.of_nat (length (queue st) + 1)) (sizeLimit options));
    [lia|reflexivity].
Qed.

Lemma addToBatch_reaching rq rs now st :
  sizeLimit options <= Z.of_nat (length (queue st)) + 1 ->
  addToBatch options rq rs now st
  = processBatch
      (push (batchQueue st)
         {| request := rq; response := rs; captured := now |} st).
Proof.
  intros Hle. unfold addToBatch. rewrite queue_push, length_app. cbn.
  destruct (Z.geb_spec (Z.of_nat (length (queue st) + 1)) (sizeLimit options));
    [reflexivity|lia].
Qed.

(** Exchanges that stay below the size limit only grow the queue. *)
Lemma run_below evs : forall st,
  batching options = true ->
  Forall is_exchange evs ->
  Z.of_nat (length (queue st) + length evs) < sizeLimit options ->
  let st' := run options st evs in
  queue st' = queue st ++ appended options evs
  /\ flushed st' = flushed st
  /\ in_flight st' = in_flight st
  /\ batchTimer st' = batchTimer st
  /\ next_loc st' = next_loc st.
Proof.
  induction evs as [|ev evs IH]; intros st Hon Hex Hlt; cbn zeta.
  - cbn. rewrite app_nil_r. repeat split.
  - apply Forall_cons in Hex as [Hev Hex].
    destruct ev as [rq rs now| |b]; try contradiction.
    cbn [run fold_left handle]. cbn [length] in Hlt.
    rewrite Hon, addToBatch_below by lia.
    set (e := {| request := rq; response := rs; captured := now |}).
    destruct (IH (push (batchQueue st) e st) Hon Hex) as (Hq & Hrest).
    { rewrite queue_push, length_app. cbn. lia. }
    unfold run in *. rewrite Hq, queue_push, <- app_assoc.
    split; [|exact Hrest].
    unfold appended. cbn [flat_map entry_of]. rewrite Hon. reflexivity.
Qed.

(** C5.  With a batch interval configured, an exchange that brings the
    queue to the size limit ([batchSize], 100 when it is not set) is
    flushed by [addToBatch] itself, with the entries already queued, and
    leaves the queue empty.  On a middleware created with a batch
    interval, exchanges that stay below the limit are only queued, the
    next tick of the timer flushes them in one batch and empties the
    queue, and the tick after that flushes nothing.  A flush of an empty
    queue changes nothing. *)
Theorem flush_triggers :
  (batchSize options = None -> sizeLimit options = 100)
  /\ (batching options = true ->
      forall rq rs now st,
        sizeLimit options <= Z.of_nat (length (queue st)) + 1 ->
        let st' := handle options st (Exchange rq rs now) in
        st' = addToBatch options rq rs now st
        /\ queue st' = []
        /\ flushed st' = flushed st ++ [next_loc st]
        /\ contents st' (next_loc st)
           = queue st ++ [{| request := rq; response := rs; captured := now |}])
  /\ (batching options = true ->
      forall evs,
        Forall is_exchange evs -> evs <> [] ->
        Z.of_nat (length evs) < sizeLimit options ->
        let st := run options (create options) evs in
        let st' := handle options st TimerFires in
        flushed st = [] /\ queue st = appended options evs
        /\ queue st' = []
        /\ flushed st' = [next_loc st]
        /\ contents st' (next_loc st) = appended options evs
        /\ handle options st' TimerFires = st')
  /\ (forall st, queue st = [] -> processBatch st = st).
Proof.
  split; [|split; [|split]].
  - intros Hnone. unfold sizeLimit. rewrite Hnone. reflexivity.
  - intros Hon rq rs now st Hle. cbn zeta. cbn [handle]. rewrite Hon.
    split; [reflexivity|].
    rewrite addToBatch_reaching by exact Hle.
    set (e := {| request := rq; response := rs; captured := now |}).
    assert (Hne : queue (push (batchQueue st) e st) <> []).
    { rewrite queue_push. destruct (queue st); discriminate. }
    destruct (processBatch_flushes _ Hne)
      as (Hq & _ & _ & _ & Hfl & _ & Hbatch & _).
    rewrite queue_push in Hbatch. repeat split; assumption.
  - intros Hinterval evs Hex Hne Hlt. cbn zeta.
    destruct create_empty as [Hq0 Hf0].
    destruct (run_below evs (create options) Hinterval Hex)
      as (Hq & Hfl & _ & Htimer & _).
    { rewrite Hq0. cbn. exact Hlt. }
    rewrite Hq0 in Hq. rewrite Hf0 in Hfl. cbn in Hq.
    set (st := run options (create options) evs) in *.
    assert (Hon : batchTimer st = Some (num_or (batchInterval options) 60000)).
    { rewrite Htimer. unfold create. rewrite Hinterval. reflexivity. }
    assert (Hnonempty : queue st <> []).
    { rewrite Hq. destruct evs as [|[rq rs now| |b] evs']; try congruence;
        try (apply Forall_cons in Hex as [[] _]).
      unfold appended. cbn [flat_map entry_of].
      rewrite Hinterval. discriminate. }
    assert (Htick : handle options st TimerFires = processBatch st).
    { cbn. rewrite Hon. unfold timerCallback.
      destruct (queue st); [congruence|reflexivity]. }
    rewrite Htick.
    destruct (processBatch_flushes _ Hnonempty)
      as (Hq' & _ & _ & Htimer' & Hfl' & _ & Hbatch & _).
    rewrite Hfl in Hfl'. rewrite Hq in Hbatch.
    repeat split; try assumption.
    cbn. rewrite Htimer', Hon. unfold timerCallback. rewrite Hq'. reflexivity.
  - apply processBatch_empty.
Qed.

End BatchQueue.

Section BatchQueueExamples.
Import Middleware.

Lemma flush_consumes_each_entry_once_witness :
  let st := run batching_options (create batching_options) [ping 1] in
  let st' := processBatch st in
  queue st <> []
  /\ queue st' = []
  /\ contents st' (next_loc st) = queue st
  /\ contents (run batching_options st' [ping 2]) (next_loc st) = queue st.
Proof.
  intros st st'.
  assert (Hne : queue st <> []) by (vm_compute; discriminate).
  destruct (flush_consumes_each_entry_once batching_options) as [Hflush Hrun].
  destruct (Hflush st Hne) as (Hq & _ & _ & _ & Hbatch).
  split; [exact Hne|split; [exact Hq|split; [exact Hbatch|]]].
  destruct (Hrun [ping 1; TimerFires]) as (_ & _ & _ & Hlater).
  destruct (Hlater [ping 2]) as (Hsame & _).
  change (run batching_options st' [ping 2])
    with (run batching_options
            (run batching_options (create batching_options) [ping 1; TimerFires])
            [ping 2]).
  rewrite Hsame; [exact Hbatch|].
  vm_compute. apply list_elem_of_here.
Defined.

Lemma flush_triggers_witness :
  let st := run batching_options (create batching_options) [ping 1] in
  batching batching_options = true
  /\ queue st = appended batching_options [ping 1]
  /\ queue (handle batching_options st TimerFires) = []
  /\ queue (handle batching_options st (ping 2)) = [].
Proof.
  intros st.
  destruct (flush_triggers batching_options) as (_ & Hsize & Htimer & _).
  split; [reflexivity|].
  destruct (Htimer eq_refl [ping 1]) as (_ & Hq & Hq' & _).
  - repeat constructor.
  - discriminate.
  - vm_compute. reflexivity.
  - split; [exact Hq|split; [exact Hq'|]].
    apply (Hsize eq_refl). vm_compute. discriminate.
Defined.

End BatchQueueExamples.

(** ** Archive adapter *)
Section Archive.
Context `{Runtime}.
Variable service : IPFSService.

Lemma append_cons c p x : String c p +:+ x = String c (p +:+ x).
Proof. reflexivity. Qed.

Lemma startsWith_app p x : startsWith (p +:+ x) p = true.
Proof.
  induction p as [|c p IH]; [reflexivity|].
  rewrite append_cons. cbn [startsWith]. rewrite Ascii.eqb_refl. exact IH.
Qed.

Lemma substring_all x : String.substring 0 (String.length x) x = x.
Proof. induction x as [|c x IH]; cbn; [reflexivity|]. rewrite IH. reflexivity. Qed.

Lemma substring_after p x :
  String.substring (String.length p)
    (String.length (p +:+ x) - String.length p) (p +:+ x) = x.
Proof.
  induction p as [|c p IH].
  - change ("" +:+ x) with x. cbn [String.length].
    rewrite Nat.sub_0_r. apply substring_all.
  - rewrite append_cons. cbn [String.length String.substring Nat.sub]. exact IH.
Qed.

Lemma remove_first_prefix p x :
  p <> "" -> remove_first p (p +:+ x) = x.
Proof.
  intros Hp. destruct p as [|c p]; [congruence|].
  assert (Hstep : remove_first (String c p) (String c p +:+ x)
                  = String.substring (String.length (String c p))
                      (String.length (String c p +:+ x)
                       - String.length (String c p))
                      (String c p +:+ x)).
  { rewrite append_cons at 1. cbn [remove_first].
    rewrite <- append_cons, startsWith_app. reflexivity. }
  rewrite Hstep. apply substring_after.
Qed.

(** [encrypt] throws when no key is configured. *)
Lemma encrypt_requires_key content w :
  truthy_str (ENCRYPTION_KEY service) = false ->
  exists e, encrypt service content w = (inl e, w).
Proof.
  intros Hkey. unfold encrypt. rewrite Hkey. cbn. eexists. reflexivity.
Qed.

(** Without a key [upload] never calls [encrypt]: the flag is ignored. *)
Lemma upload_ignores_flag_without_key data flag w :
  truthy_str (ENCRYPTION_KEY service) = false ->
  upload service data flag w = upload service data None w.
Proof.
  intros Hkey. unfold upload, wants. rewrite Hkey.
  destruct flag as [[]|]; reflexivity.
Qed.

(** What an upload that does not encrypt returns and stores. *)
Lemma upload_plain data flag w :
  wants service flag = false ->
  accepts_next w ->
  let block := utf8_encode (content_of data) in
  let w' :=
    with_ticks (S (ticks w))
      (with_blocks <[cid_of block := block]> (with_faults (tail (faults w)) w)) in
  upload service data flag w
  = (inr {| cid := cid_of block;
            IPFS.url := gatewayUrl service +:+ cid_of block;
            size := block_size block;
            timestamp := reading w 0 |}, w').
Proof.
  intros Hwants Hacc. unfold upload, try_catch, bind, client_add.
  rewrite Hwants. fold (content_of data). cbn.
  unfold accepts_next in Hacc.
  destruct (faults w) as [|[] fs]; [reflexivity|contradiction|reflexivity].
Qed.

(** C1, on the code.  With [encrypt = true] and no encryption key in the
    environment, an upload that the node accepts does not fail: it
    returns a result, the block stored under the returned CID is the
    payload text unencrypted, and the run is the one of an upload that
    asks for no encryption.  [encrypt] would throw its configuration
    error on every input, but [upload] does not call it. *)
Theorem upload_without_key_stores_plaintext data w :
  truthy_str (ENCRYPTION_KEY service) = false ->
  accepts_next w ->
  (exists result w',
      upload service data (Some true) w = (inr result, w')
      /\ blocks w' !! cid result = Some (utf8_encode (content_of data))
      /\ upload service data (Some true) w = upload service data (Some false) w)
  /\ (forall content w0, exists e, encrypt service content w0 = (inl e, w0)).
Proof.
  intros Hkey Hacc.
  assert (Hwants : forall flag, wants service flag = false).
  { intros [[]|]; unfold wants; rewrite ?Hkey; reflexivity. }
  split.
  - do 2 eexists. split; [apply upload_plain; [apply Hwants|exact Hacc]|].
    split.
    + cbn. apply lookup_insert_eq.
    + rewrite !(upload_ignores_flag_without_key _ _ _ Hkey). reflexivity.
  - intros content w0. apply encrypt_requires_key. exact Hkey.
Qed.

Lemma encrypt_seals content w :
  truthy_str (ENCRYPTION_KEY service) = true ->
  encrypt service content w
  = (inr (sealed_text service (draws w) content), with_draws (S (draws w)) w).
Proof.
  intros Hkey. unfold encrypt, sealed_text, bind, draw, ret.
  rewrite Hkey. cbn. rewrite base64_decode_encode. reflexivity.
Qed.

Lemma decrypt_sealed n content w :
  truthy_str (ENCRYPTION_KEY service) = true ->
  decrypt service (sealed_text service n content) w = (inr content, w).
Proof.
  intros Hkey. unfold decrypt. rewrite Hkey. cbn [negb].
  unfold sealed_text.
  set (key := sha256 _). set (iv := randomBytes n 12).
  set (sealed := gcm_seal key iv (utf8_encode content)).
  set (body := base64_encode _).
  assert (Hlegacy : startsWith ("ENCRYPTED_V2:" +:+ body) "ENCRYPTED:" = false)
    by reflexivity.
  rewrite Hlegacy, startsWith_app. cbn [negb].
  rewrite remove_first_prefix by discriminate.
  subst body. rewrite base64_decode_encode.
  assert (Hiv : length iv = 12%nat) by apply randomBytes_length.
  assert (Htag : length (snd sealed) = 16%nat) by apply gcm_tag_length.
  rewrite (take_app_length' iv) by lia.
  replace (drop 12 (iv ++ snd sealed ++ fst sealed)) with (snd sealed ++ fst sealed)
    by (symmetry; apply drop_app_length'; lia).
  rewrite (take_app_length' (snd sealed)) by lia.
  replace (drop 28 (iv ++ snd sealed ++ fst sealed)) with (fst sealed).
  2:{ rewrite app_assoc. symmetry. apply drop_app_length'.
      rewrite length_app. lia. }
  subst sealed. rewrite gcm_open_seal, utf8_decode_encode. reflexivity.
Qed.

(** What an upload that encrypts returns and stores. *)
Lemma upload_sealed data w :
  truthy_str (ENCRYPTION_KEY service) = true ->
  accepts_next w ->
  let block := utf8_encode (sealed_text service (draws w) (content_of data)) in
  let w' :=
    with_ticks (S (ticks w))
      (with_blocks <[cid_of block := block]>
         (with_faults (tail (faults w)) (with_draws (S (draws w)) w))) in
  upload service data (Some true) w
  = (inr {| cid := cid_of block;
            IPFS.url := gatewayUrl service +:+ cid_of block;
            size := block_size block;
            timestamp := reading w 0 |}, w').
Proof.
  intros Hkey Hacc. unfold upload, try_catch, bind, wants.
  rewrite Hkey. fold (content_of data). rewrite encrypt_seals by exact Hkey.
  unfold client_add. cbn. unfold accepts_next in Hacc.
  destruct (faults w) as [|[] fs]; [reflexivity|contradiction|reflexivity].
Qed.

(** An upload that the node accepts returns a result, whatever the flag. *)
Lemma upload_succeeds data flag w :
  accepts_next w ->
  exists result w',
    upload service data flag w = (inr result, w')
    /\ faults w' = tail (faults w)
    /\ chain w' = chain w.
Proof.
  intros Hacc. destruct (wants service flag) eqn:Hwants.
  - assert (Hflag : flag = Some true /\ truthy_str (ENCRYPTION_KEY service) = true).
    { unfold wants in Hwants. destruct flag as [[]|]; try discriminate.
      split; [reflexivity|exact Hwants]. }
    destruct Hflag as [-> Hkey].
    do 2 eexists. split; [apply upload_sealed; assumption|].
    split; reflexivity.
  - do 2 eexists. split; [apply upload_plain; assumption|].
    split; reflexivity.
Qed.

(** Reading a stored block back, with decryption asked for. *)
Lemma retrieve_sealed n content w :
  truthy_str (ENCRYPTION_KEY service) = true ->
  blocks w !! cid_of (utf8_encode (sealed_text service n content))
  = Some (utf8_encode (sealed_text service n content)) ->
  retrieve service (cid_of (utf8_encode (sealed_text service n content)))
    (Some true) w
  = (inr (parsed_or_text content), w).
Proof.
  intros Hkey Hblock. unfold retrieve, try_catch, bind, client_cat, wants.
  rewrite Hblock, Hkey, utf8_decode_encode, decrypt_sealed by exact Hkey.
  reflexivity.
Qed.

Lemma reads_back_parsed data :
  reads_back data -> parsed_or_text (content_of data) = data.
Proof.
  unfold reads_back, parsed_or_text, content_of.
  destruct data; intros Hr; rewrite Hr; reflexivity.
Qed.

(** C7, as the code has it.  With an encryption key configured, an upload
    with [encrypt = true] that the node accepts stores the sealed text of
    the payload: the marker [ENCRYPTED_V2:] followed by the 12-byte nonce,
    the tag and the ciphertext under the key derived with [sha256].
    Retrieving it with [decrypt = true] yields what [JSON.parse] makes of
    the text that was sealed, and that text itself if it does not parse.
    This is the original payload for every payload other than a string
    that [JSON.parse] reads back from its [JSON.stringify] text, and for
    every string that is not JSON text itself. *)
Theorem encrypted_roundtrip data w :
  truthy_str (ENCRYPTION_KEY service) = true ->
  accepts_next w ->
  exists result w',
    upload service data (Some true) w = (inr result, w')
    /\ blocks w' !! cid result
       = Some (utf8_encode (sealed_text service (draws w) (content_of data)))
    /\ retrieve service (cid result) (Some true) w'
       = (inr (parsed_or_text (content_of data)), w')
    /\ (reads_back data ->
        retrieve service (cid result) (Some true) w' = (inr data, w')).
Proof.
  intros Hkey Hacc. do 2 eexists.
  split; [apply upload_sealed; assumption|].
  cbn [cid].
  set (block := utf8_encode (sealed_text service (draws w) (content_of data))).
  set (w' := with_ticks _ _).
  assert (Hblock : blocks w' !! cid_of block = Some block)
    by apply lookup_insert_eq.
  assert (Hget : retrieve service (cid_of block) (Some true) w'
                 = (inr (parsed_or_text (content_of data)), w')).
  { apply retrieve_sealed; assumption. }
  split; [exact Hblock|]. split; [exact Hget|].
  intros Hr. rewrite Hget, (reads_back_parsed _ Hr). reflexivity.
Qed.

(** What an upload that the node accepts returns and stores. *)
Lemma upload_accepted data flag w :
  accepts_next w ->
  let block := utf8_encode (stored_text service flag (draws w) data) in
  let w' :=
    with_ticks (S (ticks w))
      (with_blocks <[cid_of block := block]>
         (with_faults (tail (faults w))
            (if wants service flag then with_draws (S (draws w)) w else w))) in
  upload service data flag w
  = (inr {| cid := cid_of block;
            IPFS.url := gatewayUrl service +:+ cid_of block;
            size := block_size block;
            timestamp := reading w 0 |}, w').
Proof.
  intros Hacc. unfold stored_text. destruct (wants service flag) eqn:Hwants.
  - assert (Hflag : flag = Some true /\ truthy_str (ENCRYPTION_KEY service) = true).
    { unfold wants in Hwants. destruct flag as [[]|]; try discriminate.
      split; [reflexivity|exact Hwants]. }
    destruct Hflag as [-> Hkey]. apply upload_sealed; assumption.
  - apply upload_plain; assumption.
Qed.

(** What an upload that the node refuses returns and leaves behind: the
    clock is not read. *)
Lemma upload_refused data flag w fs :
  faults w = true :: fs ->
  upload service data flag w
  = (inl (Error "Failed to upload to IPFS: fetch failed"),
     with_faults fs
       (if wants service flag then with_draws (S (draws w)) w else w)).
Proof.
  intros Hfaults. unfold upload, try_catch, bind. fold (content_of data).
  destruct (wants service flag) eqn:Hwants.
  - assert (Hkey : truthy_str (ENCRYPTION_KEY service) = true).
    { unfold wants in Hwants. destruct flag as [[]|]; try discriminate.
      exact Hwants. }
    rewrite encrypt_seals by exact Hkey.
    unfold client_add. cbn. rewrite Hfaults. reflexivity.
  - unfold client_add, ret. cbn. rewrite Hfaults. reflexivity.
Qed.

Lemma accepts_or_refuses w :
  accepts_next w \/ exists fs, faults w = true :: fs.
Proof.
  unfold accepts_next. destruct (faults w) as [|[] fs];
    [left; exact I|right; eexists; reflexivity|left; exact I].
Qed.

(** What a run of [upload] that returns, and one that throws, tell. *)
Lemma upload_inr data flag w result w' :
  upload service data flag w = (inr result, w') ->
  let block := utf8_encode (stored_text service flag (draws w) data) in
  accepts_next w
  /\ result = {| cid := cid_of block;
                 IPFS.url := gatewayUrl service +:+ cid_of block;
                 size := block_size block;
                 timestamp := reading w 0 |}
  /\ w' = with_ticks (S (ticks w))
            (with_blocks <[cid_of block := block]>
               (with_faults (tail (faults w))
                  (if wants service flag then with_draws (S (draws w)) w
                   else w))).
Proof.
  intros Hrun. destruct (accepts_or_refuses w) as [Hacc|[fs Hfs]].
  - rewrite (upload_accepted data flag w Hacc) in Hrun.
    injection Hrun as <- <-. repeat split. exact Hacc.
  - rewrite (upload_refused data flag w fs Hfs) in Hrun. discriminate.
Qed.

Lemma upload_inl data flag w e w' :
  upload service data flag w = (inl e, w') ->
  exists fs,
    faults w = true :: fs
    /\ e = Error "Failed to upload to IPFS: fetch failed"
    /\ w' = with_faults fs
              (if wants service flag then with_draws (S (draws w)) w else w).
Proof.
  intros Hrun. destruct (accepts_or_refuses w) as [Hacc|[fs Hfs]].
  - rewrite (upload_accepted data flag w Hacc) in Hrun. discriminate.
  - rewrite (upload_refused data flag w fs Hfs) in Hrun.
    injection Hrun as <- <-. exists fs. repeat split. exact Hfs.
Qed.

(** What [createCertificate] does for a time value. *)
Lemma createCertificate_run recordId transactionHash time requestUrl
    responseStatus network w :
  valid_time time = true ->
  createCertificate service recordId transactionHash time requestUrl
    responseStatus network w
  = upload service
      (JStr (certificate_html network recordId transactionHash
               (toISOString time) requestUrl responseStatus
               (toISOString (reading w 0))))
      (Some false) (with_ticks (S (ticks w)) w).
Proof.
  intros Hvalid. unfold createCertificate, bind, lift, date_toISOString, now.
  rewrite Hvalid. reflexivity.
Qed.

Lemma reliable_accepts w : reliable w -> accepts_next w.
Proof.
  unfold reliable, accepts_next. intros Hrel.
  destruct (faults w) as [|[] fs]; [exact I| |exact I].
  apply Forall_cons in Hrel as [Hhd _]. discriminate.
Qed.

Lemma slice_drop {A} i (l : list A) :
  drop i l = slice i (i + 5) l ++ drop (i + 5) l.
Proof.
  unfold slice. replace (i + 5 - i)%nat with 5%nat by lia.
  rewrite <- (take_drop 5 (drop i l)) at 1. rewrite drop_drop. reflexivity.
Qed.

Lemma slice_length {A} i (l : list A) :
  length (slice i (i + 5) l) = Nat.min 5 (length l - i).
Proof. unfold slice. rewrite length_take, length_drop. lia. Qed.

(** One upload after the uploads of a list is the uploads of the longer
    list. *)
Lemma after_uploads_app l1 l2 w :
  after_uploads l2 (after_uploads l1 w)
  = after_uploads (l1 ++ l2) w.
Proof.
  unfold after_uploads, with_ticks, with_faults, with_blocks, stored. cbn.
  rewrite foldl_app, drop_drop, length_app. f_equal. lia.
Qed.

Lemma after_uploads_cons record l w :
  accepts_next w ->
  after_uploads l
    (with_ticks (S (ticks w))
       (with_blocks
          <[cid_of (utf8_encode (content_of record))
            := utf8_encode (content_of record)]>
          (with_faults (tail (faults w)) w)))
  = after_uploads (record :: l) w.
Proof.
  intros _. unfold after_uploads, with_ticks, with_faults, with_blocks, stored.
  cbn. f_equal; [destruct (faults w); cbn; rewrite ?drop_nil; reflexivity|lia].
Qed.

Lemma reading_after l w k :
  reading (after_uploads l w) k = reading w (length l + k).
Proof. unfold reading, after_uploads. cbn. f_equal. f_equal. lia. Qed.

(** A round whose [add]s the node accepts: every upload returns, in the
    order of the records, and takes a reading of the clock. *)
Lemma promise_all_accepted (l : list json) : forall w,
  Forall (fun fault => fault = false) (take (length l) (faults w)) ->
  promise_all (map (fun record => upload service record None) l) w
  = (inr (imap (fun j record => upload_result service record (reading w j)) l),
     after_uploads l w).
Proof.
  induction l as [|x l IH]; intros w Hok.
  - cbn. unfold after_uploads, with_ticks, with_faults, with_blocks. cbn.
    destruct w; reflexivity.
  - assert (Hacc : accepts_next w).
    { unfold accepts_next. destruct (faults w) as [|[] fs]; try exact I.
      cbn in Hok. apply Forall_cons in Hok as [Hhd _]. discriminate. }
    cbn [map promise_all].
    rewrite (upload_plain x None w eq_refl Hacc).
    rewrite IH.
    2:{ cbn [faults with_ticks with_blocks with_faults].
        destruct (faults w) as [|b fs]; cbn [tail];
          [rewrite take_nil; constructor|].
        cbn in Hok. apply Forall_cons in Hok as [_ Htl]. exact Htl. }
    rewrite (after_uploads_cons x l w Hacc), imap_cons. f_equal. f_equal.
    f_equal; try reflexivity.
    apply imap_ext. intros j record _. cbn. unfold reading. cbn.
    rewrite Nat.add_succ_r. reflexivity.
Qed.

(** Every [add] of a round is attempted, and the round succeeds when none
    of them fails. *)
Lemma promise_all_uploads (l : list json) : forall w,
  let r := promise_all (map (fun record => upload service record None) l) w in
  faults (snd r) = drop (length l) (faults w)
  /\ ((exists rs, fst r = inr rs)
      <-> Forall (fun fault => fault = false) (take (length l) (faults w))).
Proof.
  induction l as [|x l IH]; intros w; cbn zeta.
  - cbn. split; [reflexivity|]. split; [constructor|eexists; reflexivity].
  - cbn [map promise_all length].
    destruct (accepts_or_refuses w) as [Hacc|[fs Hfs]].
    + rewrite upload_accepted by exact Hacc. cbn [wants].
      set (w1 := with_ticks _ _).
      specialize (IH w1). cbn zeta in IH.
      destruct (promise_all _ w1) as [rs w2]. cbn [fst snd] in *.
      destruct IH as [Hdrop Hiff].
      assert (Hfaults1 : faults w1 = tail (faults w)) by reflexivity.
      rewrite Hfaults1 in *.
      unfold accepts_next in Hacc.
      destruct (faults w) as [|[] fs] eqn:Hfs; try contradiction.
      * cbn in *. split; [rewrite Hdrop, drop_nil; reflexivity|].
        split; [constructor|]. intros _.
        destruct Hiff as [_ Hiff]. rewrite take_nil in Hiff.
        destruct (Hiff ltac:(constructor)) as [rs' ->]. eexists. reflexivity.
      * cbn [tail drop take] in *. split; [exact Hdrop|].
        rewrite Forall_cons. split.
        -- intros [rs' Hrs]. split; [reflexivity|]. apply Hiff.
           destruct rs as [e|rs'']; [discriminate|]. eexists. reflexivity.
        -- intros [_ Hall]. apply Hiff in Hall as [rs' ->].
           eexists. reflexivity.
    + rewrite (upload_refused _ _ _ _ Hfs). cbn [wants].
      set (w1 := with_faults fs w).
      specialize (IH w1). cbn zeta in IH.
      destruct (promise_all _ w1) as [rs w2]. cbn [fst snd] in *.
      destruct IH as [Hdrop _]. rewrite Hfs. cbn [drop take].
      split; [exact Hdrop|]. split.
      * intros [rs' Hrs]. discriminate.
      * intros Hall. apply Forall_cons in Hall as [Hhd _]. discriminate.
Qed.

(** The loop returns exactly when no [add] for the remaining records
    fails. *)
Lemma uploadBatch_loop_returns records i results : forall w,
  (exists rs w', uploadBatch_loop service records i results w = (inr rs, w'))
  <-> Forall (fun fault => fault = false)
        (take (length records - i) (faults w)).
Proof.
  funelim (uploadBatch_loop service records i results); intros w.
  - unfold bind.
    pose proof (promise_all_uploads (slice i (i + 5) records) w) as Hround.
    cbn zeta in Hround.
    destruct (promise_all _ w) as [[e|batchResults] w1] eqn:Hall;
      cbn [fst snd] in Hround; destruct Hround as [Hdrop Hiff].
    + split.
      * intros (rs & w' & Hrun). discriminate.
      * intros Hok. exfalso.
        assert (Hsome : exists rs : list IPFSUploadResult,
                   @inl js_error (list IPFSUploadResult) e = inr rs).
        { apply Hiff.
          replace (take (length (slice i (i + 5) records)) (faults w))
            with (take (length (slice i (i + 5) records))
                    (take (length records - i) (faults w))).
          - apply Forall_take. exact Hok.
          - rewrite take_take. f_equal. rewrite slice_length. lia. }
        destruct Hsome as [rs Hrs]. discriminate.
    + match goal with
      | IH : forall batchResults, world -> _ |- _ =>
          rewrite (IH batchResults w1 w1)
      end.
      rewrite Hdrop.
      pose proof (slice_length i records) as Hlen.
      destruct Hiff as [Hiff _].
      assert (Hfirst : Forall (fun fault => fault = false)
                         (take (length (slice i (i + 5) records)) (faults w)))
        by (apply Hiff; eexists; reflexivity).
      rewrite Hlen in *.
      replace (length records - i)%nat
        with (Nat.min 5 (length records - i) + (length records - (i + 5)))%nat
        at 2 by lia.
      rewrite <- take_take_drop, Forall_app. tauto.
  - split.
    + intros _. replace (length records - i)%nat with 0%nat by lia. constructor.
    + intros _. do 2 eexists. reflexivity.
Qed.

(** When no [add] fails, the loop appends, round after round, the result
    of each remaining record, in the order of the records. *)
Lemma uploadBatch_loop_accepted records i results : forall w,
  Forall (fun fault => fault = false) (take (length records - i) (faults w)) ->
  uploadBatch_loop service records i results w
  = (inr (results
          ++ imap (fun j record => upload_result service record (reading w j))
               (drop i records)),
     after_uploads (drop i records) w).
Proof.
  funelim (uploadBatch_loop service records i results); intros w Hok.
  - pose proof (slice_length i records) as Hlen.
    assert (Hsplit : (length records - i
                      = Nat.min 5 (length records - i)
                        + (length records - (i + 5)))%nat) by lia.
    rewrite Hsplit, <- take_take_drop, Forall_app in Hok.
    destruct Hok as [Hround Hrest]. rewrite <- Hlen in Hround, Hrest.
    unfold bind. rewrite (promise_all_accepted _ w Hround).
    match goal with
    | IH : forall batchResults, world -> _ |- _ =>
        rewrite (IH _ w (after_uploads (slice i (i + 5) records) w))
    end.
    2:{ unfold after_uploads at 1. cbn [faults with_ticks with_faults].
        exact Hrest. }
    rewrite after_uploads_app, <- slice_drop, <- app_assoc.
    f_equal. f_equal. f_equal.
    rewrite (slice_drop i records), imap_app. f_equal.
    apply imap_ext. intros j record _. cbn.
    rewrite reading_after. reflexivity.
  - rewrite drop_ge by lia. cbn. rewrite app_nil_r.
    unfold after_uploads, with_ticks, with_faults, with_blocks. cbn.
    destruct w; reflexivity.
Qed.

(** When an [add] fails, the loop rejects at the end of the round of the
    first failure: the [add]s of that round were all attempted, and none
    of a later round. *)
Lemma uploadBatch_loop_stops records i results : forall w p,
  (p < length records - i)%nat ->
  faults w !! p = Some true ->
  Forall (fun fault => fault = false) (take p (faults w)) ->
  exists e w',
    uploadBatch_loop service records i results w = (inl e, w')
    /\ faults w'
       = drop (Nat.min (length records - i) (5 * S (p / 5))) (faults w).
Proof.
  funelim (uploadBatch_loop service records i results);
    intros w p Hp Hfault Hbefore; [|lia].
  pose proof (slice_length i records) as Hlen.
  pose proof (promise_all_uploads (slice i (i + 5) records) w) as Hround.
  cbn zeta in Hround. unfold bind.
  destruct (promise_all _ w) as [[e|batchResults] w1] eqn:Hall;
    cbn [fst snd] in Hround; destruct Hround as [Hdrop Hiff].
  - destruct (Nat.lt_ge_cases p 5) as [Hsmall|Hlarge].
    + exists e, w1. split; [reflexivity|].
      rewrite Hdrop, Hlen, (Nat.div_small p 5) by exact Hsmall.
      f_equal. lia.
    + exfalso.
      assert (Hsome : exists rs : list IPFSUploadResult,
                 @inl js_error (list IPFSUploadResult) e = inr rs).
      { apply Hiff. rewrite Hlen.
        replace (take (Nat.min 5 (length records - i)) (faults w))
          with (take (Nat.min 5 (length records - i)) (take p (faults w))).
        - apply Forall_take. exact Hbefore.
        - rewrite take_take. f_equal. lia. }
      destruct Hsome as [rs Hrs]. discriminate.
  - destruct (Nat.lt_ge_cases p 5) as [Hsmall|Hlarge].
    + exfalso. destruct Hiff as [Hiff _].
      assert (Hround : Forall (fun fault => fault = false)
                         (take (length (slice i (i + 5) records)) (faults w)))
        by (apply Hiff; eexists; reflexivity).
      rewrite Hlen, Forall_lookup in Hround.
      assert (Htrue : true = false); [|discriminate].
      apply (Hround p). rewrite lookup_take_lt by lia. exact Hfault.
    + match goal with
      | IH : forall batchResults, world -> _ |- _ =>
          destruct (IH batchResults w1 w1 (p - 5)%nat) as (e & w' & Hrun & Hfaults)
      end.
      * lia.
      * rewrite Hdrop, Hlen, lookup_drop.
        replace (Nat.min 5 (length records - i) + (p - 5))%nat with p by lia.
        exact Hfault.
      * rewrite Hdrop, Hlen, take_drop_commute. apply Forall_drop.
        replace (Nat.min 5 (length records - i) + (p - 5))%nat with p by lia.
        exact Hbefore.
      * exists e, w'. split; [exact Hrun|].
        rewrite Hfaults, Hdrop, Hlen, drop_drop. f_equal.
        replace p with ((p - 5) + 1 * 5)%nat at 2 by lia.
        rewrite Nat.div_add by lia. lia.
Qed.

(** C10.  [uploadBatch] returns when none of the [add]s for its records
    fails, and only then.  What it returns then is one result per record,
    in the order of the records: the result at index [i] carries the
    CID, the gateway URL and the size of the text of the record at index
    [i], and a reading of the clock taken during the run.  The node was
    asked once per record, and holds the text of every record under its
    CID.  The records are uploaded in rounds of five: when an [add]
    fails, [uploadBatch] rejects after the round of the first failure,
    whose [add]s were all attempted, and attempts none of a later
    round. *)
Theorem uploadBatch_results_in_order records w :
  let n := length records in
  ((exists rs w', uploadBatch service records w = (inr rs, w'))
   <-> Forall (fun fault => fault = false) (take n (faults w)))
  /\ (forall rs w',
         uploadBatch service records w = (inr rs, w') ->
         length rs = n
         /\ (forall i record,
                records !! i = Some record ->
                exists t k,
                  rs !! i = Some (upload_result service record t)
                  /\ (k < n)%nat /\ t = reading w k)
         /\ blocks w' = stored records (blocks w)
         /\ faults w' = drop n (faults w)
         /\ ticks w' = (n + ticks w)%nat
         /\ draws w' = draws w /\ chain w' = chain w)
  /\ (forall p,
         (p < n)%nat -> faults w !! p = Some true ->
         Forall (fun fault => fault = false) (take p (faults w)) ->
         exists e w',
           uploadBatch service records w = (inl e, w')
           /\ faults w' = drop (Nat.min n (5 * S (p / 5))) (faults w)).
Proof.
  cbn zeta. split; [|split].
  - unfold uploadBatch. rewrite uploadBatch_loop_returns, Nat.sub_0_r.
    reflexivity.
  - intros rs w' Hrun.
    assert (Hok : Forall (fun fault => fault = false)
                    (take (length records - 0) (faults w))).
    { apply (uploadBatch_loop_returns records 0 [] w). exists rs, w'.
      exact Hrun. }
    unfold uploadBatch in Hrun.
    rewrite (uploadBatch_loop_accepted _ _ _ _ Hok) in Hrun.
    rewrite drop_0, app_nil_l in Hrun. injection Hrun as <- <-.
    split; [apply length_imap|]. split.
    + intros i record Hi. exists (reading w i), i.
      rewrite list_lookup_imap, Hi. split; [reflexivity|].
      split; [|reflexivity]. apply lookup_lt_Some in Hi. exact Hi.
    + repeat split.
  - intros p Hp Hfault Hbefore. unfold uploadBatch.
    destruct (uploadBatch_loop_stops records 0 [] w p) as (e & w' & Hrun & Hf);
      [lia|exact Hfault|exact Hbefore|].
    exists e, w'. split; [exact Hrun|]. rewrite Hf, Nat.sub_0_r. reflexivity.
Qed.

End Archive.

Section ArchiveExamples.
#[local] Existing Instance Reference.runtime.

(** The codecs of the reference runtime on known values. *)
Example base64_known :
  base64_encode (utf8_encode "Man") = "TWFu"
  /\ base64_encode (utf8_encode "Ma") = "TWE="
  /\ base64_encode (utf8_encode "M") = "TQ=="
  /\ utf8_decode (base64_decode "aGVsbG8gd29ybGQ=") = "hello world".
Proof. repeat split; reflexivity. Qed.

Example JSON_known :
  JSON_stringify (JObj [("a", JArr [JNum 1; JNull]); ("b", JBool true)])
  = String "{" (Reference.quote "a" +:+ ":[1,null]," +:+ Reference.quote "b"
                +:+ ":true}")
  /\ JSON_parse "[1, {}, null]" = Some (JArr [JNum 1; JObj []; JNull])
  /\ JSON_parse "123" = Some (JNum 123)
  /\ JSON_parse "<html>" = None.
Proof. repeat split; reflexivity. Qed.

Lemma upload_without_key_stores_plaintext_witness :
  exists result w',
    upload keyless card (Some true) (world0 []) = (inr result, w')
    /\ blocks w' !! cid result = Some (utf8_encode (JSON_stringify_indented card)).
Proof.
  destruct (upload_without_key_stores_plaintext keyless card (world0 []))
    as ((result & w' & Hup & Hblock & _) & _); [reflexivity|exact I|].
  exists result, w'. split; [exact Hup|exact Hblock].
Defined.

(** C7 as stated fails on a string payload that is JSON text: the string
    ["null"] is JSON-serializable, it is sealed and stored, and what comes
    back is the value [null], not the string. *)
Lemma encrypted_roundtrip_string_counterexample :
  JSON_parse (JSON_stringify (JStr "null")) = Some (JStr "null")
  /\ exists result w',
       upload keyed (JStr "null") (Some true) (world0 []) = (inr result, w')
       /\ retrieve keyed (cid result) (Some true) w' = (inr JNull, w')
       /\ JNull <> JStr "null".
Proof.
  split; [reflexivity|].
  do 2 eexists. split; [apply upload_sealed; [reflexivity|exact I]|].
  split; [|discriminate].
  cbn [cid]. change JNull with (parsed_or_text (content_of (JStr "null"))).
  apply retrieve_sealed; [reflexivity|].
  cbn [blocks with_blocks with_ticks]. apply lookup_insert_eq.
Qed.

Lemma encrypted_roundtrip_witness :
  exists result w',
    upload keyed card (Some true) (world0 []) = (inr result, w')
    /\ retrieve keyed (cid result) (Some true) w' = (inr card, w').
Proof.
  destruct (encrypted_roundtrip keyed card (world0 []))
    as (result & w' & Hup & _ & _ & Hback); [reflexivity|exact I|].
  exists result, w'. split; [exact Hup|].
  apply Hback. vm_compute. reflexivity.
Defined.

Lemma uploadBatch_results_in_order_witness :
  (exists rs w' t,
      uploadBatch keyless seven (world0 []) = (inr rs, w')
      /\ length rs = 7%nat
      /\ rs !! 5%nat = Some (upload_result keyless (JObj [("n", JNum 6)]) t)
      /\ blocks w' = stored seven ∅
      /\ ticks w' = 7%nat)
  /\ (exists e w',
         uploadBatch keyless seven (flaky [false; true]) = (inl e, w')
         /\ faults w' = []).
Proof.
  destruct (uploadBatch_results_in_order keyless seven (world0 []))
    as (Hreturns & Horder & _).
  destruct (uploadBatch_results_in_order keyless seven (flaky [false; true]))
    as (_ & _ & Hstops).
  split.
  - destruct Hreturns as [_ Hreturns].
    destruct Hreturns as (rs & w' & Hrun); [constructor|].
    destruct (Horder rs w' Hrun) as (Hlen & Hith & Hblocks & _ & Hticks & _).
    destruct (Hith 5%nat (JObj [("n", JNum 6)]) eq_refl) as (t & k & Hr & _).
    exists rs, w', t. split; [exact Hrun|]. split; [exact Hlen|].
    split; [exact Hr|]. split; [exact Hblocks|exact Hticks].
  - destruct (Hstops 1%nat) as (e & w' & Hrun & Hfaults).
    + cbn. lia.
    + reflexivity.
    + repeat constructor.
    + exists e, w'. split; [exact Hrun|exact Hfaults].
Defined.

End ArchiveExamples.

(** ** Recording orchestrator *)
Section Recording.
Context `{Runtime}.
Variable client : ProofClient.

Lemma parseInt_toString z : parseInt (toString z) = Some z.
Proof.
  unfold parseInt, toString. rewrite NilZero.isi.
  - rewrite DecimalZ.of_to. reflexivity.
  - destruct z; cbn; try discriminate.
    intros [= Hp]. revert Hp. apply Unsigned.to_uint_nonnil.
  - destruct z; cbn; try discriminate.
    intros [= Hp]. revert Hp. apply Unsigned.to_uint_nonnil.
Qed.



Lemma try_catch_rethrow_inl {A} (m : M A) (h : js_error -> js_error) w e w' :
  try_catch m (fun error => throw (h error)) w = (inl e, w') ->
  exists cause, m w = (inl cause, w') /\ e = h cause.
Proof.
  unfold try_catch, throw. destruct (m w) as [[e0|a] w1]; [|discriminate].
  intros [= <- <-]. exists e0. split; reflexivity.
Qed.

(** A reading of the clock is a time value. *)
Lemma date_toISOString_reading w k :
  date_toISOString (reading w k) = inr (toISOString (reading w k)).
Proof. unfold date_toISOString, reading. rewrite ms_valid. reflexivity. Qed.

(** The registry object has no function [recordPrice]: the price read
    throws before any call is made. *)
Lemma read_recordPrice_throws w :
  read_recordPrice w = (inl price_read_error, w).
Proof. reflexivity. Qed.

Lemma ensureTokenApproval_throws n w :
  ensureTokenApproval n w = (inl price_read_error, w).
Proof. reflexivity. Qed.

Lemma handleError_price_read : handleError price_read_error = price_read_error.
Proof. reflexivity. Qed.

(** The functions of the write calls are declared. *)
Lemma send_StoreAPIRecord rh sh ih v w :
  send (StoreAPIRecord rh sh ih v) w
  = (submit (chain w) (StoreAPIRecord rh sh ih v),
     with_chain (logged (StoreAPIRecord rh sh ih v)) w).
Proof. reflexivity. Qed.

Lemma send_StoreBatchRecords rhs shs ih v w :
  send (StoreBatchRecords rhs shs ih v) w
  = (submit (chain w) (StoreBatchRecords rhs shs ih v),
     with_chain (logged (StoreBatchRecords rhs shs ih v)) w).
Proof. reflexivity. Qed.

Lemma handleError_translated e :
  code (handleError e) <> Some "INSUFFICIENT_FUNDS"
  /\ code (handleError e) <> Some "NETWORK_ERROR".
Proof.
  unfold handleError. destruct (code e) as [c|] eqn:Hc.
  - destruct (String.eqb_spec c "INSUFFICIENT_FUNDS") as [->|Hf];
      [split; discriminate|].
    destruct (String.eqb_spec c "NETWORK_ERROR") as [->|Hn];
      [split; discriminate|].
    rewrite Hc. split; congruence.
  - rewrite Hc. split; discriminate.
Qed.

(** [record], step by step. *)
Lemma record_rejected fetchPromise options w error :
  outcome fetchPromise = inl error ->
  record client fetchPromise options w
  = (inl (handleError error), with_ticks (S (ticks w)) w).
Proof.
  intros Hfetch.
  unfold record, try_catch, bind, now, await_fetch, lift, throw.
  rewrite Hfetch. reflexivity.
Qed.

Lemma record_run fetchPromise options w response :
  outcome fetchPromise = inr response ->
  record client fetchPromise options w
  = let startTime := reading w 0 in
    let endTime := reading w 1 in
    let requestData := requestData_of response options startTime in
    let responseData := responseData_of response startTime endTime in
    match upload (ipfs client) (archive_of response options startTime endTime)
            (encrypt_flag client) (with_ticks (S (S (ticks w))) w) with
    | (inl e, w1) => (inl (handleError e), w1)
    | (inr archive, w1) =>
        if config_autoApprove client then (inl price_read_error, w1)
        else
          let anchor :=
            StoreAPIRecord (hashData requestData) (hashData responseData)
              (cid archive)
              (visibility_code (default PUBLIC (visibility options))) in
          let w3 := with_chain (logged anchor) w1 in
          match submit (chain w1) anchor with
          | inl e => (inl (handleError e), w3)
          | inr tx =>
              match wait tx with
              | inl e => (inl (handleError e), w3)
              | inr receipt =>
                  match createCertificate (ipfs client)
                          (extract_recordId tx receipt) (hash receipt)
                          startTime (url response) (status response)
                          (network_name (config_network client)) w3 with
                  | (inl e, w4) => (inl (handleError e), w4)
                  | (inr certificate, w4) =>
                      let proof :=
                        receipt_of client tx receipt startTime certificate
                          (cid archive) in
                      match onRecord (config client) with
                      | Some callback =>
                          let w5 :=
                            with_delivered
                              (delivered w4 ++ [extract_recordId tx receipt])
                              w4 in
                          match callback proof with
                          | Some error => (inl (handleError error), w5)
                          | None => (inr (response, proof), w5)
                          end
                      | None => (inr (response, proof), w4)
                      end
                  end
              end
          end
    end.
Proof.
  intros Hfetch. cbn zeta.
  unfold record, try_catch, bind, now, await_fetch, lift, uploadToIPFS, bind,
    confirm, lift, emit_recorded, bind, modify, ret, throw.
  rewrite Hfetch. cbn [ticks with_ticks].
  change (reading (with_ticks (S (ticks w)) w) 0) with (reading w 1).
  fold (requestData_of response options (reading w 0)).
  fold (responseData_of response (reading w 0) (reading w 1)).
  fold (archive_of response options (reading w 0) (reading w 1)).
  fold (encrypt_flag client).
  destruct (upload _ _ _ _) as [[e|archive] w1]; [reflexivity|].
  destruct (config_autoApprove client); [reflexivity|].
  rewrite send_StoreAPIRecord.
  destruct (submit _ _) as [e|tx]; [reflexivity|].
  destruct (wait tx) as [e|receipt]; [reflexivity|].
  destruct (createCertificate _ _ _ _ _ _ _ _) as [[e|certificate] w4];
    [reflexivity|].
  fold (receipt_of client tx receipt (reading w 0) certificate (cid archive)).
  destruct (onRecord (config client)) as [callback|]; [|reflexivity].
  cbn [recordId receipt_of].
  destruct (callback _); reflexivity.
Qed.

(** [batchRecord], step by step: the allowance step throws. *)
Lemma batchRecord_run records visibility w :
  batchRecord client records visibility w
  = match upload (ipfs client) (batch_archive_of records (reading w 0))
            (encrypt_flag client) (with_ticks (S (ticks w)) w) with
    | (inl e, w1) => (inl (handleError e), w1)
    | (inr archive, w1) => (inl price_read_error, w1)
    end.
Proof.
  unfold batchRecord, try_catch, bind, now, uploadToIPFS, bind, ret, throw.
  fold (batch_archive_of records (reading w 0)). fold (encrypt_flag client).
  destruct (upload _ _ _ _) as [[e|archive] w1]; reflexivity.
Qed.

Lemma reading_valid w k : valid_time (reading w k) = true.
Proof. unfold reading. apply ms_valid. Qed.

(** The block [record] archives and the call that anchors it. *)
Lemma record_inr fetchPromise options w response proof w' :
  record client fetchPromise options w = (inr (response, proof), w') ->
  let startTime := reading w 0 in
  let endTime := reading w 1 in
  let block :=
    utf8_encode
      (stored_text (ipfs client) (encrypt_flag client) (draws w)
         (archive_of response options startTime endTime)) in
  let anchor :=
    StoreAPIRecord (hashData (requestData_of response options startTime))
      (hashData (responseData_of response startTime endTime))
      (cid_of block)
      (visibility_code (default PUBLIC (visibility options))) in
  config_autoApprove client = false
  /\ outcome fetchPromise = inr response
  /\ exists tx receipt,
       submit (chain w) anchor = inr tx /\ wait tx = inr receipt
       /\ let page :=
            utf8_encode
              (certificate_page client (extract_recordId tx receipt)
                 (hash receipt) startTime response (reading w 3)) in
          proof
          = receipt_of client tx receipt startTime
              {| cid := cid_of page;
                 IPFS.url := gatewayUrl (ipfs client) +:+ cid_of page;
                 size := block_size page;
                 timestamp := reading w 4 |}
              (cid_of block)
          /\ match onRecord (config client) with
             | Some callback => callback proof = None
             | None => True
             end
          /\ trace (chain w') = trace (chain w) ++ [anchor]
          /\ blocks w'
             = <[cid_of page := page]> (<[cid_of block := block]> (blocks w))
          /\ delivered w'
             = delivered w
               ++ match onRecord (config client) with
                  | Some _ => [extract_recordId tx receipt]
                  | None => []
                  end
          /\ faults w' = tail (tail (faults w))
          /\ ticks w' = (5 + ticks w)%nat.
Proof.
  intros Hrun. cbn zeta.
  destruct (outcome fetchPromise) as [error|response0] eqn:Hfetch.
  { rewrite (record_rejected _ _ _ _ Hfetch) in Hrun. discriminate. }
  rewrite (record_run _ _ _ _ Hfetch) in Hrun. cbn zeta in Hrun.
  destruct (upload _ _ _ _) as [[e|archive] w1] eqn:Harchive;
    [discriminate|].
  apply upload_inr in Harchive as (_ & -> & ->).
  cbn [cid ticks with_ticks draws faults chain with_blocks with_faults] in Hrun.
  destruct (config_autoApprove client); [discriminate|].
  assert (Hchain :
            chain (if wants (ipfs client) (encrypt_flag client)
                   then with_draws (S (draws w))
                          (with_ticks (S (S (ticks w))) w)
                   else with_ticks (S (S (ticks w))) w) = chain w).
  { destruct (wants _ _); reflexivity. }
  rewrite Hchain in Hrun.
  destruct (submit _ _) as [e|tx] eqn:Hsubmit; [discriminate|].
  destruct (wait tx) as [e|receipt] eqn:Hwait; [discriminate|].
  rewrite createCertificate_run in Hrun by apply reading_valid.
  destruct (upload _ _ _ _) as [[e|certificate] w4] eqn:Hpage;
    [discriminate|].
  apply upload_inr in Hpage as (_ & -> & ->).
  revert Hrun.
  destruct (wants (ipfs client) (encrypt_flag client)) eqn:Hwants;
    cbn -[certificate_html utf8_encode cid_of block_size];
    (destruct (onRecord (config client)) as [callback|];
     [destruct (callback _) eqn:Hcallback; [discriminate|]|];
     intros [= <- <- <-];
     (split; [reflexivity|]); (split; [reflexivity|]);
     exists tx, receipt;
     (split; [exact Hsubmit|]); (split; [exact Hwait|])).
  all: repeat split; try reflexivity; try exact Hcallback.
  all: rewrite ?app_nil_r; reflexivity.
Qed.
Lemma accepts_of_faults w fs :
  faults w = fs -> Forall (fun fault => fault = false) fs -> accepts_next w.
Proof.
  intros Hfs Hall. unfold accepts_next. rewrite Hfs.
  destruct Hall as [|fault rest Hfault _]; [exact I|].
  rewrite Hfault. exact I.
Qed.

Lemma Forall_tail {A} (P : A -> Prop) (l : list A) :
  Forall P l -> Forall P (tail l).
Proof. intros Hall. destruct Hall; [constructor|assumption]. Qed.

(** [upload] leaves the ledger and the callback's deliveries alone. *)
Lemma upload_frame data flag w r w' :
  upload (ipfs client) data flag w = (r, w') ->
  chain w' = chain w /\ delivered w' = delivered w.
Proof.
  intros Hrun. destruct r as [e|result].
  - apply upload_inl in Hrun as (fs & _ & _ & ->).
    destruct (wants _ _); split; reflexivity.
  - apply upload_inr in Hrun as (_ & _ & ->).
    destruct (wants _ _); split; reflexivity.
Qed.

(** With auto-approval off, a callback that returns, a node that accepts
    and a ledger that confirms, [record] returns once the fetch has
    resolved. *)
Lemma record_succeeds fetchPromise options w response :
  config_autoApprove client = false -> quiet client -> cooperative w ->
  outcome fetchPromise = inr response ->
  exists proof w',
    record client fetchPromise options w = (inr (response, proof), w').
Proof.
  intros Hmanual Hquiet [Hrel Hconfirms] Hfetch.
  rewrite (record_run _ _ _ _ Hfetch). cbn zeta.
  rewrite upload_accepted by (apply reliable_accepts; exact Hrel).
  rewrite Hmanual.
  assert (Hchain :
            chain (if wants (ipfs client) (encrypt_flag client)
                   then with_draws (S (draws w))
                          (with_ticks (S (S (ticks w))) w)
                   else with_ticks (S (S (ticks w))) w) = chain w).
  { destruct (wants _ _); reflexivity. }
  cbn [cid ticks with_ticks draws faults chain with_blocks with_faults].
  rewrite Hchain.
  match goal with
  | |- context [submit (chain w) ?c] =>
      destruct (Hconfirms c) as (tx & receipt & Hsubmit & Hwait)
  end.
  rewrite Hsubmit, Hwait.
  rewrite createCertificate_run by apply reading_valid.
  rewrite upload_accepted.
  2:{ apply (accepts_of_faults _ (tail (faults w))).
      - destruct (wants _ _); reflexivity.
      - apply Forall_tail. exact Hrel. }
  unfold quiet in Hquiet.
  destruct (onRecord (config client)) as [callback|].
  - rewrite Hquiet. do 2 eexists. reflexivity.
  - do 2 eexists. reflexivity.
Qed.

(** The ledger calls of a run of [record], whatever its outcome: none,
    or the anchor alone, and the anchor only with auto-approval off. *)
Lemma record_trace fetchPromise options w r w' :
  record client fetchPromise options w = (r, w') ->
  trace (chain w') = trace (chain w)
  \/ (config_autoApprove client = false
      /\ exists requestHash responseHash ipfsHash,
           trace (chain w')
           = trace (chain w)
             ++ [StoreAPIRecord requestHash responseHash ipfsHash
                   (visibility_code (default PUBLIC (visibility options)))]).
Proof.
  intros Hrun.
  destruct (outcome fetchPromise) as [error|response] eqn:Hfetch.
  { rewrite (record_rejected _ _ _ _ Hfetch) in Hrun.
    injection Hrun as _ <-. left. reflexivity. }
  rewrite (record_run _ _ _ _ Hfetch) in Hrun. cbn zeta in Hrun.
  destruct (upload _ _ _ _) as [[e|archive] w1] eqn:Harchive.
  { apply upload_frame in Harchive as [Hchain _].
    injection Hrun as _ <-. left. rewrite Hchain. reflexivity. }
  apply upload_frame in Harchive as [Hchain _].
  destruct (config_autoApprove client).
  { injection Hrun as _ <-. left. rewrite Hchain. reflexivity. }
  right. split; [reflexivity|]. do 3 eexists.
  destruct (submit _ _) as [e|tx];
    [injection Hrun as _ <-; cbn; rewrite Hchain; reflexivity|].
  destruct (wait tx) as [e|receipt];
    [injection Hrun as _ <-; cbn; rewrite Hchain; reflexivity|].
  rewrite createCertificate_run in Hrun by apply reading_valid.
  destruct (upload _ _ _ _) as [[e|certificate] w4] eqn:Hpage;
    apply upload_frame in Hpage as [Hchain4 _]; cbn in Hchain4.
  { injection Hrun as _ <-. rewrite Hchain4, Hchain. reflexivity. }
  destruct (onRecord (config client)) as [callback|];
    [destruct (callback _)|];
    injection Hrun as _ <-; cbn; rewrite Hchain4, Hchain; reflexivity.
Qed.

(** [batchRecord] on a node that accepts the archive, and on one that
    does not. *)
Lemma batchRecord_accepted records visibility w :
  accepts_next w ->
  let block :=
    utf8_encode
      (stored_text (ipfs client) (encrypt_flag client) (draws w)
         (batch_archive_of records (reading w 0))) in
  batchRecord client records visibility w
  = (inl price_read_error,
     with_ticks (S (S (ticks w)))
       (with_blocks <[cid_of block := block]>
          (with_faults (tail (faults w))
             (if wants (ipfs client) (encrypt_flag client)
              then with_draws (S (draws w)) (with_ticks (S (ticks w)) w)
              else with_ticks (S (ticks w)) w)))).
Proof.
  intros Hacc. cbn zeta. rewrite batchRecord_run.
  rewrite upload_accepted by exact Hacc. reflexivity.
Qed.

Lemma batchRecord_refused records visibility w fs :
  faults w = true :: fs ->
  batchRecord client records visibility w
  = (inl (Error "Failed to upload to IPFS: fetch failed"),
     with_faults fs
       (if wants (ipfs client) (encrypt_flag client)
        then with_draws (S (draws w)) (with_ticks (S (ticks w)) w)
        else with_ticks (S (ticks w)) w)).
Proof.
  intros Hfaults. rewrite batchRecord_run.
  rewrite (upload_refused _ _ _ _ fs) by exact Hfaults. reflexivity.
Qed.

(** No run of [batchRecord] returns, calls the ledger or runs the
    callback. *)
Lemma batchRecord_throws records visibility w :
  exists e w',
    batchRecord client records visibility w = (inl e, w')
    /\ trace (chain w') = trace (chain w)
    /\ delivered w' = delivered w
    /\ (accepts_next w -> e = price_read_error).
Proof.
  destruct (accepts_or_refuses w) as [Hacc|[fs Hfs]].
  - rewrite (batchRecord_accepted records visibility w Hacc).
    do 2 eexists. split; [reflexivity|].
    destruct (wants _ _); repeat split; reflexivity.
  - rewrite (batchRecord_refused records visibility w fs Hfs).
    do 2 eexists. split; [reflexivity|].
    destruct (wants _ _); repeat split; try reflexivity.
    all: unfold accepts_next; rewrite Hfs; intros [].
Qed.



(** C3, on the code.  With auto-approval disabled, a run of the
    single-record pipeline makes no call of the allowance step: whatever
    its outcome, its only ledger call, if any, is the anchor transaction,
    and it returns when the fetch resolves, the node accepts, the ledger
    confirms and the callback returns.  The batch pipeline enters the
    allowance step whatever the setting: once the node has accepted the
    archive, [batchRecord] throws the error of the price read,
    [this.proofRegistry.recordPrice is not a function], with the archive
    stored and no call made on the ledger. *)
Theorem approval_step_of_pipelines :
  (forall fetchPromise options w r w',
      config_autoApprove client = false ->
      record client fetchPromise options w = (r, w') ->
      trace (chain w') = trace (chain w)
      \/ exists requestHash responseHash ipfsHash level,
           trace (chain w')
           = trace (chain w)
             ++ [StoreAPIRecord requestHash responseHash ipfsHash level])
  /\ (forall fetchPromise options w response,
         config_autoApprove client = false -> quiet client -> cooperative w ->
         outcome fetchPromise = inr response ->
         exists proof w' requestHash responseHash ipfsHash level,
           record client fetchPromise options w = (inr (response, proof), w')
           /\ trace (chain w')
              = trace (chain w)
                ++ [StoreAPIRecord requestHash responseHash ipfsHash level])
  /\ (forall records visibility w,
         accepts_next w ->
         let block :=
           utf8_encode
             (stored_text (ipfs client) (encrypt_flag client) (draws w)
                (batch_archive_of records (reading w 0))) in
         exists w',
           batchRecord client records visibility w
           = (inl price_read_error, w')
           /\ message price_read_error
              = "this.proofRegistry.recordPrice is not a function"
           /\ trace (chain w') = trace (chain w)
           /\ blocks w' = <[cid_of block := block]> (blocks w)).
Proof.
  split; [|split].
  - intros fetchPromise options w r w' Hmanual Hrun.
    destruct (record_trace _ _ _ _ _ Hrun)
      as [Hnone|(_ & rh & sh & ih & Hanchor)].
    + left. exact Hnone.
    + right. do 4 eexists. exact Hanchor.
  - intros fetchPromise options w response Hmanual Hquiet Hcoop Hfetch.
    destruct (record_succeeds fetchPromise options w response
                Hmanual Hquiet Hcoop Hfetch) as (proof & w' & Hrun).
    exists proof, w'.
    destruct (record_inr _ _ _ _ _ _ Hrun)
      as (_ & _ & tx & confirmation & _ & _ & _ & _ & Htrace & _).
    do 4 eexists. split; [exact Hrun|exact Htrace].
  - intros records visibility w Hacc block.
    rewrite (batchRecord_accepted records visibility w Hacc).
    eexists. split; [reflexivity|]. split; [reflexivity|].
    destruct (wants _ _); split; reflexivity.
Qed.

(** C8, on the code.  No run of the batch path yields a receipt: on
    every list of records, visibility and world, [batchRecord] throws,
    and no batch token cost is ever stated.  The receipt of a single
    record states a cost of 10. *)
Theorem batch_path_yields_no_receipt :
  (forall records visibility w,
      exists e w', batchRecord client records visibility w = (inl e, w'))
  /\ (forall records visibility w receipt w',
         batchRecord client records visibility w <> (inr receipt, w'))
  /\ (forall fetchPromise options w response proof w',
         record client fetchPromise options w = (inr (response, proof), w') ->
         proofTokens proof = "10"
         /\ parseInt (proofTokens proof) = Some 10).
Proof.
  split; [|split].
  - intros records visibility w.
    destruct (batchRecord_throws records visibility w) as (e & w' & Hrun & _).
    exists e, w'. exact Hrun.
  - intros records visibility w receipt w' Hrun.
    destruct (batchRecord_throws records visibility w) as (e & w1 & Hthrow & _).
    rewrite Hthrow in Hrun. discriminate.
  - intros fetchPromise options w response proof w' Hrun.
    apply record_inr in Hrun as (_ & _ & tx & confirmation & _ & _ & -> & _).
    split; reflexivity.
Qed.

(** C9.  A single-record run whose options leave [visibility] out is the
    run with [visibility: PUBLIC]: on every world the two return the same
    outcome, response and receipt included, and leave the same world
    behind, ledger calls included; when the run succeeds, as it does with
    auto-approval off in a world where no call fails, the anchor
    transaction it submitted is its one ledger call and carries the code
    of [PUBLIC]. *)
Theorem visibility_defaults_to_public :
  forall fetchPromise m h b md sw,
    let unspecified :=
      {| method := m; headers := h; body := b; metadata := md;
         visibility := None; sharedWith := sw |} in
    let explicit :=
      {| method := m; headers := h; body := b; metadata := md;
         visibility := Some PUBLIC; sharedWith := sw |} in
    (forall w,
        record client fetchPromise unspecified w
        = record client fetchPromise explicit w)
    /\ (forall w response,
           config_autoApprove client = false -> quiet client ->
           cooperative w -> outcome fetchPromise = inr response ->
           exists proof w',
             record client fetchPromise unspecified w
             = (inr (response, proof), w'))
    /\ (forall w response proof w',
           record client fetchPromise unspecified w
           = (inr (response, proof), w') ->
           exists requestHash responseHash ipfsHash,
             trace (chain w')
             = trace (chain w)
               ++ [StoreAPIRecord requestHash responseHash ipfsHash
                     (visibility_code PUBLIC)]).
Proof.
  intros fetchPromise m h b md sw unspecified explicit. split; [|split].
  - intros w. reflexivity.
  - intros w response Hmanual Hquiet Hcoop Hfetch.
    apply record_succeeds; assumption.
  - intros w response proof w' Hrun.
    apply record_inr in Hrun
      as (_ & _ & tx & confirmation & _ & _ & _ & _ & Htrace & _).
    do 3 eexists. exact Htrace.
Qed.

End Recording.

Section RecordingExamples.
#[local] Existing Instance Reference.runtime.

Lemma world0_cooperative entries : cooperative (world0 entries).
Proof.
  split; [constructor|]. intros c. do 2 eexists. split; reflexivity.
Qed.


Lemma approval_step_of_pipelines_witness :
  config_autoApprove manual_client = false
  /\ (exists response proof w' anchor,
         record manual_client price_fetch no_options (world0 single_logs)
         = (inr (response, proof), w')
         /\ trace (chain w') = [anchor])
  /\ (exists w',
         batchRecord manual_client two_items None (world0 batch_logs)
         = (inl (Error "this.proofRegistry.recordPrice is not a function"), w')
         /\ trace (chain w') = []).
Proof.
  destruct (approval_step_of_pipelines manual_client)
    as (_ & Hsingle & Hbatch).
  split; [reflexivity|split].
  - destruct (Hsingle price_fetch no_options (world0 single_logs) _
                eq_refl I (world0_cooperative _) eq_refl)
      as (proof & w' & rh & sh & ih & lv & Hrun & Htrace).
    eexists. exists proof, w'. eexists. split; [exact Hrun|exact Htrace].
  - destruct (Hbatch two_items None (world0 batch_logs) I)
      as (w' & Hrun & _ & Htrace & _).
    exists w'. split; [exact Hrun|exact Htrace].
Defined.

Lemma batch_path_yields_no_receipt_witness :
  (exists e w',
      batchRecord default_client two_items (Some PRIVATE) (world0 batch_logs)
      = (inl e, w'))
  /\ (exists response proof w',
         record manual_client price_fetch no_options (world0 single_logs)
         = (inr (response, proof), w')
         /\ proofTokens proof = "10").
Proof.
  split.
  - destruct (batch_path_yields_no_receipt default_client) as (Hthrows & _).
    apply Hthrows.
  - destruct (batch_path_yields_no_receipt manual_client) as (_ & _ & Hcost).
    destruct (record_succeeds manual_client price_fetch no_options
                (world0 single_logs) _ eq_refl I (world0_cooperative _)
                eq_refl)
      as (proof & w' & Hrun).
    eexists. exists proof, w'. split; [exact Hrun|].
    apply (Hcost _ _ _ _ _ _ Hrun).
Defined.

Lemma visibility_defaults_to_public_witness :
  exists response proof w' requestHash responseHash ipfsHash,
    record manual_client price_fetch no_options (world0 single_logs)
    = (inr (response, proof), w')
    /\ trace (chain w')
       = [StoreAPIRecord requestHash responseHash ipfsHash 0].
Proof.
  destruct (visibility_defaults_to_public manual_client price_fetch
              None None None None None) as (_ & Hreturns & Hanchor).
  destruct (Hreturns (world0 single_logs) _ eq_refl I (world0_cooperative _)
              eq_refl)
    as (proof & w' & Hrun).
  destruct (Hanchor _ _ _ _ Hrun) as (rh & sh & ih & Htrace).
  eexists. exists proof, w', rh, sh, ih.
  split; [exact Hrun|exact Htrace].
Defined.

End RecordingExamples.

(** * Further properties *)

(** ** Patterns *)
Section PatternSemantics.
Import Middleware.

Lemma startsWith_prefix s p :
  startsWith s p = true <-> exists rest, s = p +:+ rest.
Proof.
  revert s. induction p as [|c p IH]; intros s.
  - split; [intros _; exists s; reflexivity|reflexivity].
  - destruct s as [|d s]; cbn [startsWith].
    + split; [discriminate|]. intros [rest Hrest]. discriminate.
    + rewrite andb_true_iff, IH. split.
      * intros [Hc [rest ->]]. apply Ascii.eqb_eq in Hc. subst d.
        exists rest. reflexivity.
      * intros [rest Hrest]. rewrite append_cons in Hrest.
        injection Hrest as -> ->. split; [apply Ascii.eqb_refl|].
        exists rest. reflexivity.
Qed.

Lemma eqb_startsWith s p : String.eqb s p = true -> startsWith s p = true.
Proof.
  intros Heq. apply String.eqb_eq in Heq. subst s.
  apply startsWith_prefix. exists "". induction p as [|c p IH]; [reflexivity|].
  rewrite append_cons, <- IH. reflexivity.
Qed.

(** X1.  A pattern without [*] is a prefix test: [matchPattern] always
    decides it, and it matches exactly the paths that start with the
    pattern; the test for equality adds nothing.  So "/health" also
    matches "/healthcheck", and the empty pattern matches every path. *)
Theorem plain_pattern_matches_extensions path pattern :
  includes_char pattern "*" = false ->
  is_Some (matchPattern path pattern)
  /\ (matchPattern path pattern = Some true
      <-> exists rest, path = pattern +:+ rest).
Proof.
  intros Hplain. unfold matchPattern. rewrite Hplain.
  split; [eexists; reflexivity|].
  rewrite <- startsWith_prefix. split.
  - intros [= Hm]. apply orb_true_iff in Hm as [Hm|Hm]; [|exact Hm].
    apply eqb_startsWith. exact Hm.
  - intros ->. rewrite orb_true_r. reflexivity.
Qed.

Lemma includes_char_app q c x :
  includes_char (q +:+ String c x) c = true.
Proof.
  induction q as [|d q IH].
  - change ("" +:+ String c x) with (String c x). cbn. rewrite Ascii.eqb_refl.
    reflexivity.
  - rewrite append_cons. cbn [includes_char]. rewrite IH. apply orb_true_r.
Qed.

Lemma replace_stars_literal q x :
  literal q = true -> replace_stars (q +:+ x) = q +:+ replace_stars x.
Proof.
  induction q as [|c q IH]; [reflexivity|]. cbn [literal].
  intros Hq. apply andb_true_iff in Hq as [Hc Hq].
  rewrite !append_cons. cbn [replace_stars]. rewrite (IH Hq).
  destruct (Ascii.eqb_spec c "*") as [->|]; [discriminate|reflexivity].
Qed.

Lemma parse_regex_plain c rest a :
  atom_of c = Some a -> startsWith rest "*" = false ->
  parse_regex (String c rest)
  = match parse_regex rest with
    | Some r => Some ((a, false) :: r)
    | None => None
    end.
Proof.
  intros Ha Hstar. cbn [parse_regex]. rewrite Ha.
  destruct rest as [|d rest']; [reflexivity|].
  destruct d as [[] [] [] [] [] [] [] []]; try reflexivity.
  cbn in Hstar. discriminate.
Qed.

Lemma atom_of_literal c :
  is_syntax_char c = false -> atom_of c = Some (Lit c).
Proof.
  intros Hc. unfold atom_of. rewrite Hc.
  destruct (Ascii.eqb_spec c ".") as [->|]; [discriminate|reflexivity].
Qed.

Lemma append_empty s : s +:+ "" = s.
Proof.
  induction s as [|c s IH]; [reflexivity|]. rewrite append_cons, IH.
  reflexivity.
Qed.

Lemma literal_head q t :
  literal q = true -> startsWith t "*" = false ->
  startsWith (q +:+ t) "*" = false.
Proof.
  destruct q as [|c q]; [intros _ Ht; exact Ht|]. cbn [literal]. intros Hq _.
  apply andb_true_iff in Hq as [Hc _]. rewrite append_cons. cbn.
  destruct (Ascii.eqb_spec c "*") as [->|]; [discriminate|reflexivity].
Qed.

(** The expression read from ordinary characters followed by [t] matches
    these characters, then what the expression of [t] matches. *)
Lemma parse_literal_prefix q t rt :
  literal q = true -> startsWith t "*" = false ->
  parse_regex t = Some rt ->
  exists r,
    parse_regex (q +:+ t) = Some r
    /\ forall s,
         regex_test r s = true
         <-> exists rest, s = q +:+ rest /\ regex_test rt rest = true.
Proof.
  intros Hq Ht Hrt. induction q as [|c q IH].
  - exists rt. split; [exact Hrt|]. intros s. split.
    + intros Hs. exists s. split; [reflexivity|exact Hs].
    + intros (rest & -> & Hrest). exact Hrest.
  - cbn [literal] in Hq. apply andb_true_iff in Hq as [Hc Hq].
    apply negb_true_iff in Hc.
    destruct (IH Hq) as (r & Hr & Htest).
    exists ((Lit c, false) :: r). rewrite append_cons. split.
    + rewrite (parse_regex_plain c _ (Lit c)); [rewrite Hr; reflexivity| |].
      * apply atom_of_literal. exact Hc.
      * apply literal_head; assumption.
    + intros s. destruct s as [|d s]; cbn [regex_test atom_matches].
      * split; [discriminate|]. intros (rest & Hrest & _). discriminate.
      * rewrite andb_true_iff, Htest. split.
        -- intros [Hd (rest & -> & Hrest)]. apply Ascii.eqb_eq in Hd. subst d.
           exists rest. split; [reflexivity|exact Hrest].
        -- intros (rest & Heq & Hrest). rewrite append_cons in Heq.
           injection Heq as -> ->. split; [apply Ascii.eqb_refl|].
           exists rest. split; [reflexivity|exact Hrest].
Qed.

(** A starred dot consumes any number of characters of one line. *)
Lemma regex_test_star r s :
  regex_test ((Dot, true) :: r) s = true
  <-> exists mid rest,
        s = mid +:+ rest /\ single_line mid = true /\ regex_test r rest = true.
Proof.
  induction s as [|c s IH].
  - cbn [regex_test]. rewrite orb_false_r. split.
    + intros Hr. exists "", "". repeat split. exact Hr.
    + intros (mid & rest & Heq & _ & Hr).
      destruct mid; [|discriminate].
      change ("" +:+ rest) with rest in Heq. subst rest. exact Hr.
  - change (regex_test ((Dot, true) :: r) (String c s))
      with (regex_test r (String c s)
            || (atom_matches Dot c && regex_test ((Dot, true) :: r) s)).
    rewrite orb_true_iff, andb_true_iff, IH. cbn [atom_matches]. split.
    + intros [Hr|[Hc (mid & rest & -> & Hmid & Hr)]].
      * exists "", (String c s). repeat split. exact Hr.
      * exists (String c mid), rest. rewrite append_cons. cbn [single_line].
        rewrite Hc, Hmid. repeat split. exact Hr.
    + intros (mid & rest & Heq & Hmid & Hr). destruct mid as [|d mid].
      * change ("" +:+ rest) with rest in Heq. subst rest. left. exact Hr.
      * rewrite append_cons in Heq. injection Heq as -> ->.
        cbn [single_line] in Hmid. apply andb_true_iff in Hmid as [Hd Hmid].
        right. split; [exact Hd|]. exists mid, rest. repeat split; assumption.
Qed.

(** X2.  A pattern made of ordinary characters with one [*] among them is
    anchored at both ends: it matches exactly the paths made of the
    characters before the [*], then any characters without a line
    terminator, then the characters after the [*], up to the end of the
    path. *)
Theorem single_wildcard_matches_between path before after :
  literal before = true -> literal after = true ->
  is_Some (matchPattern path (before +:+ "*" +:+ after))
  /\ (matchPattern path (before +:+ "*" +:+ after) = Some true
      <-> exists middle,
            path = before +:+ middle +:+ after /\ single_line middle = true).
Proof.
  intros Hbefore Hafter. unfold matchPattern.
  change ("*" +:+ after) with (String "*" after).
  rewrite includes_char_app, (replace_stars_literal _ _ Hbefore).
  assert (Hstars : replace_stars (String "*" after) = ".*" +:+ after).
  { cbn [replace_stars].
    rewrite Ascii.eqb_refl.
    rewrite <- (append_empty after) at 1.
    rewrite (replace_stars_literal _ _ Hafter), append_empty. reflexivity. }
  rewrite Hstars.
  destruct (parse_literal_prefix after "" [] Hafter eq_refl eq_refl)
    as (r2 & Hr2 & Htest2).
  rewrite append_empty in Hr2.
  assert (Hr1 : parse_regex (".*" +:+ after) = Some ((Dot, true) :: r2)).
  { change (".*" +:+ after) with (String "." (String "*" after)).
    cbn [parse_regex atom_of]. cbn. rewrite Hr2. reflexivity. }
  destruct (parse_literal_prefix before (".*" +:+ after) _ Hbefore eq_refl Hr1)
    as (r & -> & Htest).
  split; [eexists; reflexivity|].
  assert (Hiff : regex_test r path = true
                 <-> exists middle,
                       path = before +:+ middle +:+ after
                       /\ single_line middle = true).
  { rewrite Htest. split.
    - intros (rest & -> & Hrest). apply regex_test_star in Hrest
        as (mid & rest' & -> & Hmid & Hrest').
      apply Htest2 in Hrest' as (rest'' & -> & Hempty).
      destruct rest''; [|discriminate]. rewrite append_empty.
      exists mid. split; [reflexivity|exact Hmid].
    - intros (middle & -> & Hmid). exists (middle +:+ after).
      split; [reflexivity|]. apply regex_test_star.
      exists middle, after. split; [reflexivity|]. split; [exact Hmid|].
      apply Htest2. exists "". split; [rewrite append_empty|]; reflexivity. }
  rewrite <- Hiff. split; [intros [= Hm]; exact Hm|intros ->; reflexivity].
Qed.

Lemma first_match_exists path pats :
  decided path pats ->
  first_match path pats
  = Some (existsb (fun p => bool_decide (matchPattern path p = Some true)) pats).
Proof.
  unfold decided. induction 1 as [|p ps [b Hb] _ IH]; [reflexivity|].
  cbn [first_match existsb]. rewrite Hb. destruct b.
  - reflexivity.
  - rewrite IH. reflexivity.
Qed.

Lemma existsb_same {A} (f : A -> bool) (l l' : list A) :
  (forall x, In x l <-> In x l') -> existsb f l = existsb f l'.
Proof.
  intros Hsame. apply eq_true_iff_eq. rewrite !existsb_exists.
  split; intros (x & Hx & Hf); exists x; (split; [apply Hsame, Hx|exact Hf]).
Qed.

Lemma first_match_same path ps qs :
  same_patterns ps qs -> decided path ps ->
  first_match path ps = first_match path qs.
Proof.
  intros Hsame Hd.
  assert (Hd' : decided path qs).
  { unfold decided in *. rewrite Forall_forall in *. intros p Hp.
    apply Hd. apply list_elem_of_In, Hsame, list_elem_of_In, Hp. }
  rewrite !first_match_exists by assumption. f_equal.
  apply existsb_same. exact Hsame.
Qed.

(** X3.  The loops of [shouldRecord] stop at the first match, but their
    answer depends only on which patterns are configured: two
    configurations whose exclude lists hold the same patterns and whose
    include lists hold the same patterns, in whatever order and with
    whatever repetitions, answer alike on every path their patterns
    decide.  The batch settings play no part. *)
Theorem shouldRecord_order_irrelevant options options' path :
  same_configured (excludePatterns options) (excludePatterns options') ->
  same_configured (patterns options) (patterns options') ->
  decided_configured path (excludePatterns options) ->
  decided_configured path (patterns options) ->
  shouldRecord options path = shouldRecord options' path.
Proof.
  unfold shouldRecord, same_configured, decided_configured.
  intros Hsame_ex Hsame_ps Hd_ex Hd_ps.
  assert (Hinclude :
            match patterns options with
            | Some ps => first_match path ps
            | None => Some true
            end
            = match patterns options' with
              | Some ps => first_match path ps
              | None => Some true
              end).
  { destruct (patterns options) as [ps|], (patterns options') as [ps'|];
      try contradiction; [|reflexivity].
    apply first_match_same; assumption. }
  destruct (excludePatterns options) as [ex|],
    (excludePatterns options') as [ex'|]; try contradiction.
  - rewrite (first_match_same _ _ _ Hsame_ex Hd_ex), Hinclude. reflexivity.
  - exact Hinclude.
Qed.

End PatternSemantics.

Section PatternSemanticsExamples.
Import Middleware.

Lemma plain_pattern_matches_extensions_witness :
  matchPattern "/healthcheck" "/health" = Some true
  /\ matchPattern "/status" "" = Some true.
Proof.
  split.
  - destruct (plain_pattern_matches_extensions "/healthcheck" "/health" eq_refl)
      as [_ [_ Hmatch]].
    apply Hmatch. exists "check". reflexivity.
  - destruct (plain_pattern_matches_extensions "/status" "" eq_refl)
      as [_ [_ Hmatch]].
    apply Hmatch. exists "/status". reflexivity.
Defined.

Lemma single_wildcard_matches_between_witness :
  matchPattern "/api/users/7" "/api/*" = Some true
  /\ matchPattern "/api/7/details" "/api/*/details" = Some true
  /\ matchPattern "/api/7/details?full=1" "/api/*/details" <> Some true.
Proof.
  split; [|split].
  - destruct (single_wildcard_matches_between "/api/users/7" "/api/" ""
                eq_refl eq_refl) as [_ [_ Hmatch]].
    apply Hmatch. exists "users/7". split; reflexivity.
  - destruct (single_wildcard_matches_between "/api/7/details" "/api/"
                "/details" eq_refl eq_refl) as [_ [_ Hmatch]].
    apply Hmatch. exists "7". split; reflexivity.
  - vm_compute. discriminate.
Defined.

Lemma shouldRecord_order_irrelevant_witness :
  shouldRecord
    {| patterns := Some ["/v2"; "/api/*"];
       excludePatterns := Some ["/api/internal/*"; "/health"; "/health"];
       batchInterval := Some 1000; batchSize := None |} "/api/users"
  = shouldRecord
      {| patterns := Some ["/api/*"; "/v2"];
         excludePatterns := Some ["/health"; "/api/internal/*"];
         batchInterval := None; batchSize := Some 5 |} "/api/users".
Proof.
  apply shouldRecord_order_irrelevant.
  - intros p. cbn. tauto.
  - intros p. cbn. tauto.
  - repeat constructor; eexists; reflexivity.
  - repeat constructor; eexists; reflexivity.
Defined.

End PatternSemanticsExamples.

(** ** Bounds of the batch queue *)
Section QueueBounds.
Import Middleware.
Variable options : ProofMiddlewareOptions.

Lemma processBatch_within st :
  well_formed st -> queue st <> [] ->
  Z.of_nat (length (queue st)) <= Z.max 1 (sizeLimit options) ->
  Forall (fun b =>
            contents st b <> []
            /\ Z.of_nat (length (contents st b)) <= Z.max 1 (sizeLimit options))
    (flushed st) ->
  within_limit options (processBatch st).
Proof.
  intros (_ & Hall & _) Hne Hlen Hold.
  destruct (processBatch_flushes st Hne)
    as (Hq & _ & _ & _ & Hfl & _ & Hbatch & Hsame).
  unfold within_limit. rewrite Hq, Hfl. split; [cbn; lia|].
  apply Forall_app. split.
  - rewrite Forall_forall in *. intros b Hb.
    rewrite Hsame by (apply Hall, Hb). apply Hold, Hb.
  - constructor; [|constructor]. rewrite Hbatch. split; assumption.
Qed.

Lemma handle_within ev st :
  well_formed st -> within_limit options st ->
  within_limit options (handle options st ev).
Proof.
  intros Hwf [Hqueue Hold].
  destruct ev as [rq rs now| |b]; cbn [handle].
  - destruct (batching options); [|split; assumption].
    unfold addToBatch.
    set (e := {| request := rq; response := rs; captured := now |}).
    destruct (push_step e st Hwf) as (Hwf1 & _ & Hsame1 & Hfl1).
    assert (Hold1 : Forall (fun b =>
                contents (push (batchQueue st) e st) b <> []
                /\ Z.of_nat (length (contents (push (batchQueue st) e st) b))
                   <= Z.max 1 (sizeLimit options))
              (flushed (push (batchQueue st) e st))).
    { rewrite Hfl1. rewrite Forall_forall in *. intros b Hb.
      rewrite Hsame1 by exact Hb. apply Hold, Hb. }
    assert (Hlen1 : length (queue (push (batchQueue st) e st))
                    = S (length (queue st))).
    { rewrite queue_push, length_app. cbn. lia. }
    destruct (Z.geb_spec (Z.of_nat (length (queue (push (batchQueue st) e st))))
                (sizeLimit options)) as [Hge|Hlt].
    + apply processBatch_within; [exact Hwf1| |lia|exact Hold1].
      rewrite queue_push. destruct (queue st); discriminate.
    + split; [lia|exact Hold1].
  - destruct (batchTimer st); [|split; assumption].
    unfold timerCallback.
    destruct (queue st) as [|e q] eqn:Hq; cbn [length Nat.ltb Nat.leb];
      [split; [rewrite Hq|]; assumption|].
    apply processBatch_within; [exact Hwf|rewrite Hq; discriminate| |exact Hold].
    rewrite Hq. lia.
  - split; assumption.
Qed.

Lemma run_within evs : forall st,
  well_formed st -> within_limit options st ->
  within_limit options (run options st evs).
Proof.
  induction evs as [|ev evs IH]; intros st Hwf Hin; [exact Hin|].
  cbn [run fold_left]. apply IH.
  - apply (handle_step options ev st Hwf).
  - apply handle_within; assumption.
Qed.

Lemma create_within : within_limit options (create options).
Proof.
  destruct (create_empty options) as [Hq Hf].
  unfold within_limit. rewrite Hq, Hf. split; [cbn; lia|constructor].
Qed.

(** X4.  Between two turns of the event loop the queue of a middleware
    holds fewer entries than the size limit ([batchSize], 100 when it is
    not set; at least one entry fits, whatever the limit): [addToBatch]
    flushes within the turn that reaches the limit. *)
Theorem queue_below_size_limit evs :
  Z.of_nat (length (queue (run options (create options) evs)))
  < Z.max 1 (sizeLimit options).
Proof.
  apply (run_within evs _ (create_well_formed options) create_within).
Qed.

(** X5.  No batch handed to [client.batchRecord] is empty, and none holds
    more entries than the size limit: both [addToBatch] and the timer
    flush a queue that has an entry, and the queue never grows past the
    limit. *)
Theorem batches_within_size_limit evs b :
  b ∈ flushed (run options (create options) evs) ->
  let batch := contents (run options (create options) evs) b in
  batch <> [] /\ Z.of_nat (length batch) <= Z.max 1 (sizeLimit options).
Proof.
  intros Hb. cbn zeta.
  destruct (run_within evs _ (create_well_formed options) create_within)
    as [_ Hall].
  rewrite Forall_forall in Hall. apply Hall, Hb.
Qed.

End QueueBounds.

Section QueueBoundsExamples.
Import Middleware.

Lemma batches_within_size_limit_witness :
  let st := run batching_options (create batching_options)
              [ping 1; ping 2; ping 3; TimerFires; ping 4] in
  flushed st = [1%nat; 3%nat]
  /\ length (contents st 1%nat) = 2%nat
  /\ length (contents st 3%nat) = 1%nat
  /\ Z.of_nat (length (contents st 3%nat)) <= 2.
Proof.
  intros st.
  split; [reflexivity|]. split; [reflexivity|]. split; [reflexivity|].
  apply (batches_within_size_limit batching_options
           [ping 1; ping 2; ping 3; TimerFires; ping 4] 3%nat).
  vm_compute. apply list_elem_of_further, list_elem_of_here.
Defined.

End QueueBoundsExamples.

(** ** Archive adapter: edges and failures *)
Section ArchiveEdges.
Context `{Runtime}.
Variable service : IPFSService.

Lemma startsWith_shorter s p q :
  startsWith s (p +:+ q) = true -> startsWith s p = true.
Proof.
  revert s. induction p as [|c p IH]; intros s; [reflexivity|].
  rewrite append_cons. cbn [startsWith]. destruct s as [|d s]; [discriminate|].
  intros Hs. apply andb_true_iff in Hs as [Hd Hs].
  rewrite Hd. cbn. apply IH. exact Hs.
Qed.

Lemma startsWith_longer s p q :
  startsWith s p = false -> startsWith s (p +:+ q) = false.
Proof.
  intros Hp. destruct (startsWith s (p +:+ q)) eqn:Hpq; [|reflexivity].
  apply startsWith_shorter in Hpq. congruence.
Qed.

(** [decrypt] leaves a text without marker alone. *)
Lemma decrypt_unmarked content w :
  truthy_str (ENCRYPTION_KEY service) = true ->
  startsWith content "ENCRYPTED" = false ->
  decrypt service content w = (inr content, w).
Proof.
  intros Hkey Hmark. unfold decrypt. rewrite Hkey. cbn [negb].
  pose proof (startsWith_longer content "ENCRYPTED" ":" Hmark) as Hlegacy.
  pose proof (startsWith_longer content "ENCRYPTED" "_V2:" Hmark) as Hsealed.
  change ("ENCRYPTED" +:+ ":") with "ENCRYPTED:" in Hlegacy.
  change ("ENCRYPTED" +:+ "_V2:") with "ENCRYPTED_V2:" in Hsealed.
  rewrite Hlegacy, Hsealed. reflexivity.
Qed.

(** X6.  Without encryption what [upload] stores is the payload text,
    and [retrieve] gives back what [JSON.parse] makes of it, or the text
    itself: the payload, for every payload that reads back.  Asking
    [retrieve] to decrypt changes nothing as long as the text does not
    start with the marker of encrypted content. *)
Theorem plain_roundtrip data encrypt_option decrypt_option w :
  wants service encrypt_option = false ->
  accepts_next w ->
  (wants service decrypt_option = true ->
   startsWith (content_of data) "ENCRYPTED" = false) ->
  exists result w',
    upload service data encrypt_option w = (inr result, w')
    /\ blocks w' !! cid result = Some (utf8_encode (content_of data))
    /\ retrieve service (cid result) decrypt_option w'
       = (inr (parsed_or_text (content_of data)), w')
    /\ (reads_back data ->
        retrieve service (cid result) decrypt_option w' = (inr data, w')).
Proof.
  intros Hplain Hacc Hmark. do 2 eexists.
  split; [apply upload_plain; assumption|].
  cbn [cid]. set (block := utf8_encode (content_of data)).
  set (w' := with_ticks _ _).
  assert (Hblock : blocks w' !! cid_of block = Some block)
    by apply lookup_insert_eq.
  assert (Hget : retrieve service (cid_of block) decrypt_option w'
                 = (inr (parsed_or_text (content_of data)), w')).
  { unfold retrieve, try_catch, bind, client_cat. rewrite Hblock.
    subst block. rewrite utf8_decode_encode.
    destruct (wants service decrypt_option) eqn:Hwants; [|reflexivity].
    rewrite decrypt_unmarked; [reflexivity| |apply Hmark; reflexivity].
    unfold wants in Hwants. destruct decrypt_option as [[]|]; try discriminate.
    exact Hwants. }
  split; [exact Hblock|]. split; [exact Hget|].
  intros Hr. rewrite Hget, (reads_back_parsed _ Hr). reflexivity.
Qed.

(** X7.  Content in the legacy format, the marker [ENCRYPTED:] followed
    by the Base64 text of the payload text, is still read: with a key
    configured, [retrieve] with [decrypt = true] decodes it and returns
    what [JSON.parse] makes of the payload text.  The key itself is not
    used. *)
Theorem retrieve_legacy_text c text w :
  truthy_str (ENCRYPTION_KEY service) = true ->
  blocks w !! c
  = Some (utf8_encode ("ENCRYPTED:" +:+ base64_encode (utf8_encode text))) ->
  retrieve service c (Some true) w = (inr (parsed_or_text text), w).
Proof.
  intros Hkey Hblock. unfold retrieve, try_catch, bind, client_cat, wants.
  rewrite Hblock, Hkey, utf8_decode_encode.
  unfold decrypt. rewrite Hkey. cbn [negb].
  rewrite startsWith_app, remove_first_prefix by discriminate.
  rewrite base64_decode_encode, utf8_decode_encode. reflexivity.
Qed.

(** X8.  Without an encryption key [retrieve] never calls [decrypt],
    whose configuration error is then unreachable: whatever the
    [decrypt] option, it returns what [JSON.parse] makes of the stored
    text, the sealed text as a string when the content is encrypted, and
    no error. *)
Theorem retrieve_without_key_returns_stored_text c flag w :
  truthy_str (ENCRYPTION_KEY service) = false ->
  retrieve service c flag w = retrieve service c None w
  /\ (forall block,
         blocks w !! c = Some block ->
         retrieve service c flag w = (inr (parsed_or_text (utf8_decode block)), w))
  /\ (forall content w0, exists e, decrypt service content w0 = (inl e, w0)).
Proof.
  intros Hkey.
  assert (Hwants : wants service flag = false).
  { unfold wants. rewrite Hkey. destruct flag as [[]|]; reflexivity. }
  split; [|split].
  - unfold retrieve. rewrite Hwants. reflexivity.
  - intros block Hblock. unfold retrieve, try_catch, bind, client_cat.
    rewrite Hblock, Hwants. reflexivity.
  - intros content w0. unfold decrypt. rewrite Hkey. eexists. reflexivity.
Qed.

(** X9.  [upload] fails only when the node refuses the block.  The error
    it throws then is a new [Error] whose message starts with "Failed to
    upload to IPFS: ": the code of the original error is lost.  Nothing
    is stored, and the ledger and the callback are not touched. *)
Theorem upload_failure_stores_nothing data flag w e w' :
  upload service data flag w = (inl e, w') ->
  ~ accepts_next w
  /\ code e = None
  /\ startsWith (message e) "Failed to upload to IPFS: " = true
  /\ blocks w' = blocks w /\ chain w' = chain w /\ delivered w' = delivered w.
Proof.
  intros Hrun. destruct (accepts_or_refuses w) as [Hacc|[fs Hfs]].
  - rewrite upload_accepted in Hrun by exact Hacc. discriminate.
  - rewrite (upload_refused _ _ _ _ _ Hfs) in Hrun.
    injection Hrun as <- <-. split.
    + unfold accepts_next. rewrite Hfs. auto.
    + split; [reflexivity|]. split; [reflexivity|].
      destruct (wants service flag); repeat split.
Qed.

(** X10.  For a time within the range of a [Date],
    [createCertificate] uploads the certificate page as it is, whether
    or not an encryption key is configured: the page carries the ISO
    text of the time and that of the date of generation, the block
    stored under the returned CID is the page, and the URL returned is
    the gateway URL followed by the CID.  For a time outside that range,
    [toISOString] throws a [RangeError] while the page is rendered, and
    nothing is uploaded. *)
Theorem createCertificate_stores_page recordId transactionHash time requestUrl
    responseStatus network w :
  (valid_time time = true ->
   accepts_next w ->
   let page :=
     certificate_html network recordId transactionHash (toISOString time)
       requestUrl responseStatus (toISOString (reading w 0)) in
   exists result w',
     createCertificate service recordId transactionHash time requestUrl
       responseStatus network w = (inr result, w')
     /\ cid result = cid_of (utf8_encode page)
     /\ IPFS.url result = gatewayUrl service +:+ cid result
     /\ timestamp result = reading w 1
     /\ blocks w' = <[cid result := utf8_encode page]> (blocks w)
     /\ draws w' = draws w)
  /\ (valid_time time = false ->
      createCertificate service recordId transactionHash time requestUrl
        responseStatus network w
      = (inl {| code := None; message := "Invalid time value" |}, w)).
Proof.
  split.
  - intros Hvalid Hacc page.
    rewrite createCertificate_run by exact Hvalid. fold page.
    rewrite (upload_plain service (JStr page) (Some false)
               (with_ticks (S (ticks w)) w) eq_refl Hacc).
    do 2 eexists. split; [reflexivity|]. cbn [cid IPFS.url content_of].
    repeat split; reflexivity.
  - intros Hinvalid. unfold createCertificate, bind, lift, date_toISOString.
    rewrite Hinvalid. reflexivity.
Qed.

(** What [isAvailable] answers. *)
Lemma isAvailable_answer c w :
  isAvailable c w
  = (inr match blocks w !! c with
         | Some (_ :: _) => true
         | _ => false
         end, w).
Proof.
  unfold isAvailable, client_cat_first, try_catch, bind, client_cat, ret.
  destruct (blocks w !! c) as [[|b content]|]; reflexivity.
Qed.

(** X11.  [isAvailable] never throws and leaves the world as it is.  It
    answers true exactly when the node holds a block under the CID and
    the block has a first byte: an unknown CID and an empty block both
    give false. *)
Theorem isAvailable_iff_block_not_empty c w :
  exists answer,
    isAvailable c w = (inr answer, w)
    /\ (answer = true
        <-> exists content, blocks w !! c = Some content /\ content <> []).
Proof.
  rewrite isAvailable_answer. eexists. split; [reflexivity|].
  destruct (blocks w !! c) as [[|b content]|]; split;
    try discriminate; try reflexivity.
  - intros (content & [= <-] & Hne). congruence.
  - intros _. eexists. split; [reflexivity|discriminate].
  - intros (content & Hnone & _). discriminate.
Qed.

(** X12.  When [files.stat] fails, [getSize] reads the content instead:
    for the CID of an upload it returns the number of bytes of the text
    that was stored.  When the content cannot be read either, the error
    it throws carries the message of the [files.stat] failure. *)
Theorem getSize_falls_back_to_content stat data flag w result w' error :
  upload service data flag w = (inr result, w') ->
  stat ("/ipfs/" +:+ cid result) = inl error ->
  getSize stat (cid result) w'
  = (inr (Z.of_nat (length (utf8_encode (stored_text service flag (draws w) data)))),
     w')
  /\ forall c, blocks w' !! c = None ->
       stat ("/ipfs/" +:+ c) = inl error ->
       getSize stat c w'
       = (inl (Error ("Failed to get size: " +:+ message error)), w').
Proof.
  intros Hup Hstat. split.
  - destruct (accepts_or_refuses w) as [Hacc|[fs Hfs]].
    + rewrite upload_accepted in Hup by exact Hacc.
      injection Hup as <- <-. cbn [cid].
      unfold getSize, try_catch, bind, lift, client_cat. cbn [cid] in Hstat.
      rewrite Hstat. cbn [blocks with_blocks with_ticks].
      rewrite lookup_insert_eq.
      reflexivity.
    + rewrite (upload_refused _ _ _ _ _ Hfs) in Hup. discriminate.
  - intros c Hnone Hstat'.
    unfold getSize, try_catch, bind, lift, client_cat.
    rewrite Hstat', Hnone. reflexivity.
Qed.


(** X13.  [uploadBatch] returns exactly when none of the [add] calls for
    its records fails, one call per record; on an empty list it returns
    the empty list and calls nothing. *)
Theorem uploadBatch_returns_iff_no_fault records w :
  ((exists rs w', uploadBatch service records w = (inr rs, w'))
   <-> Forall (fun fault => fault = false) (take (length records) (faults w)))
  /\ uploadBatch service [] w = (inr [], w).
Proof.
  split.
  - unfold uploadBatch. rewrite uploadBatch_loop_returns, Nat.sub_0_r.
    reflexivity.
  - unfold uploadBatch. simp uploadBatch_loop. reflexivity.
Qed.

(** A stored block read back without decryption. *)
Lemma retrieve_stored c block w :
  blocks w !! c = Some block ->
  retrieve service c None w = (inr (parsed_or_text (utf8_decode block)), w).
Proof.
  intros Hblock. unfold retrieve, try_catch, bind, client_cat.
  rewrite Hblock. reflexivity.
Qed.

End ArchiveEdges.

Section ArchiveEdgesExamples.
#[local] Existing Instance Reference.runtime.

Lemma plain_roundtrip_witness :
  exists result w',
    upload keyed card None (world0 []) = (inr result, w')
    /\ retrieve keyed (cid result) (Some true) w' = (inr card, w').
Proof.
  destruct (plain_roundtrip keyed card None (Some true) (world0 []))
    as (result & w' & Hup & _ & _ & Hback).
  - reflexivity.
  - exact I.
  - intros _. reflexivity.
  - exists result, w'. split; [exact Hup|]. apply Hback. vm_compute. reflexivity.
Defined.

Lemma retrieve_legacy_text_witness :
  let w :=
    with_blocks
      <["bafklegacy"
        := utf8_encode ("ENCRYPTED:" +:+ base64_encode (utf8_encode "[7]"))]>
      (world0 []) in
  base64_encode (utf8_encode "[7]") = "Wzdd"
  /\ retrieve keyed "bafklegacy" (Some true) w = (inr (JArr [JNum 7]), w).
Proof.
  intros w. split; [reflexivity|].
  rewrite (retrieve_legacy_text keyed "bafklegacy" "[7]" w).
  - reflexivity.
  - reflexivity.
  - subst w. cbn [blocks with_blocks]. apply lookup_insert_eq.
Defined.

Lemma retrieve_without_key_returns_stored_text_witness :
  retrieve keyless "bafksealed" (Some true)
    (with_blocks <["bafksealed" := utf8_encode "ENCRYPTED_V2:AAAA"]> (world0 []))
  = (inr (JStr "ENCRYPTED_V2:AAAA"),
     with_blocks <["bafksealed" := utf8_encode "ENCRYPTED_V2:AAAA"]> (world0 [])).
Proof.
  destruct (retrieve_without_key_returns_stored_text keyless "bafksealed"
              (Some true)
              (with_blocks <["bafksealed" := utf8_encode "ENCRYPTED_V2:AAAA"]>
                 (world0 [])) eq_refl)
    as (_ & Hstored & _).
  rewrite (Hstored (utf8_encode "ENCRYPTED_V2:AAAA")).
  - reflexivity.
  - cbn [blocks with_blocks]. apply lookup_insert_eq.
Defined.

Lemma upload_failure_stores_nothing_witness :
  exists e w',
    upload keyed card (Some true) (flaky [true]) = (inl e, w')
    /\ code e = None /\ blocks w' = ∅.
Proof.
  destruct (upload keyed card (Some true) (flaky [true])) as [[e|r] w'] eqn:Hrun.
  - destruct (upload_failure_stores_nothing keyed card (Some true) _ e w' Hrun)
      as (_ & Hcode & _ & Hblocks & _).
    exists e, w'. split; [reflexivity|]. split; [exact Hcode|exact Hblocks].
  - rewrite (upload_refused keyed card (Some true) (flaky [true]) [] eq_refl) in Hrun.
    discriminate.
Defined.

Lemma createCertificate_stores_page_witness :
  (exists result w',
      createCertificate keyed "0xrecord1" "0xtx" 1700000000000
        "https://api.example.com/price" 200 "amoy" (world0 [])
      = (inr result, w')
      /\ timestamp result = 1700000000040
      /\ blocks w' !! cid result
         = Some (utf8_encode
                   (certificate_html "amoy" "0xrecord1" "0xtx"
                      "2023-11-14T22:13:20.000Z"
                      "https://api.example.com/price" 200
                      "2023-11-14T22:13:20.000Z")))
  /\ createCertificate keyed "0xrecord1" "0xtx" 8640000000000001
       "https://api.example.com/price" 200 "amoy" (world0 [])
     = (inl {| code := None; message := "Invalid time value" |}, world0 []).
Proof.
  split.
  - destruct (createCertificate_stores_page keyed "0xrecord1" "0xtx"
                1700000000000 "https://api.example.com/price" 200 "amoy"
                (world0 [])) as [Hvalid _].
    destruct (Hvalid eq_refl I)
      as (result & w' & Hrun & Hcid & _ & Htime & Hblocks & _).
    exists result, w'. split; [exact Hrun|]. split; [exact Htime|].
    rewrite Hblocks, lookup_insert_eq. reflexivity.
  - destruct (createCertificate_stores_page keyed "0xrecord1" "0xtx"
                8640000000000001 "https://api.example.com/price" 200 "amoy"
                (world0 [])) as [_ Hinvalid].
    exact (Hinvalid eq_refl).
Defined.

Lemma isAvailable_iff_block_not_empty_witness :
  exists result w',
    upload keyless (JStr "") None (world0 []) = (inr result, w')
    /\ isAvailable (cid result) w' = (inr false, w')
    /\ isAvailable "bafkmissing" w' = (inr false, w').
Proof.
  do 2 eexists. split; [apply upload_plain; [reflexivity|exact I]|].
  cbn [cid]. split.
  - match goal with
    | |- isAvailable ?c ?w = _ =>
        destruct (isAvailable_iff_block_not_empty c w) as (answer & -> & Hiff)
    end.
    destruct answer; [|reflexivity].
    destruct Hiff as [Hsome _]. destruct (Hsome eq_refl) as (content & Hblock & Hne).
    exfalso. apply Hne. cbn [blocks with_blocks with_ticks] in Hblock.
    rewrite lookup_insert_eq in Hblock. injection Hblock as <-. reflexivity.
  - match goal with
    | |- isAvailable ?c ?w = _ =>
        destruct (isAvailable_iff_block_not_empty c w) as (answer & -> & Hiff)
    end.
    destruct answer; [|reflexivity].
    destruct Hiff as [Hsome _]. destruct (Hsome eq_refl) as (content & Hblock & _).
    exfalso. vm_compute in Hblock. discriminate.
Defined.

Lemma getSize_falls_back_to_content_witness :
  exists result w' n,
    upload keyless (JStr "hello") None (world0 []) = (inr result, w')
    /\ getSize (fun _ => inl (Error "file does not exist")) (cid result) w'
       = (inr n, w')
    /\ n = 5.
Proof.
  destruct (upload_succeeds keyless (JStr "hello") None (world0 []) I)
    as (result & w' & Hup & _).
  destruct (getSize_falls_back_to_content keyless
              (fun _ => inl (Error "file does not exist"))
              (JStr "hello") None (world0 []) result w'
              (Error "file does not exist") Hup eq_refl) as [Hsize _].
  exists result, w'. eexists. split; [exact Hup|]. split; [exact Hsize|].
  reflexivity.
Defined.

Lemma uploadBatch_returns_iff_no_fault_witness :
  (exists rs w', uploadBatch keyless seven (flaky [false; false; false]) = (inr rs, w'))
  /\ ~ (exists rs w',
          uploadBatch keyless seven
            (flaky [false; false; false; false; false; false; true])
          = (inr rs, w')).
Proof.
  split.
  - apply (uploadBatch_returns_iff_no_fault keyless seven
             (flaky [false; false; false])).
    repeat constructor.
  - intros Hreturns.
    apply (uploadBatch_returns_iff_no_fault keyless seven
             (flaky [false; false; false; false; false; false; true]))
      in Hreturns.
    rewrite Forall_forall in Hreturns.
    assert (Hlast : true = false); [|discriminate].
    apply Hreturns. cbn. do 6 apply list_elem_of_further.
    apply list_elem_of_here.
Defined.

End ArchiveEdgesExamples.

(** ** Recording orchestrator: failures and what is left behind *)
Section RecordingEdges.
Context `{Runtime}.
Variable client : ProofClient.

Lemma run_eq {A} (r r' : js_error + A) (w w' : world) :
  (r, w) = (r', w') -> r = r' /\ w = w'.
Proof. intros [= -> ->]. split; reflexivity. Qed.

(** With auto-approval off, a node that accepts and a ledger that
    confirms, [record] gets as far as the callback once the fetch has
    resolved: it returns the receipt when there is no callback or the
    callback returns, and throws what [handleError] makes of the
    callback's error when the callback throws. *)
Lemma record_completes fetchPromise options w response :
  config_autoApprove client = false -> cooperative w ->
  outcome fetchPromise = inr response ->
  exists proof w',
    delivered w'
    = delivered w
      ++ match onRecord (config client) with
         | Some _ => [recordId proof]
         | None => []
         end
    /\ record client fetchPromise options w
       = (match onRecord (config client) with
          | Some callback =>
              match callback proof with
              | Some error => inl (handleError error)
              | None => inr (response, proof)
              end
          | None => inr (response, proof)
          end, w').
Proof.
  intros Hmanual [Hrel Hconfirms] Hfetch.
  rewrite (record_run _ _ _ _ _ Hfetch). cbn zeta.
  rewrite upload_accepted by (apply reliable_accepts; exact Hrel).
  rewrite Hmanual.
  assert (Hchain :
            chain (if wants (ipfs client) (encrypt_flag client)
                   then with_draws (S (draws w))
                          (with_ticks (S (S (ticks w))) w)
                   else with_ticks (S (S (ticks w))) w) = chain w).
  { destruct (wants _ _); reflexivity. }
  cbn [cid ticks with_ticks draws faults chain with_blocks with_faults].
  rewrite Hchain.
  match goal with
  | |- context [submit (chain w) ?c] =>
      destruct (Hconfirms c) as (tx & receipt & Hsubmit & Hwait)
  end.
  rewrite Hsubmit, Hwait.
  rewrite createCertificate_run by apply reading_valid.
  rewrite upload_accepted.
  2:{ apply (accepts_of_faults _ (tail (faults w))).
      - destruct (wants _ _); reflexivity.
      - apply Forall_tail. exact Hrel. }
  match goal with
  | |- context [receipt_of client tx receipt ?t ?c ?a] =>
      exists (receipt_of client tx receipt t c a)
  end.
  destruct (onRecord (config client)) as [callback|].
  - eexists. split; [|destruct (callback _); reflexivity].
    destruct (wants _ _); reflexivity.
  - eexists. split; [|reflexivity].
    destruct (wants _ _); cbn; rewrite app_nil_r; reflexivity.
Qed.

(** A run of [record] that throws: either the callback did not run, and
    once the fetch had resolved and the node had accepted the archive the
    archive is the one new block; or the callback ran on the receipt of
    an anchored record and threw, and the archive and the certificate
    page are the two new blocks. *)
Lemma record_inl fetchPromise options w e w' :
  record client fetchPromise options w = (inl e, w') ->
  (delivered w' = delivered w
   /\ (forall error, outcome fetchPromise = inl error ->
          blocks w' = blocks w /\ faults w' = faults w)
   /\ (forall response,
          outcome fetchPromise = inr response -> accepts_next w ->
          let block :=
            utf8_encode
              (stored_text (ipfs client) (encrypt_flag client) (draws w)
                 (archive_of response options (reading w 0) (reading w 1))) in
          blocks w' = <[cid_of block := block]> (blocks w)))
  \/ (exists response callback proof cause,
         outcome fetchPromise = inr response
         /\ onRecord (config client) = Some callback
         /\ callback proof = Some cause
         /\ e = handleError cause
         /\ delivered w' = delivered w ++ [recordId proof]
         /\ (exists anchor, trace (chain w') = trace (chain w) ++ [anchor])
         /\ let block :=
              utf8_encode
                (stored_text (ipfs client) (encrypt_flag client) (draws w)
                   (archive_of response options (reading w 0) (reading w 1))) in
            let page :=
              utf8_encode
                (certificate_page client (recordId proof)
                   (transactionHash proof) (reading w 0) response
                   (reading w 3)) in
            blocks w'
            = <[cid_of page := page]> (<[cid_of block := block]> (blocks w))).
Proof.
  intros Hrun.
  destruct (outcome fetchPromise) as [error|response] eqn:Hfetch.
  { rewrite (record_rejected _ _ _ _ _ Hfetch) in Hrun.
    apply run_eq in Hrun as [_ <-]. left. split; [reflexivity|].
    split; [intros _ _; split; reflexivity|intros ? [=]]. }
  rewrite (record_run _ _ _ _ _ Hfetch) in Hrun. cbn zeta in Hrun.
  destruct (upload _ _ _ _) as [[e1|archive] w1] eqn:Harchive.
  { apply upload_inl in Harchive as (fs & Hfs & _ & ->).
    apply run_eq in Hrun as [_ <-]. left.
    split; [destruct (wants _ _); reflexivity|].
    split; [intros ? [=]|].
    intros response0 _ Hacc. exfalso. unfold accepts_next in Hacc.
    cbn in Hfs. rewrite Hfs in Hacc. exact Hacc. }
  apply upload_inr in Harchive as (_ & -> & ->).
  cbn [cid ticks with_ticks draws faults chain with_blocks with_faults] in Hrun.
  assert (Hchain :
            chain (if wants (ipfs client) (encrypt_flag client)
                   then with_draws (S (draws w))
                          (with_ticks (S (S (ticks w))) w)
                   else with_ticks (S (S (ticks w))) w) = chain w).
  { destruct (wants _ _); reflexivity. }
  rewrite Hchain in Hrun.
  destruct (config_autoApprove client).
  { apply run_eq in Hrun as [_ <-]. left.
    split; [destruct (wants _ _); reflexivity|].
    split; [intros ? [=]|].
    intros response0 [= <-] _. destruct (wants _ _); reflexivity. }
  destruct (submit _ _) as [e1|tx] eqn:Hsubmit.
  { apply run_eq in Hrun as [_ <-]. left.
    split; [destruct (wants _ _); reflexivity|].
    split; [intros ? [=]|].
    intros response0 [= <-] _. destruct (wants _ _); reflexivity. }
  destruct (wait tx) as [e1|receipt] eqn:Hwait.
  { apply run_eq in Hrun as [_ <-]. left.
    split; [destruct (wants _ _); reflexivity|].
    split; [intros ? [=]|].
    intros response0 [= <-] _. destruct (wants _ _); reflexivity. }
  rewrite createCertificate_run in Hrun by apply reading_valid.
  destruct (upload _ _ _ _) as [[e1|certificate] w4] eqn:Hpage.
  { apply upload_inl in Hpage as (fs & _ & _ & ->).
    apply run_eq in Hrun as [_ <-]. left.
    split; [destruct (wants _ _); reflexivity|].
    split; [intros ? [=]|].
    intros response0 [= <-] _. destruct (wants _ _); reflexivity. }
  apply upload_inr in Hpage as (_ & -> & ->).
  destruct (onRecord (config client)) as [callback|]; [|discriminate].
  destruct (callback _) as [cause|] eqn:Hcallback; [|discriminate].
  apply run_eq in Hrun as [He <-]. injection He as <-. right.
  exists response, callback. do 2 eexists.
  split; [reflexivity|]. split; [reflexivity|]. split; [exact Hcallback|].
  split; [reflexivity|].
  destruct (wants _ _);
    (split; [reflexivity|]); (split; [eexists; reflexivity|]); reflexivity.
Qed.

(** X14.  When the fetch promise rejects, [record] rejects with the
    error [handleError] makes of the rejection, and nothing else happened:
    no block was stored, no call reached the ledger, the callback did
    not run. *)
Theorem rejected_fetch_is_not_recorded fetchPromise options w error :
  outcome fetchPromise = inl error ->
  exists w',
    record client fetchPromise options w = (inl (handleError error), w')
    /\ blocks w' = blocks w /\ faults w' = faults w
    /\ trace (chain w') = trace (chain w)
    /\ delivered w' = delivered w.
Proof.
  intros Hfetch. eexists. split; [apply record_rejected; exact Hfetch|].
  repeat split.
Qed.

(** X15.  Nothing is taken back when a pipeline fails after its upload.
    Once the fetch resolved and the node accepted the archive, a run of
    [record] that fails at a step of the pipeline leaves exactly one new
    block in the node: the archive of the exchange, sealed when
    encryption applies.  When it is the callback that throws, on the
    receipt of a record that is anchored by then, the certificate page
    is in the node as well.  A run of [batchRecord], which always fails,
    leaves the archive of the batch. *)
Theorem failed_run_keeps_archive :
  (forall fetchPromise options w response e w',
      outcome fetchPromise = inr response -> accepts_next w ->
      record client fetchPromise options w = (inl e, w') ->
      let block :=
        utf8_encode
          (stored_text (ipfs client) (encrypt_flag client) (draws w)
             (archive_of response options (reading w 0) (reading w 1))) in
      (delivered w' = delivered w
       /\ blocks w' = <[cid_of block := block]> (blocks w))
      \/ (exists callback proof cause,
             onRecord (config client) = Some callback
             /\ callback proof = Some cause
             /\ e = handleError cause
             /\ delivered w' = delivered w ++ [recordId proof]
             /\ let page :=
                  utf8_encode
                    (certificate_page client (recordId proof)
                       (transactionHash proof) (reading w 0) response
                       (reading w 3)) in
                blocks w'
                = <[cid_of page := page]>
                    (<[cid_of block := block]> (blocks w))))
  /\ (forall records visibility w,
         accepts_next w ->
         let block :=
           utf8_encode
             (stored_text (ipfs client) (encrypt_flag client) (draws w)
                (batch_archive_of records (reading w 0))) in
         exists e w',
           batchRecord client records visibility w = (inl e, w')
           /\ blocks w' = <[cid_of block := block]> (blocks w)).
Proof.
  split.
  - intros fetchPromise options w response e w' Hfetch Hacc Hrun. cbn zeta.
    apply record_inl in Hrun
      as [(Hdel & _ & Hblocks)
         |(response0 & callback & proof & cause & Hfetch0 & Hcallback & Hthrows
           & He & Hdel & _ & Hblocks)].
    + left. split; [exact Hdel|]. apply Hblocks; assumption.
    + right. exists callback, proof, cause.
      rewrite Hfetch in Hfetch0. injection Hfetch0 as <-.
      repeat split; assumption.
  - intros records visibility w Hacc block.
    rewrite (batchRecord_accepted _ records visibility w Hacc).
    do 2 eexists. split; [reflexivity|].
    destruct (wants _ _); reflexivity.
Qed.

(** X16.  [record] can reject although the record is anchored.  With
    auto-approval off, when the ledger confirms and the node accepts the
    archive but refuses the certificate page, the anchor transaction is
    the one call on the ledger and was confirmed, yet [record] rejects
    with the upload error; the callback does not run, and the archive is
    the one new block. *)
Theorem certificate_failure_after_anchor fetchPromise options w response fs :
  config_autoApprove client = false ->
  outcome fetchPromise = inr response ->
  confirms (chain w) ->
  faults w = false :: true :: fs ->
  let block :=
    utf8_encode
      (stored_text (ipfs client) (encrypt_flag client) (draws w)
         (archive_of response options (reading w 0) (reading w 1))) in
  exists w' anchor tx receipt,
    record client fetchPromise options w
    = (inl (Error "Failed to upload to IPFS: fetch failed"), w')
    /\ trace (chain w') = trace (chain w) ++ [anchor]
    /\ submit (chain w) anchor = inr tx
    /\ wait tx = inr receipt
    /\ delivered w' = delivered w
    /\ blocks w' = <[cid_of block := block]> (blocks w)
    /\ faults w' = fs.
Proof.
  intros Hmanual Hfetch Hconfirms Hfaults block.
  rewrite (record_run _ _ _ _ _ Hfetch). cbn zeta.
  rewrite upload_accepted
    by (unfold accepts_next; cbn [faults with_ticks]; rewrite Hfaults; exact I).
  rewrite Hmanual.
  assert (Hchain :
            chain (if wants (ipfs client) (encrypt_flag client)
                   then with_draws (S (draws w))
                          (with_ticks (S (S (ticks w))) w)
                   else with_ticks (S (S (ticks w))) w) = chain w).
  { destruct (wants _ _); reflexivity. }
  cbn [cid ticks with_ticks draws faults chain with_blocks with_faults].
  rewrite Hchain.
  match goal with
  | |- context [submit (chain w) ?c] =>
      destruct (Hconfirms c) as (tx & receipt & Hsubmit & Hwait);
      set (anchor := c) in *
  end.
  rewrite Hsubmit, Hwait.
  rewrite createCertificate_run by apply reading_valid.
  rewrite (upload_refused _ _ _ _ fs).
  2:{ destruct (wants _ _); cbn; rewrite Hfaults; reflexivity. }
  eexists. exists anchor, tx, receipt.
  split; [reflexivity|].
  destruct (wants _ _); cbn; rewrite ?Hfaults; repeat split; assumption.
Qed.

(** X17.  No error leaves [record] or [batchRecord] with the code
    [INSUFFICIENT_FUNDS] or [NETWORK_ERROR]: [handleError] replaces such
    an error by a new [Error], which has no code; every other error
    passes unchanged. *)
Theorem pipeline_errors_translated :
  (forall fetchPromise options w e w',
      record client fetchPromise options w = (inl e, w') ->
      code e <> Some "INSUFFICIENT_FUNDS" /\ code e <> Some "NETWORK_ERROR")
  /\ (forall records visibility w e w',
         batchRecord client records visibility w = (inl e, w') ->
         code e <> Some "INSUFFICIENT_FUNDS" /\ code e <> Some "NETWORK_ERROR").
Proof.
  split.
  - intros fetchPromise options w e w' Hrun.
    apply try_catch_rethrow_inl in Hrun as (cause & _ & ->).
    apply handleError_translated.
  - intros records visibility w e w' Hrun.
    apply try_catch_rethrow_inl in Hrun as (cause & _ & ->).
    apply handleError_translated.
Qed.

(** X18.  The [onRecord] callback is called at the end of a run of
    [record] whose steps all succeeded, with the receipt, inside the
    [try] of [record].  A run that returns has called it once, and it
    returned; a run that throws either has not called it, or has called
    it once on the receipt of the record it anchored and rejects with
    what [handleError] makes of the error the callback threw.  With
    auto-approval off, in a world where no call fails, [record] returns
    exactly when the callback returns.  [batchRecord] never calls it. *)
Theorem onRecord_delivery :
  (forall fetchPromise options w response proof w',
      record client fetchPromise options w = (inr (response, proof), w') ->
      match onRecord (config client) with
      | Some callback =>
          callback proof = None
          /\ delivered w' = delivered w ++ [recordId proof]
      | None => delivered w' = delivered w
      end)
  /\ (forall fetchPromise options w e w',
         record client fetchPromise options w = (inl e, w') ->
         delivered w' = delivered w
         \/ exists callback proof cause anchor,
              onRecord (config client) = Some callback
              /\ callback proof = Some cause
              /\ e = handleError cause
              /\ delivered w' = delivered w ++ [recordId proof]
              /\ trace (chain w') = trace (chain w) ++ [anchor])
  /\ (forall fetchPromise options w response callback,
         config_autoApprove client = false -> cooperative w ->
         outcome fetchPromise = inr response ->
         onRecord (config client) = Some callback ->
         exists proof w',
           delivered w' = delivered w ++ [recordId proof]
           /\ record client fetchPromise options w
              = (match callback proof with
                 | Some error => inl (handleError error)
                 | None => inr (response, proof)
                 end, w'))
  /\ (forall records visibility w,
         delivered (snd (batchRecord client records visibility w))
         = delivered w).
Proof.
  split; [|split; [|split]].
  - intros fetchPromise options w response proof w' Hrun.
    apply record_inr in Hrun
      as (_ & _ & tx & receipt & _ & _ & Hproof & Hcallback & _ & _ & Hdel
          & _).
    destruct (onRecord (config client)) as [callback|].
    + split; [exact Hcallback|]. rewrite Hdel, Hproof. reflexivity.
    + rewrite Hdel. apply app_nil_r.
  - intros fetchPromise options w e w' Hrun.
    apply record_inl in Hrun
      as [(Hdel & _)
         |(response & callback & proof & cause & _ & Hcallback & Hthrows
           & He & Hdel & (anchor & Htrace) & _)].
    + left. exact Hdel.
    + right. exists callback, proof, cause, anchor. repeat split; assumption.
  - intros fetchPromise options w response callback Hmanual Hcoop Hfetch
      Hcallback.
    destruct (record_completes fetchPromise options w response
                Hmanual Hcoop Hfetch) as (proof & w' & Hdel & Hrun).
    rewrite Hcallback in Hdel, Hrun. exists proof, w'.
    split; [exact Hdel|exact Hrun].
  - intros records visibility w.
    destruct (batchRecord_throws client records visibility w)
      as (e & w' & -> & _ & Hdel & _).
    exact Hdel.
Qed.

(** X19.  What a successful [record] leaves behind.  Its one call on
    the ledger is the anchor: it carries the digests of the request and
    response documents built from the response, the options and the two
    clock readings taken around the fetch, the CID of the archive and the
    code of the visibility.  The node holds two new blocks: the archive of
    the exchange, sealed when encryption applies, and the certificate
    page, never encrypted, which states the start time and, as date of
    generation, the clock reading taken when the page is rendered, after
    the confirmation.  The receipt's [ipfsUrl] is the client's gateway
    followed by the CID of the archive, its [certificateUrl] the
    service's gateway followed by the CID of the page, and its timestamp
    the clock reading taken before the fetch was awaited.  The run reads
    the clock five times. *)
Theorem receipt_names_archived_exchange fetchPromise options w response proof w' :
  record client fetchPromise options w = (inr (response, proof), w') ->
  let startTime := reading w 0 in
  let endTime := reading w 1 in
  let block :=
    utf8_encode
      (stored_text (ipfs client) (encrypt_flag client) (draws w)
         (archive_of response options startTime endTime)) in
  let page :=
    utf8_encode
      (certificate_html (network_name (config_network client))
         (recordId proof) (transactionHash proof) (toISOString startTime)
         (url response) (status response) (toISOString (reading w 3))) in
  trace (chain w')
  = trace (chain w)
    ++ [StoreAPIRecord
          (hashData (requestData_of response options startTime))
          (hashData (responseData_of response startTime endTime))
          (cid_of block)
          (visibility_code (default PUBLIC (visibility options)))]
  /\ blocks w' = <[cid_of page := page]> (<[cid_of block := block]> (blocks w))
  /\ ipfsUrl proof = config_ipfsGateway client +:+ cid_of block
  /\ certificateUrl proof = gatewayUrl (ipfs client) +:+ cid_of page
  /\ receipt_timestamp proof = startTime
  /\ ticks w' = (5 + ticks w)%nat.
Proof.
  intros Hrun. apply record_inr in Hrun
    as (_ & _ & tx & receipt & _ & _ & -> & _ & Htrace & Hblocks & _ & _
        & Hticks).
  cbn zeta. cbn [receipt_of recordId transactionHash ipfsUrl certificateUrl
                   receipt_timestamp IPFS.url].
  split; [exact Htrace|]. split; [exact Hblocks|].
  split; [reflexivity|]. split; [reflexivity|]. split; [reflexivity|].
  exact Hticks.
Qed.

(** X22.  The registry object has no function [recordPrice], so the
    allowance step throws before it makes any call: every run of
    [batchRecord], and every run of [record] with auto-approval, once the
    node has accepted the archive, rejects with the [TypeError] of the
    price read, which [handleError] passes unchanged.  The archive is
    stored; no call reaches the ledger, neither a read nor an approval nor
    an anchor, and the callback does not run. *)
Theorem price_read_failure_stops_before_writing :
  (forall records visibility w,
      accepts_next w ->
      let block :=
        utf8_encode
          (stored_text (ipfs client) (encrypt_flag client) (draws w)
             (batch_archive_of records (reading w 0))) in
      exists w',
        batchRecord client records visibility w
        = (inl (handleError price_read_error), w')
        /\ trace (chain w') = trace (chain w)
        /\ blocks w' = <[cid_of block := block]> (blocks w)
        /\ delivered w' = delivered w)
  /\ (forall fetchPromise options w response,
         config_autoApprove client = true ->
         outcome fetchPromise = inr response ->
         accepts_next w ->
         let block :=
           utf8_encode
             (stored_text (ipfs client) (encrypt_flag client) (draws w)
                (archive_of response options (reading w 0) (reading w 1))) in
         exists w',
           record client fetchPromise options w
           = (inl (handleError price_read_error), w')
           /\ trace (chain w') = trace (chain w)
           /\ blocks w' = <[cid_of block := block]> (blocks w)
           /\ delivered w' = delivered w)
  /\ handleError price_read_error
     = {| code := None;
          message := "this.proofRegistry.recordPrice is not a function" |}.
Proof.
  split; [|split].
  - intros records visibility w Hacc block.
    rewrite (batchRecord_accepted _ records visibility w Hacc).
    eexists. split; [reflexivity|].
    destruct (wants _ _); repeat split; reflexivity.
  - intros fetchPromise options w response Hauto Hfetch Hacc block.
    rewrite (record_run _ _ _ _ _ Hfetch). cbn zeta.
    rewrite upload_accepted by exact Hacc.
    rewrite Hauto. eexists. split; [reflexivity|].
    destruct (wants _ _); repeat split; reflexivity.
  - reflexivity.
Qed.

(** X23.  The archive of a recorded exchange reads back through the
    service.  After a successful [record], unless the certificate page
    happens to have the CID of the archive, [retrieve] on the CID named
    by the receipt's [ipfsUrl] returns what [JSON.parse] makes of the text
    of the archived document, which is the document when it reads back:
    with [decrypt = true] when the client encrypts, without decryption
    when it does not. *)
Theorem archived_exchange_reads_back fetchPromise options w response proof w' :
  record client fetchPromise options w = (inr (response, proof), w') ->
  let startTime := reading w 0 in
  let endTime := reading w 1 in
  let document := archive_of response options startTime endTime in
  let block :=
    utf8_encode (stored_text (ipfs client) (encrypt_flag client) (draws w) document) in
  let page :=
    utf8_encode
      (certificate_html (network_name (config_network client))
         (recordId proof) (transactionHash proof) (toISOString startTime)
         (url response) (status response) (toISOString (reading w 3))) in
  cid_of page <> cid_of block ->
  ipfsUrl proof = config_ipfsGateway client +:+ cid_of block
  /\ (wants (ipfs client) (encrypt_flag client) = true ->
      retrieve (ipfs client) (cid_of block) (Some true) w'
      = (inr (parsed_or_text (content_of document)), w')
      /\ (reads_back document ->
          retrieve (ipfs client) (cid_of block) (Some true) w'
          = (inr document, w')))
  /\ (wants (ipfs client) (encrypt_flag client) = false ->
      retrieve (ipfs client) (cid_of block) None w'
      = (inr (parsed_or_text (content_of document)), w')
      /\ (reads_back document ->
          retrieve (ipfs client) (cid_of block) None w' = (inr document, w'))).
Proof.
  intros Hrun. apply record_inr in Hrun
    as (_ & _ & tx & receipt & _ & _ & -> & _ & _ & Hblocks & _).
  cbn zeta. cbn [receipt_of recordId transactionHash ipfsUrl].
  intros Hdistinct. split; [reflexivity|].
  assert (Hblock : forall block page : bytes,
             cid_of page <> cid_of block ->
             blocks w' = <[cid_of page := page]> (<[cid_of block := block]> (blocks w)) ->
             blocks w' !! cid_of block = Some block).
  { intros block page Hne ->. rewrite lookup_insert_ne by exact Hne.
    apply lookup_insert_eq. }
  specialize (Hblock _ _ Hdistinct Hblocks). clear Hblocks.
  unfold stored_text in *. split.
  - intros Hwants. rewrite Hwants in *.
    assert (Hkey : truthy_str (ENCRYPTION_KEY (ipfs client)) = true).
    { unfold wants, encrypt_flag in Hwants.
      destruct (default false (encryptData (config client)));
        [exact Hwants|discriminate]. }
    rewrite (retrieve_sealed _ _ _ _ Hkey Hblock).
    split; [reflexivity|]. intros Hr. rewrite (reads_back_parsed _ Hr).
    reflexivity.
  - intros Hwants. rewrite Hwants in *.
    rewrite (retrieve_stored _ _ _ _ Hblock), utf8_decode_encode.
    split; [reflexivity|]. intros Hr. rewrite (reads_back_parsed _ Hr).
    reflexivity.
Qed.

End RecordingEdges.

(** ** The hooks of the middleware *)
Section HookRecording.
Import Middleware Hooks.
Context `{Runtime}.
Variable client : ProofClient.
Variable header_entries :
  option string -> list (string * string) -> list (string * string).

(** X25.  The submission of a flushed batch never rejects, although
    [batchRecord] throws on every batch: the hook's [catch] swallows the
    error.  It makes no call on the ledger, so no batch is anchored, and
    does not run the callback; when the node accepts the archive of the
    batch, that archive is what it leaves behind. *)
Theorem submitBatch_contained batch w :
  exists w',
    submitBatch client batch w = (inr tt, w')
    /\ trace (chain w') = trace (chain w)
    /\ delivered w' = delivered w
    /\ (accepts_next w ->
        let block :=
          utf8_encode
            (stored_text (ipfs client) (encrypt_flag client) (draws w)
               (batch_archive_of (map item_of_entry batch) (reading w 0))) in
        blocks w' = <[cid_of block := block]> (blocks w)).
Proof.
  unfold submitBatch, try_catch, bind, ret.
  destruct (accepts_or_refuses w) as [Hacc|[fs Hfs]].
  - rewrite (batchRecord_accepted client (map item_of_entry batch) None w Hacc).
    eexists. split; [reflexivity|].
    destruct (wants _ _); repeat split; reflexivity.
  - rewrite (batchRecord_refused client (map item_of_entry batch) None w fs Hfs).
    eexists. split; [reflexivity|].
    destruct (wants _ _); repeat split; try reflexivity.
    all: unfold accepts_next; rewrite Hfs; intros [].
Qed.

(** The options [recordImmediately] hands to [record]. *)
Lemma recordImmediately_run requestData responseData w :
  recordImmediately client header_entries requestData responseData w
  = match new_Response header_entries
            (JSON_stringify <$> rs_body responseData)
            (rs_status responseData) (rs_headers responseData) with
    | inl e => (inl e, w)
    | inr mock =>
        match record client
                {| outcome :=
                     inr {| url := rq_url requestData;
                            status := status mock;
                            statusText := statusText mock;
                            response_headers := response_headers mock;
                            text := text mock |} |}
                {| method := Some (rq_method requestData);
                   headers := Some (rq_headers requestData);
                   body := rq_body requestData;
                   metadata := Some (exchange_metadata requestData responseData);
                   visibility := None;
                   sharedWith := None |} w with
        | (inl e, w') => (inl e, w')
        | (inr recorded, w') => (inr (snd recorded), w')
        end
    end.
Proof.
  unfold recordImmediately, bind, lift, ret.
  destruct (new_Response _ _ _ _) as [e|mock]; [reflexivity|].
  destruct (record _ _ _ w) as [[e|recorded] w']; reflexivity.
Qed.

(** X26.  Recording an exchange at once never rejects, whatever
    [recordImmediately] does.  It makes at most one call on the ledger,
    and only with auto-approval off: a single-record anchor with the code
    of [PUBLIC], the middleware passing no visibility. *)
Theorem immediate_recording_contained requestData responseData w :
  exists w' calls,
    recordExchange client header_entries requestData responseData w
    = (inr tt, w')
    /\ trace (chain w') = trace (chain w) ++ calls
    /\ (calls = []
        \/ (config_autoApprove client = false
            /\ exists requestHash responseHash ipfsHash,
                 calls = [StoreAPIRecord requestHash responseHash ipfsHash
                            (visibility_code PUBLIC)])).
Proof.
  unfold recordExchange, try_catch, bind, ret.
  rewrite recordImmediately_run.
  destruct (new_Response _ _ _ _) as [e|mock].
  { exists w, []. rewrite app_nil_r. split; [reflexivity|].
    split; [reflexivity|]. left. reflexivity. }
  match goal with
  | |- context [record client ?f ?o w] =>
      pose proof (record_trace client f o w) as Htrace;
      destruct (record client f o w) as [[e|recorded] w']
  end;
    (destruct (Htrace _ _ eq_refl) as [Hnone|(Hmanual & rh & sh & ih & Hanchor)];
     [exists w', []; rewrite app_nil_r; split; [reflexivity|];
      split; [exact Hnone|]; left; reflexivity
     |exists w'; eexists; split; [reflexivity|]; split; [exact Hanchor|];
      right; split; [exact Hmanual|]; do 3 eexists; reflexivity]).
Qed.

(** X27.  What [recordImmediately] has anchored when it returns.  The
    request document carries the captured URL, method, headers and body,
    and the time of the recording, not the captured time.  The response
    document carries the captured status, the entries of the headers
    object made of the captured headers, an empty status text, as body
    the JSON text of the captured body, and as duration the difference
    of the two clock readings [record] takes around its [await] of the
    promise, which is resolved already: the time the await takes, not
    that of the exchange.  The captured time and the measured duration
    are in the metadata of the archive only. *)
Theorem immediate_recording_archives requestData responseData w receipt w' :
  recordImmediately client header_entries requestData responseData w
  = (inr receipt, w') ->
  let requestDocument :=
    JObj [("url", JStr (rq_url requestData));
          ("method", JStr (str_or (Some (rq_method requestData)) "GET"));
          ("headers", value_or (Some (rq_headers requestData)) (JObj []));
          ("timestamp", JNum (reading w 0));
          ("body", value_or (rq_body requestData) JNull)] in
  let responseDocument :=
    JObj [("status", JNum (rs_status responseData));
          ("statusText", JStr "");
          ("headers",
           JObj (map (fun kv => (fst kv, JStr (snd kv)))
                   (header_entries (JSON_stringify <$> rs_body responseData)
                      (rs_headers responseData))));
          ("body", JStr (default "" (JSON_stringify <$> rs_body responseData)));
          ("timestamp", JNum (reading w 1));
          ("duration", JNum (reading w 1 - reading w 0))] in
  let block :=
    utf8_encode
      (stored_text (ipfs client) (encrypt_flag client) (draws w)
         (JObj [("request", requestDocument);
                ("response", responseDocument);
                ("metadata", exchange_metadata requestData responseData)])) in
  trace (chain w')
  = trace (chain w)
    ++ [StoreAPIRecord (hashData requestDocument) (hashData responseDocument)
          (cid_of block) (visibility_code PUBLIC)]
  /\ ipfsUrl receipt = config_ipfsGateway client +:+ cid_of block
  /\ receipt_timestamp receipt = reading w 0.
Proof.
  rewrite recordImmediately_run. unfold new_Response.
  destruct ((rs_status responseData <? 200) || (599 <? rs_status responseData));
    [discriminate|].
  destruct (match JSON_stringify <$> rs_body responseData with
            | Some _ => null_body_status (rs_status responseData)
            | None => false
            end); [discriminate|].
  cbn [url status statusText response_headers text].
  match goal with
  | |- context [record client ?f ?o w] =>
      destruct (record client f o w) as [[e|[response proof]] w1] eqn:Hrun
  end; [discriminate|].
  intros Heq. inversion Heq; subst receipt w'; clear Heq.
  apply record_inr in Hrun
    as (_ & Hfetch & tx & confirmation & _ & _ & -> & _ & Htrace & _).
  cbn [outcome] in Hfetch. injection Hfetch as <-.
  cbn zeta. cbn [snd receipt_of ipfsUrl receipt_timestamp].
  split; [exact Htrace|]. split; reflexivity.
Qed.

(** X28.  [recordImmediately] rebuilds the response with [new Response],
    which throws for a status outside 200..599 and for a body given with
    a status 204, 205 or 304.  Such an exchange is not recorded: the
    error is thrown before [record] is called, the hook logs it, and the
    world is as it was. *)
Theorem unbuildable_response_is_not_recorded requestData responseData w :
  rs_status responseData < 200 \/ 599 < rs_status responseData
  \/ (is_Some (rs_body responseData)
      /\ null_body_status (rs_status responseData) = true) ->
  (exists e,
      recordImmediately client header_entries requestData responseData w
      = (inl e, w))
  /\ recordExchange client header_entries requestData responseData w
     = (inr tt, w).
Proof.
  intros Hbad.
  assert (Hnew : exists e,
             new_Response header_entries
               (JSON_stringify <$> rs_body responseData)
               (rs_status responseData) (rs_headers responseData) = inl e).
  { unfold new_Response.
    destruct (Z.ltb_spec (rs_status responseData) 200) as [Hlow|Hlow];
      [eexists; reflexivity|].
    destruct (Z.ltb_spec 599 (rs_status responseData)) as [Hhigh|Hhigh];
      [eexists; reflexivity|].
    destruct Hbad as [Hbad|[Hbad|[[b Hbody] Hnull]]]; [lia|lia|].
    rewrite Hbody, Hnull. eexists. reflexivity. }
  destruct Hnew as [e Hnew].
  assert (Hrun : recordImmediately client header_entries requestData
                   responseData w = (inl e, w)).
  { rewrite recordImmediately_run, Hnew. reflexivity. }
  split; [exists e; exact Hrun|].
  unfold recordExchange, try_catch, bind. rewrite Hrun. reflexivity.
Qed.

End HookRecording.

Section RecordingEdgesExamples.
Import Middleware Hooks.
#[local] Existing Instance Reference.runtime.

Lemma flaky_confirms fs : confirms (chain (flaky fs)).
Proof. intros c. do 2 eexists. split; reflexivity. Qed.

(** On the ledger that rejects anchors [record] fails. *)
Lemma unfunded_record_fails :
  exists e w',
    record manual_client price_fetch no_options unfunded = (inl e, w').
Proof.
  destruct (record manual_client price_fetch no_options unfunded)
    as [[e|[r p]] w'] eqn:Hrun; [exists e, w'; reflexivity|].
  exfalso. apply record_inr in Hrun
    as (_ & _ & tx & receipt & Hsubmit & _).
  cbn in Hsubmit. discriminate.
Qed.

Lemma rejected_fetch_is_not_recorded_witness :
  exists w',
    record default_client failed_fetch no_options (world0 single_logs)
    = (inl (Error "Network error. Please check your connection."), w')
    /\ blocks w' = ∅ /\ trace (chain w') = [].
Proof.
  destruct (rejected_fetch_is_not_recorded default_client failed_fetch
              no_options (world0 single_logs) _ eq_refl)
    as (w' & Hrun & Hblocks & _ & Htrace & _).
  exists w'. split; [exact Hrun|]. split; [exact Hblocks|exact Htrace].
Defined.

Lemma failed_run_keeps_archive_witness :
  (exists e w' block,
      record manual_client price_fetch no_options unfunded = (inl e, w')
      /\ blocks w' = <[cid_of block := block]> ∅)
  /\ (exists e w' block,
         batchRecord default_client two_items None (world0 batch_logs)
         = (inl e, w')
         /\ blocks w' = <[cid_of block := block]> ∅).
Proof.
  destruct (failed_run_keeps_archive manual_client) as [Hsingle _].
  destruct (failed_run_keeps_archive default_client) as [_ Hbatch].
  split.
  - destruct unfunded_record_fails as (e & w' & Hrun).
    exists e, w'. eexists. split; [exact Hrun|].
    destruct (Hsingle price_fetch no_options unfunded _ e w' eq_refl I Hrun)
      as [[_ Hblocks]|(callback & _ & _ & Hcallback & _)].
    + exact Hblocks.
    + discriminate Hcallback.
  - destruct (Hbatch two_items None (world0 batch_logs) I)
      as (e & w' & Hrun & Hblocks).
    exists e, w'. eexists. split; [exact Hrun|exact Hblocks].
Defined.

Lemma certificate_failure_after_anchor_witness :
  exists w' anchor block,
    record manual_client price_fetch no_options (flaky [false; true])
    = (inl (Error "Failed to upload to IPFS: fetch failed"), w')
    /\ trace (chain w') = [anchor]
    /\ delivered w' = []
    /\ blocks w' = <[cid_of block := block]> ∅.
Proof.
  destruct (certificate_failure_after_anchor manual_client price_fetch
              no_options (flaky [false; true]) _ [] eq_refl eq_refl
              (flaky_confirms _) eq_refl)
    as (w' & anchor & tx & receipt & Hrun & Htrace & _ & _ & Hdel & Hblocks
        & _).
  exists w', anchor. eexists. split; [exact Hrun|]. split; [exact Htrace|].
  split; [exact Hdel|exact Hblocks].
Defined.

Lemma pipeline_errors_translated_witness :
  exists e w',
    record manual_client price_fetch no_options unfunded = (inl e, w')
    /\ code e <> Some "INSUFFICIENT_FUNDS".
Proof.
  destruct unfunded_record_fails as (e & w' & Hrun).
  destruct (pipeline_errors_translated manual_client) as [Hsingle _].
  exists e, w'. split; [exact Hrun|].
  apply (Hsingle _ _ _ _ _ Hrun).
Defined.

Lemma onRecord_delivery_witness :
  (exists proof w',
      record faulty_listener price_fetch no_options (world0 single_logs)
      = (inl listener_error, w')
      /\ delivered w' = [recordId proof])
  /\ (exists response proof w',
         record sealing_client price_fetch no_options (world0 single_logs)
         = (inr (response, proof), w')
         /\ delivered w' = [recordId proof])
  /\ delivered
       (snd (batchRecord default_client two_items None (world0 batch_logs)))
     = [].
Proof.
  split; [|split].
  - destruct (onRecord_delivery faulty_listener) as (_ & _ & Hends & _).
    destruct (Hends price_fetch no_options (world0 single_logs) _ _ eq_refl
                (world0_cooperative _) eq_refl eq_refl)
      as (proof & w' & Hdel & Hrun).
    exists proof, w'. split; [exact Hrun|exact Hdel].
  - destruct (onRecord_delivery sealing_client) as (Hok & _ & Hends & _).
    destruct (Hends price_fetch no_options (world0 single_logs) _ _ eq_refl
                (world0_cooperative _) eq_refl eq_refl)
      as (proof & w' & Hdel & Hrun).
    eexists. exists proof, w'. split; [exact Hrun|exact Hdel].
  - destruct (onRecord_delivery default_client) as (_ & _ & _ & Hbatch).
    apply Hbatch.
Defined.

Lemma sealing_client_quiet : quiet sealing_client.
Proof. intros receipt. reflexivity. Qed.

Lemma receipt_names_archived_exchange_witness :
  exists response proof w' requestHash responseHash ipfsHash,
    record manual_client price_fetch no_options (world0 single_logs)
    = (inr (response, proof), w')
    /\ trace (chain w')
       = [StoreAPIRecord requestHash responseHash ipfsHash 0]
    /\ ipfsUrl proof = "https://ipfs.io/ipfs/" +:+ ipfsHash
    /\ receipt_timestamp proof = 1700000000000
    /\ is_Some (blocks w' !! ipfsHash).
Proof.
  destruct (record_succeeds manual_client price_fetch no_options
              (world0 single_logs) _ eq_refl I (world0_cooperative _) eq_refl)
    as (proof & w' & Hrun).
  destruct (receipt_names_archived_exchange manual_client _ _ _ _ _ _ Hrun)
    as (Htrace & Hblocks & Hipfs & _ & Htime & _).
  eexists. exists proof, w'. do 3 eexists.
  split; [exact Hrun|]. split; [exact Htrace|]. split; [exact Hipfs|].
  split; [exact Htime|].
  rewrite Hblocks.
  match goal with
  | |- is_Some (<[?c := ?page]> (<[?k := ?block]> ?m) !! ?k) =>
      destruct (decide (c = k)) as [->|Hne];
        [rewrite lookup_insert_eq
        |rewrite lookup_insert_ne by exact Hne; rewrite lookup_insert_eq];
        eexists; reflexivity
  end.
Defined.

Lemma price_read_failure_stops_before_writing_witness :
  (exists w',
      batchRecord default_client two_items None (world0 batch_logs)
      = (inl (Error "this.proofRegistry.recordPrice is not a function"), w')
      /\ trace (chain w') = [])
  /\ (exists w',
         record default_client price_fetch no_options (world0 single_logs)
         = (inl (Error "this.proofRegistry.recordPrice is not a function"), w')
         /\ trace (chain w') = []).
Proof.
  destruct (price_read_failure_stops_before_writing default_client)
    as (Hbatch & Hsingle & _).
  split.
  - destruct (Hbatch two_items None (world0 batch_logs) I)
      as (w' & Hrun & Htrace & _).
    exists w'. split; [exact Hrun|exact Htrace].
  - destruct (Hsingle price_fetch no_options (world0 single_logs) _
                eq_refl eq_refl I)
      as (w' & Hrun & Htrace & _).
    exists w'. split; [exact Hrun|exact Htrace].
Defined.

Lemma archived_exchange_reads_back_witness :
  exists response proof w' ipfsHash archived,
    record sealing_client price_fetch no_options (world0 single_logs)
    = (inr (response, proof), w')
    /\ ipfsUrl proof = "https://ipfs.io/ipfs/" +:+ ipfsHash
    /\ retrieve keyed ipfsHash (Some true) w' = (inr archived, w')
    /\ archived
       = archive_of response no_options 1700000000000 1700000000040.
Proof.
  destruct (record_succeeds sealing_client price_fetch no_options
              (world0 single_logs) _ eq_refl sealing_client_quiet
              (world0_cooperative _) eq_refl)
    as (proof & w' & Hrun).
  destruct (archived_exchange_reads_back sealing_client _ _ _ _ _ _ Hrun)
    as (Hipfs & Hsealed & _).
  { pose proof (record_inr _ _ _ _ _ _ _ Hrun)
      as (_ & _ & tx & receipt & Hsubmit & Hwait & -> & _).
    cbn in Hsubmit. injection Hsubmit as <-.
    cbn in Hwait. injection Hwait as <-.
    vm_compute. discriminate. }
  destruct (Hsealed eq_refl) as [_ Hback].
  eexists. exists proof, w'. do 2 eexists.
  split; [exact Hrun|]. split; [exact Hipfs|].
  split; [apply Hback; vm_compute; reflexivity|reflexivity].
Defined.

Lemma submitBatch_contained_witness :
  exists w' block,
    submitBatch default_client queued unfunded = (inr tt, w')
    /\ trace (chain w') = []
    /\ blocks w' = <[cid_of block := block]> ∅.
Proof.
  destruct (submitBatch_contained default_client queued unfunded)
    as (w' & Hrun & Htrace & _ & Hblocks).
  exists w'. eexists. split; [exact Hrun|]. split; [exact Htrace|].
  exact (Hblocks I).
Defined.

Lemma immediate_recording_contained_witness :
  (exists w',
      recordExchange default_client fetch_entries listing listed unfunded
      = (inr tt, w')
      /\ trace (chain w') = [])
  /\ (exists w' calls,
         recordExchange manual_client fetch_entries listing listed unfunded
         = (inr tt, w')
         /\ trace (chain w') = calls
         /\ Forall (fun c => match c with
                             | StoreAPIRecord _ _ _ level => level = 0
                             | _ => False
                             end) calls).
Proof.
  split.
  - destruct (immediate_recording_contained default_client fetch_entries
                listing listed unfunded)
      as (w' & calls & Hrun & Htrace & [->|(Hmanual & _)]).
    + exists w'. split; [exact Hrun|exact Htrace].
    + discriminate Hmanual.
  - destruct (immediate_recording_contained manual_client fetch_entries
                listing listed unfunded)
      as (w' & calls & Hrun & Htrace & Hcalls).
    exists w', calls. split; [exact Hrun|]. split; [exact Htrace|].
    destruct Hcalls as [->|(_ & rh & sh & ih & ->)];
      repeat constructor.
Defined.

Lemma immediate_recording_archives_witness :
  exists receipt w' requestHash responseHash ipfsHash,
    recordImmediately manual_client fetch_entries listing listed
      (world0 single_logs)
    = (inr receipt, w')
    /\ trace (chain w')
       = [StoreAPIRecord requestHash responseHash ipfsHash 0]
    /\ responseHash
       = hashData
           (JObj [("status", JNum 200); ("statusText", JStr "");
                  ("headers", JObj [("content-type", JStr "application/json")]);
                  ("body", JStr "[1,2]");
                  ("timestamp", JNum 1700000000040);
                  ("duration", JNum 40)])
    /\ receipt_timestamp receipt = 1700000000000.
Proof.
  destruct (record_succeeds manual_client
              {| outcome :=
                   inr {| url := rq_url listing; status := 200;
                          statusText := "";
                          response_headers := rs_headers listed;
                          text := "[1,2]" |} |}
              {| method := Some (rq_method listing);
                 headers := Some (rq_headers listing);
                 body := rq_body listing;
                 metadata := Some (exchange_metadata listing listed);
                 visibility := None; sharedWith := None |}
              (world0 single_logs) _ eq_refl I (world0_cooperative _) eq_refl)
    as (proof & w' & Hrecord).
  assert (Hrun : recordImmediately manual_client fetch_entries listing listed
                   (world0 single_logs) = (inr proof, w')).
  { rewrite recordImmediately_run.
    change (new_Response fetch_entries (JSON_stringify <$> rs_body listed) (rs_status listed)
              (rs_headers listed))
      with (@inr js_error Response
              {| url := ""; status := 200; statusText := "";
                 response_headers := rs_headers listed; text := "[1,2]" |}).
    cbn [url status statusText response_headers text].
    rewrite Hrecord. reflexivity. }
  destruct (immediate_recording_archives manual_client fetch_entries listing listed _ _ _ Hrun)
    as (Htrace & _ & Htime).
  exists proof, w'. do 3 eexists.
  split; [exact Hrun|]. split; [exact Htrace|]. split; [reflexivity|exact Htime].
Defined.

Lemma unbuildable_response_is_not_recorded_witness :
  recordExchange default_client fetch_entries listing no_content (world0 single_logs)
  = (inr tt, world0 single_logs).
Proof.
  apply (unbuildable_response_is_not_recorded default_client fetch_entries listing no_content
           (world0 single_logs)).
  right. right. split; [eexists; reflexivity|reflexivity].
Defined.

End RecordingEdgesExamples.
